(** * book-backend: seat locks, booking commit, settlement and caching

    A shallow embedding of the seat reservation core of the ticket-booking
    backend and the proofs of its properties.  Embedded from the source:
    - config/redis.js: the in-memory client ([InMemory]) and the methods of
      the proxy ([Proxy]);
    - the Booking model with its partial unique index ([Bookings]), the
      Movie, Show and Payment models;
    - routes/show.routes.js: the seat map and the seat-lock handler, with
      its Lua script and its per-seat loops ([ShowRoutes]);
    - the bookings router: create and cancel ([BookingRoutes]);
    - routes/payment.routes.js: the mock settlement ([PaymentRoutes]);
    - routes/movie.routes.js: the cached reads and the create handler
      ([MovieRoutes]);
    - routes/admin.routes.js: the update and the deactivation of a movie
      ([AdminRoutes]).

    Conventions of the embedding:
    - time is [Z] milliseconds ([Date.now()]); in [step] and [run] a handler
      runs at one instant [now], from its first line to its answer, and the
      callbacks armed with [setTimeout] run between requests
      ([InMemory.tick], [fire_timers]); the lock handler is also given
      [await] by [await] ([LockTask]), for requests that overlap;
    - a number is an integer ([Z]); JavaScript numbers are exact and are
      rendered in decimal digits up to 2^53 - 1 in absolute value, and the
      properties that depend on a rendering or a product say so;
    - a string written with [JSON.stringify] is represented by the value it
      encodes ([payload]); [JSON.parse] gives that value back and throws on
      [PBad];
    - a collection is the list of its documents in insertion order; the
      [_id] of a booking is its position (no route deletes a booking); the
      [_id] of a movie, which the routes interpolate in cache keys, is a
      string given by the driver; ids are well-formed, and validators other
      than those written out below are not modelled;
    - the key store is the in-memory client that [getRedisClient] installs
      behind the proxy at start-up; the swap to a network client on a
      later connection, the other admin routes and the creation of shows
      are not modelled (none of them writes a booking or a seat lock). *)

From stdpp Require Import gmap strings list fin_maps pretty.
From Stdlib Require Import ZArith QArith Lia Ascii.

Open Scope string_scope.
Open Scope list_scope.
Open Scope Z_scope.

(* ===================================================================== *)
(** ** Values held in the key store *)
(* ===================================================================== *)

(** A movie document (models/Movie). *)
Record Movie := mkMovie {
  movie_id : string;
  title : string;
  releaseDate : option Z;
  rating : option Q;
  movie_isActive : bool
}.

(** The strings the routes write with [JSON.stringify], by what they encode;
    [PBad s] is a string on which [JSON.parse] throws. *)
Inductive payload :=
| PLock (userId : string) (lockedAt : Z)
| PMovies (ms : list Movie)
| PMovie (m : Movie)
| PBad (s : string).

(** JS truthiness of a stored string: only the empty string is falsy. *)
Definition truthy (p : payload) : bool :=
  match p with
  | PBad "" => false
  | _ => true
  end.

(** What the JS [Map] of the in-memory client holds under a key: an entry
    object [{ value, expiresAt }] written by [set], or the bare counter
    string written by [incr] ([None] is the string "NaN"). *)
Inductive slot :=
| Entry (value : payload) (expiresAt : option Z)
| Count (n : option Z).

(* ===================================================================== *)
(** ** config/redis.js: createInMemoryClient *)
(* ===================================================================== *)

Module InMemory.

(** [store] and [ttlTimers]; a timer is kept as its firing time. *)
Record client := mkClient {
  store : gmap string slot;
  ttlTimers : gmap string Z
}.

Definition empty : client := mkClient ∅ ∅.

(** The timers whose delay has elapsed at [now]. *)
Definition due (now : Z) (c : client) : gmap string Z :=
  filter (λ kv, kv.2 ≤ now) (ttlTimers c).

(** The [setTimeout] callbacks: [store.delete(key); ttlTimers.delete(key)]
    for every timer that is due. *)
Definition tick (now : Z) (c : client) : client :=
  mkClient (filter (λ kv, due now c !! kv.1 = None) (store c))
           (filter (λ kv, ¬ kv.2 ≤ now) (ttlTimers c)).

(** [get(key)]: result ([None] for null or undefined) and the client
    after the call; an entry is expired when [expiresAt && Date.now() >
    expiresAt], and is then deleted on read. *)
Definition get (now : Z) (key : string) (c : client) : option payload * client :=
  match store c !! key with
  | None => (None, c)
  | Some (Count _) => (None, c)
  | Some (Entry value expiresAt) =>
      match expiresAt with
      | Some e =>
          if bool_decide (e ≠ 0 ∧ now > e)
          then (None, mkClient (delete key (store c)) (ttlTimers c))
          else (Some value, c)
      | None => (Some value, c)
      end
  end.

(** The delay [setTimeout(callback, ms)] arms: Node sets a delay that is
    less than 1 or larger than 2147483647 to 1. *)
Definition timer_delay (ms : Z) : Z :=
  if bool_decide (1 ≤ ms ≤ 2147483647) then ms else 1.

(** [set(key, value, 'EX', ttlSeconds)] with a numeric [ttlSeconds], the
    only form the routes use. *)
Definition set (now : Z) (key : string) (value : payload) (ttlSeconds : Z)
    (c : client) : client :=
  let expiresAt := now + ttlSeconds * 1000 in
  let st := <[key := Entry value (Some expiresAt)]> (store c) in
  if bool_decide (ttlSeconds > 0)
  then mkClient st (<[key := now + timer_delay (ttlSeconds * 1000)]> (ttlTimers c))
  else mkClient st (ttlTimers c).

(** [del(key)] with one key: the timer of the key is left armed. *)
Definition del (key : string) (c : client) : client :=
  mkClient (delete key (store c)) (ttlTimers c).

(** [del(keys)] with an array. *)
Definition del_all (keys : list string) (c : client) : client :=
  foldl (λ c k, del k c) c keys.

Fixpoint includes_star (s : string) : bool :=
  match s with
  | EmptyString => false
  | String a r => if Ascii.eqb a "*"%char then true else includes_star r
  end.

(** [pattern.split('*')[0]] *)
Fixpoint before_star (s : string) : string :=
  match s with
  | EmptyString => EmptyString
  | String a r => if Ascii.eqb a "*"%char then EmptyString else String a (before_star r)
  end.

Fixpoint startsWith (k p : string) : bool :=
  match p, k with
  | EmptyString, _ => true
  | String a p', String b k' => Ascii.eqb a b && startsWith k' p'
  | String _ _, EmptyString => false
  end.

(** [keys(pattern)] *)
Definition keys (pattern : string) (c : client) : list string :=
  if includes_star pattern
  then filter (λ k, startsWith k (before_star pattern) = true)
              (fst <$> map_to_list (store c))
  else if bool_decide (is_Some (store c !! pattern)) then [pattern] else [].

(** [Number(store.get(key) || '0')]: an entry object converts to NaN. *)
Definition as_number (o : option slot) : option Z :=
  match o with
  | None => Some 0
  | Some (Count n) => n
  | Some (Entry _ _) => None
  end.

(** [incr(key)]: the new count ([None] is NaN) and the client. *)
Definition incr (key : string) (c : client) : option Z * client :=
  let next := (λ n, n + 1) <$> as_number (store c !! key) in
  (next, mkClient (<[key := Count next]> (store c)) (ttlTimers c)).

(** [expire(key, ttlSeconds)]: [entry.expiresAt = ...] updates an entry
    object and is a silent no-op on a counter string; the timer is
    re-armed in both cases. *)
Definition expire (now : Z) (key : string) (ttlSeconds : Z) (c : client) : client :=
  match store c !! key with
  | None => c
  | Some sl =>
      let sl' := match sl with
                 | Entry v _ => Entry v (Some (now + ttlSeconds * 1000))
                 | Count n => Count n
                 end in
      mkClient (<[key := sl']> (store c))
               (<[key := now + timer_delay (ttlSeconds * 1000)]> (ttlTimers c))
  end.

End InMemory.

(** The [proxy] object that [getRedisClient] hands to the routers: it
    delegates each of its methods to the current client, here the in-memory
    one.  These are all the methods it has. *)
Module Proxy.

Definition methods : list string :=
  ["get"; "set"; "del"; "keys"; "incr"; "expire"; "pttl"; "ttl"; "ping"; "disconnect"].

(** [typeof redis[name] === 'function'] *)
Definition is_function (name : string) : bool :=
  existsb (String.eqb name) methods.

End Proxy.

(* ===================================================================== *)
(** ** The documents: models/Show, the Booking model, models/Payment *)
(* ===================================================================== *)

Record SeatLayout := mkSeatLayout {
  row : string;
  number : Z;
  seat_type : string
}.

Record Show := mkShow {
  show_movieId : string;
  theatreName : string;
  city : string;
  totalSeats : Z;
  seatLayout : list SeatLayout;
  basePrice : Z;
  show_isActive : bool
}.

Inductive BookingStatus := CONFIRMED | CANCELLED.
Inductive PaymentStatus := PENDING | SUCCESS | FAILED.
Inductive BookingSource := WEB | MOBILE.

Record Booking := mkBooking {
  userId : string;
  showId : string;
  movieId : string;
  seats : list string;
  totalAmount : Z;
  bookingStatus : BookingStatus;
  paymentStatus : PaymentStatus;
  bookingSource : BookingSource;
  cancelledAt : option Z
}.

Record Payment := mkPayment {
  pay_bookingId : nat;
  pay_userId : string;
  amount : Z;
  paymentMethod : string;
  transactionId : string;
  pay_paymentStatus : PaymentStatus;
  failureReason : option string;
  paidAt : option Z
}.

Global Instance BookingStatus_eq_dec : EqDecision BookingStatus.
Proof. solve_decision. Defined.
Global Instance PaymentStatus_eq_dec : EqDecision PaymentStatus.
Proof. solve_decision. Defined.

(* ===================================================================== *)
(** ** The bookings collection and its partial unique index

    [bookingSchema.index({ showId: 1, seats: 1 },
       { unique: true, partialFilterExpression: { bookingStatus: 'CONFIRMED' } })]

    MongoDB keeps, for every document that matches the partial filter, one
    index key per element of the array field (one key with a null seat for
    an empty array), and refuses a write that would give two different
    documents the same key (error code 11000). *)
(* ===================================================================== *)

Module Bookings.

Definition index_keys (b : Booking) : list (string * option string) :=
  match bookingStatus b with
  | CANCELLED => []
  | CONFIRMED =>
      match seats b with
      | [] => [(showId b, None)]
      | ss => (λ s, (showId b, Some s)) <$> ss
      end
  end.

(** Does [b] share an index key with a document of the collection? *)
Definition duplicate_key (b : Booking) (coll : list Booking) : bool :=
  bool_decide (Exists (λ e, Exists (λ k, k ∈ index_keys e) (index_keys b)) coll).

(** [Booking.create(doc)]: [None] is the duplicate-key error (code 11000);
    otherwise the new [_id] and the collection with the document added.
    The validation of the document against the schema is not modelled. *)
Definition create (b : Booking) (coll : list Booking) : option (nat * list Booking) :=
  if duplicate_key b coll then None else Some (List.length coll, coll ++ [b]).

(** [Booking.findById(id)] *)
Definition findById (id : nat) (coll : list Booking) : option Booking := coll !! id.

(** [Booking.findOne({ _id: id, userId })] *)
Definition findOne (id : nat) (user : string) (coll : list Booking) : option Booking :=
  match coll !! id with
  | Some b => if bool_decide (userId b = user) then Some b else None
  | None => None
  end.

(** [booking.save()] of the document loaded under [id]: an update that
    leaves the index keys of the document as they were does not touch the
    index; otherwise the new keys are checked against the other documents. *)
Definition save (id : nat) (b : Booking) (coll : list Booking) : option (list Booking) :=
  match coll !! id with
  | None => None
  | Some old =>
      if bool_decide (index_keys b = index_keys old) then Some (<[id := b]> coll)
      else if duplicate_key b (take id coll ++ drop (S id) coll) then None
      else Some (<[id := b]> coll)
  end.

(** [Booking.find({ showId, seats: { $in: seats }, bookingStatus: { $ne: 'CANCELLED' } })] *)
Definition find_conflicting (show : string) (ss : list string) (coll : list Booking)
    : list Booking :=
  filter (λ e, showId e = show ∧ Exists (λ s, s ∈ ss) (seats e)
               ∧ bookingStatus e ≠ CANCELLED) coll.

End Bookings.

(* ===================================================================== *)
(** ** The movies collection *)
(* ===================================================================== *)

Module Movies.

(** [releaseDate] order of MongoDB: a missing date sorts lowest. *)
Definition date_leb (a b : option Z) : bool :=
  match a, b with
  | None, _ => true
  | Some _, None => false
  | Some x, Some y => bool_decide (x ≤ y)
  end.

(** Insertion into a list kept in descending [releaseDate] order. *)
Fixpoint insert_desc (m : Movie) (l : list Movie) : list Movie :=
  match l with
  | [] => [m]
  | x :: r => if date_leb (releaseDate m) (releaseDate x)
              then x :: insert_desc m r else m :: l
  end.

(** [Movie.find({ isActive: true }).sort({ releaseDate: -1 })] *)
Definition find_active (coll : list Movie) : list Movie :=
  foldr insert_desc [] (filter (λ m, movie_isActive m = true) coll).

(** [Movie.findById(id)] *)
Definition findById (id : string) (coll : list Movie) : option Movie :=
  List.find (λ m, bool_decide (movie_id m = id)) coll.

(** The validator of [rating]: [min: 0, max: 10]. *)
Definition rating_valid (r : option Q) : bool :=
  match r with
  | None => true
  | Some q => Qle_bool (0 # 1) q && Qle_bool q (10 # 1)
  end.

(** [Movie.create(doc)] with the [_id] the driver generated; [None] when
    the [_id] is taken or the [rating] validator refuses. *)
Definition create (m : Movie) (coll : list Movie) : option (list Movie) :=
  if bool_decide (is_Some (findById (movie_id m) coll)) then None
  else if rating_valid (rating m) then Some (coll ++ [m]) else None.

End Movies.

(* ===================================================================== *)
(** ** Process state, notifications and responses *)
(* ===================================================================== *)

(** The events published with [io.to(room).emit(name, data)]. *)
Inductive event :=
| seatsLocked (show : string) (ss : list string) (user : string)
| seatsBooked (show : string) (ss : list string)
| seatsClearedAfterPayment (show : string).

Record world := mkWorld {
  redis : InMemory.client;
  shows : gmap string Show;
  movies : list Movie;
  bookings : list Booking;
  payments : list Payment;
  emitted : list (string * event)
}.

Definition with_redis (c : InMemory.client) (w : world) : world :=
  mkWorld c (shows w) (movies w) (bookings w) (payments w) (emitted w).
Definition with_movies (ms : list Movie) (w : world) : world :=
  mkWorld (redis w) (shows w) ms (bookings w) (payments w) (emitted w).
Definition with_bookings (bs : list Booking) (w : world) : world :=
  mkWorld (redis w) (shows w) (movies w) bs (payments w) (emitted w).
Definition with_payments (ps : list Payment) (w : world) : world :=
  mkWorld (redis w) (shows w) (movies w) (bookings w) ps (emitted w).

(** [io.to(`show:${showId}`).emit(...)]; index.js always installs [io]. *)
Definition emit (show : string) (e : event) (w : world) : world :=
  mkWorld (redis w) (shows w) (movies w) (bookings w) (payments w)
          (emitted w ++ [("show:" +:+ show, e)]).

(** The seat annotation of the seat map.  [lockedByUser] is the value of
    [isLocked && userId && String(lock.userId) === String(userId)]: false,
    null ([None]) or a boolean. *)
Record SeatView := mkSeatView {
  seatId : string;
  view_row : string;
  view_number : Z;
  view_type : string;
  isLocked : bool;
  lockedByUser : option bool
}.

Inductive body :=
| Message (m : string)
| LockedSeats (lockedSeats : list string) (lockExpiresInSeconds : Z)
| Conflicts (conflicts : list string)
| InvalidSeats (invalidSeats : list string)
| BookingCreated (id : nat) (b : Booking)
| BookingCancelled (b : Booking)
| PaymentProcessed (p : Payment) (b : Booking)
| Cached (fromCache : bool) (data : payload)
| MovieCreated (m : Movie)
| SeatMap (ss : list SeatView).

Record response := Res { status : Z; res_body : body }.

(** [getSeatKey(showId, seatId)], the same in the three routers. *)
Definition getSeatKey (show seat : string) : string :=
  "seatlock:" +:+ show +:+ ":" +:+ seat.

(** [String(JSON.parse(raw).userId)]: [None] when the parse (or the
    property read) throws; a parsed value without the field gives
    "undefined". *)
Definition holder_of (p : payload) : option string :=
  match p with
  | PLock u _ => Some u
  | PMovies _ | PMovie _ => Some "undefined"
  | PBad _ => None
  end.

(** [(req.user && req.user.id) || null], with [req_user] the id of
    [req.user] when a middleware has set it: [None] is null. *)
Definition user_or_null (req_user : option string) : option string :=
  match req_user with
  | Some u => if bool_decide (u = "") then None else Some u
  | None => None
  end.

(** [isLocked && userId && String(lock.userId) === String(userId)] for the
    parsed value [lock] of a seat ([None] when the seat has none) and
    [isLocked = !!lock]: the first operand that is falsy, or the result of
    the comparison. *)
Definition locked_by_user (lock : option payload) (userId : option string)
    : option bool :=
  match lock with
  | None => Some false
  | Some p =>
      match userId with
      | None => None
      | Some u => Some (bool_decide (holder_of p = Some u))
      end
  end.

(** [count > max] on the result of [incr]; false on NaN. *)
Definition exceeds (count : option Z) (max : Z) : bool :=
  match count with
  | Some n => bool_decide (n > max)
  | None => false
  end.

(** Fired timers of the key store, between two requests. *)
Definition fire_timers (now : Z) (w : world) : world :=
  with_redis (InMemory.tick now (redis w)) w.

(* ===================================================================== *)
(** ** routes/show.routes.js *)
(* ===================================================================== *)

Module ShowRoutes.

Definition SEAT_LOCK_TTL_SECONDS : Z := 5 * 60.
Definition LOCK_RATE_LIMIT_TTL : Z := 60.
Definition LOCK_RATE_LIMIT_MAX : Z := 20.

Definition rateKey (user show : string) : string :=
  "ratelimit:lock:" +:+ user +:+ ":" +:+ show.

(** The test of one seat in the per-seat loop: is a conflict pushed? *)
Definition seat_conflicts (user : string) (existingRaw : option payload) : bool :=
  match existingRaw with
  | Some p =>
      if truthy p then
        match holder_of p with
        | Some h => bool_decide (h ≠ user)
        | None => true
        end
      else false
  | None => false
  end.

(** First loop of the per-seat branch: [conflicts] and the client after
    the reads. *)
Fixpoint collect_conflicts (now : Z) (user show : string) (ss : list string)
    (c : InMemory.client) : list string * InMemory.client :=
  match ss with
  | [] => ([], c)
  | seat :: rest =>
      let '(existingRaw, c1) := InMemory.get now (getSeatKey show seat) c in
      let '(cs, c2) := collect_conflicts now user show rest c1 in
      (if seat_conflicts user existingRaw then seat :: cs else cs, c2)
  end.

(** Second loop: [redis.set(key, payload, 'EX', SEAT_LOCK_TTL_SECONDS)]. *)
Fixpoint set_locks (now : Z) (user show : string) (ss : list string)
    (c : InMemory.client) : InMemory.client :=
  match ss with
  | [] => c
  | seat :: rest =>
      set_locks now user show rest
        (InMemory.set now (getSeatKey show seat) (PLock user now)
           SEAT_LOCK_TTL_SECONDS c)
  end.

(** [key.split(':').slice(1).join(':')] *)
Fixpoint after_colon (s : string) : string :=
  match s with
  | EmptyString => EmptyString
  | String a r => if Ascii.eqb a ":"%char then r else after_colon r
  end.

(** [key.split(':').slice(2).join(':')] *)
Definition seat_of_key (key : string) : string := after_colon (after_colon key).

(** [redis.call('exists', k) == 1] *)
Definition key_exists (now : Z) (k : string) (c : InMemory.client) : bool :=
  match InMemory.store c !! k with
  | Some (Entry _ (Some e)) => negb (bool_decide (now > e))
  | Some _ => true
  | None => false
  end.

(** The Lua script [lua] of the handler, called on [KEYS] with the payload
    and the TTL: the conflicting keys, or all keys set and no conflict. *)
Definition lua_lock (now : Z) (ks : list string) (value : payload) (ttl : Z)
    (c : InMemory.client) : list string * InMemory.client :=
  match filter (λ k, key_exists now k c = true) ks with
  | [] => ([], foldl (λ c k, InMemory.set now k value ttl c) c ks)
  | conflicts => (conflicts, c)
  end.

(** [POST /api/shows/:showId/lock-seats].  [redis] is the proxy of
    redis.js: the script is run when [typeof redis.eval === 'function'],
    the per-seat loops when it is not. *)
Definition lockSeats (now : Z) (user show : string) (ss : list string)
    (w : world) : response * world :=
  match ss with
  | [] => (Res 400 (Message "Seats array is required"), w)
  | _ =>
      let '(count, c1) := InMemory.incr (rateKey user show) (redis w) in
      let c2 := if bool_decide (count = Some 1)
                then InMemory.expire now (rateKey user show) LOCK_RATE_LIMIT_TTL c1
                else c1 in
      if exceeds count LOCK_RATE_LIMIT_MAX
      then (Res 429 (Message "Too many seat lock attempts. Please slow down."),
            with_redis c2 w)
      else
        match shows w !! show with
        | Some sh =>
            if show_isActive sh then
              let '(conflicts0, c3) :=
                if Proxy.is_function "eval" then
                  let '(result, c) :=
                    lua_lock now (getSeatKey show <$> ss) (PLock user now)
                      SEAT_LOCK_TTL_SECONDS c2 in
                  (seat_of_key <$> result, c)
                else ([], c2) in
              let '(conflicts, c4) :=
                match conflicts0 with
                | [] =>
                    if negb (Proxy.is_function "eval") then
                      let '(cs, c) := collect_conflicts now user show ss c3 in
                      (cs, match cs with
                           | [] => set_locks now user show ss c
                           | _ => c
                           end)
                    else (conflicts0, c3)
                | _ => (conflicts0, c3)
                end in
              let w' := emit show (seatsLocked show ss user) (with_redis c4 w) in
              match conflicts with
              | [] => (Res 200 (LockedSeats ss SEAT_LOCK_TTL_SECONDS), w')
              | _ => (Res 409 (Conflicts conflicts), w')
              end
            else (Res 404 (Message "Show not found"), with_redis c2 w)
        | None => (Res 404 (Message "Show not found"), with_redis c2 w)
        end
  end.

(** [lockedMap]: the parsed values of the lock keys, by seat. *)
Fixpoint locked_map (now : Z) (ks : list string) (c : InMemory.client)
    : gmap string payload * InMemory.client :=
  match ks with
  | [] => (∅, c)
  | k :: rest =>
      let '(val, c1) := InMemory.get now k c in
      let '(m, c2) := locked_map now rest c1 in
      (match val with
       | Some p =>
           if truthy p then
             match p with
             | PBad _ => m
             | _ => if bool_decide (is_Some (m !! seat_of_key k)) then m
                    else <[seat_of_key k := p]> m
             end
           else m
       | None => m
       end, c2)
  end.

(** The seats of a show: its layout, or the generated demo layout. *)
Definition base_seats (sh : Show) : list (string * string * Z * string) :=
  match seatLayout sh with
  | [] =>
      let perRow := if bool_decide (totalSeats sh = 0) then 10
                    else Z.min (totalSeats sh / 5) 12 in
      r ← ["A"; "B"; "C"; "D"; "E"];
      (λ n, (r +:+ "-" +:+ pretty (Z.of_nat n), r, Z.of_nat n, "REGULAR"))
        <$> seq 1 (Z.to_nat perRow)
  | layout =>
      (λ seat, (row seat +:+ "-" +:+ pretty (number seat), row seat, number seat,
                seat_type seat)) <$> layout
  end.

(** [GET /api/shows/:showId/seats]; [req_user] is [req.user], which no
    middleware sets on this route. *)
Definition getSeats (now : Z) (req_user : option string) (show : string)
    (w : world) : response * world :=
  match shows w !! show with
  | Some sh =>
      if show_isActive sh then
        let ks := InMemory.keys ("seatlock:" +:+ show +:+ ":" +:+ "*") (redis w) in
        let '(lockedMap, c1) := locked_map now ks (redis w) in
        let annotate := λ s : string * string * Z * string,
          let '(sid, r, n, t) := s in
          let lock := lockedMap !! sid in
          mkSeatView sid r n t (bool_decide (is_Some lock))
            (locked_by_user lock (user_or_null req_user)) in
        (Res 200 (SeatMap (annotate <$> base_seats sh)), with_redis c1 w)
      else (Res 404 (Message "Show not found"), w)
  | None => (Res 404 (Message "Show not found"), w)
  end.

End ShowRoutes.

(* ===================================================================== *)
(** ** The bookings router *)
(* ===================================================================== *)

Module BookingRoutes.

Definition BOOKING_RATE_LIMIT_TTL : Z := 60.
Definition BOOKING_RATE_LIMIT_MAX : Z := 10.

Definition rateKey (user : string) : string := "ratelimit:booking:" +:+ user.

(** The lock validation of one seat: is it pushed on [invalidSeats]? *)
Definition seat_invalid (user : string) (raw : option payload) : bool :=
  match raw with
  | None => true
  | Some p =>
      if truthy p then
        match holder_of p with
        | Some h => bool_decide (h ≠ user)
        | None => true
        end
      else true
  end.

Fixpoint collect_invalid (now : Z) (user show : string) (ss : list string)
    (c : InMemory.client) : list string * InMemory.client :=
  match ss with
  | [] => ([], c)
  | seat :: rest =>
      let '(raw, c1) := InMemory.get now (getSeatKey show seat) c in
      let '(inv, c2) := collect_invalid now user show rest c1 in
      (if seat_invalid user raw then seat :: inv else inv, c2)
  end.

(** [for (const seatId of seats) await redis.del(getSeatKey(showId, seatId))] *)
Definition clear_locks (show : string) (ss : list string) (c : InMemory.client)
    : InMemory.client :=
  foldl (λ c seat, InMemory.del (getSeatKey show seat) c) c ss.

(** The answer of the duplicate-key catch block: the requested seats found
    in the non-cancelled bookings of the show that the query returns. *)
Definition duplicate_answer (show : string) (ss : list string) (coll : list Booking)
    : response :=
  let conflicting := Bookings.find_conflicting show ss coll in
  let occupied := mjoin (seats <$> conflicting) in
  Res 409 (InvalidSeats (filter (λ s, s ∈ occupied) ss)).

(** [POST /api/bookings] *)
Definition createBooking (now : Z) (user show movie : string) (ss : list string)
    (w : world) : response * world :=
  if bool_decide (show = "" ∨ movie = "" ∨ ss = [])
  then (Res 400 (Message "showId, movieId and seats are required"), w)
  else
    let '(count, c1) := InMemory.incr (rateKey user) (redis w) in
    let c2 := if bool_decide (count = Some 1)
              then InMemory.expire now (rateKey user) BOOKING_RATE_LIMIT_TTL c1
              else c1 in
    if exceeds count BOOKING_RATE_LIMIT_MAX
    then (Res 429 (Message "Too many bookings. Please slow down."), with_redis c2 w)
    else
      match shows w !! show with
      | None => (Res 404 (Message "Show not found"), with_redis c2 w)
      | Some sh =>
          if negb (show_isActive sh)
          then (Res 404 (Message "Show not found"), with_redis c2 w)
          else
            match Movies.findById movie (movies w) with
            | None => (Res 404 (Message "Movie not found"), with_redis c2 w)
            | Some mv =>
                if negb (movie_isActive mv)
                then (Res 404 (Message "Movie not found"), with_redis c2 w)
                else
                  let '(invalidSeats, c3) := collect_invalid now user show ss c2 in
                  match invalidSeats with
                  | _ :: _ => (Res 409 (InvalidSeats invalidSeats), with_redis c3 w)
                  | [] =>
                      let doc := mkBooking user show movie ss
                                   (basePrice sh * Z.of_nat (List.length ss))
                                   CONFIRMED PENDING WEB None in
                      match Bookings.create doc (bookings w) with
                      | None =>
                          (duplicate_answer show ss (bookings w), with_redis c3 w)
                      | Some (id, coll) =>
                          let w1 := with_bookings coll
                                      (with_redis (clear_locks show ss c3) w) in
                          (Res 201 (BookingCreated id doc),
                           emit show (seatsBooked show ss) w1)
                      end
                  end
            end
      end.

(** [PUT /api/bookings/:id/cancel] *)
Definition cancelBooking (now : Z) (user : string) (id : nat) (w : world)
    : response * world :=
  match Bookings.findOne id user (bookings w) with
  | None => (Res 404 (Message "Booking not found"), w)
  | Some b =>
      if bool_decide (bookingStatus b = CANCELLED)
      then (Res 400 (Message "Booking already cancelled"), w)
      else if bool_decide (paymentStatus b = SUCCESS)
      then (Res 400 (Message "Cannot cancel paid booking"), w)
      else
        let b' := mkBooking (userId b) (showId b) (movieId b) (seats b)
                    (totalAmount b) CANCELLED (paymentStatus b)
                    (bookingSource b) (Some now) in
        match Bookings.save id b' (bookings w) with
        | None => (Res 500 (Message "Internal server error"), w)
        | Some coll =>
            let w1 := with_bookings coll
                        (with_redis (clear_locks (showId b) (seats b) (redis w)) w) in
            (Res 200 (BookingCancelled b'),
             emit (showId b) (seatsClearedAfterPayment (showId b)) w1)
        end
  end.

End BookingRoutes.

(* ===================================================================== *)
(** ** routes/payment.routes.js *)
(* ===================================================================== *)

Module PaymentRoutes.

(** [['SUCCESS', 'FAILED'].includes(status)] *)
Definition valid_status (s : string) : option PaymentStatus :=
  if bool_decide (s = "SUCCESS") then Some SUCCESS
  else if bool_decide (s = "FAILED") then Some FAILED
  else None.

(** [Payment.create(doc)]: the schema accepts the listed payment methods
    only ([None] is the validation error). *)
Definition Payment_create (p : Payment) (coll : list Payment) : option (list Payment) :=
  if bool_decide (paymentMethod p ∈ ["CARD"; "UPI"; "NETBANKING"; "WALLET"])
  then Some (coll ++ [p]) else None.

(** [POST /api/payments/mock]; [method] and [reason] are the optional
    [method] and [failureReason] of the body. *)
Definition mockPayment (now : Z) (user : string) (bookingId : option nat)
    (st : string) (method reason : option string) (w : world) : response * world :=
  match bookingId, valid_status st with
  | Some id, Some status =>
      match Bookings.findById id (bookings w) with
      | None => (Res 404 (Message "Booking not found"), w)
      | Some b =>
          if bool_decide (userId b ≠ user)
          then (Res 403 (Message "Cannot pay for another user booking"), w)
          else if bool_decide (paymentStatus b = SUCCESS)
          then (Res 400 (Message "Booking already paid"), w)
          else
            let pay := mkPayment id user (totalAmount b) (default "CARD" method)
                         ("MOCK-" +:+ pretty now) status
                         (if bool_decide (status = FAILED)
                          then Some (match reason with
                                     | Some r => if bool_decide (r = "") then "Mock failure" else r
                                     | None => "Mock failure"
                                     end)
                          else None)
                         (if bool_decide (status = SUCCESS) then Some now else None) in
            match Payment_create pay (payments w) with
            | None => (Res 500 (Message "Internal server error"), w)
            | Some ps =>
                let b' := mkBooking (userId b) (showId b) (movieId b) (seats b)
                            (totalAmount b)
                            (if bool_decide (status = FAILED) then CANCELLED
                             else bookingStatus b)
                            status (bookingSource b) (cancelledAt b) in
                match Bookings.save id b' (bookings w) with
                | None => (Res 500 (Message "Internal server error"), with_payments ps w)
                | Some coll =>
                    let w1 := with_bookings coll (with_payments ps w) in
                    let w2 :=
                      if bool_decide (status = SUCCESS) then
                        let ks := InMemory.keys
                                    ("seatlock:" +:+ showId b +:+ ":" +:+ "*") (redis w1) in
                        emit (showId b) (seatsClearedAfterPayment (showId b))
                          (with_redis (InMemory.del_all ks (redis w1)) w1)
                      else w1 in
                    (Res 201 (PaymentProcessed pay b'), w2)
                end
            end
      end
  | _, _ => (Res 400 (Message "bookingId and valid status (SUCCESS/FAILED) are required"), w)
  end.

End PaymentRoutes.

(* ===================================================================== *)
(** ** routes/movie.routes.js *)
(* ===================================================================== *)

Module MovieRoutes.

Definition MOVIES_CACHE_KEY : string := "movies:all".
Definition MOVIES_TTL_SECONDS : Z := 60.

(** The cache read of both GET handlers: [Some data] when the handler
    answers from the cache ([cached] truthy and [JSON.parse] succeeds). *)
Definition cache_hit (cached : option payload) : option payload :=
  match cached with
  | Some (PBad _) => None
  | Some p => Some p
  | None => None
  end.

(** [GET /api/movies] *)
Definition getMovies (now : Z) (w : world) : response * world :=
  let '(cached, c1) := InMemory.get now MOVIES_CACHE_KEY (redis w) in
  match cache_hit cached with
  | Some data => (Res 200 (Cached true data), with_redis c1 w)
  | None =>
      let ms := Movies.find_active (movies w) in
      (Res 200 (Cached false (PMovies ms)),
       with_redis (InMemory.set now MOVIES_CACHE_KEY (PMovies ms) MOVIES_TTL_SECONDS c1) w)
  end.

(** [GET /api/movies/:id] *)
Definition getMovieById (now : Z) (id : string) (w : world) : response * world :=
  let cacheKey := "movies:" +:+ id in
  let '(cached, c1) := InMemory.get now cacheKey (redis w) in
  match cache_hit cached with
  | Some data => (Res 200 (Cached true data), with_redis c1 w)
  | None =>
      match Movies.findById id (movies w) with
      | None => (Res 404 (Message "Movie not found"), with_redis c1 w)
      | Some m =>
          if movie_isActive m then
            (Res 200 (Cached false (PMovie m)),
             with_redis (InMemory.set now cacheKey (PMovie m) MOVIES_TTL_SECONDS c1) w)
          else (Res 404 (Message "Movie not found"), with_redis c1 w)
      end
  end.

(** [POST /api/movies]; [newId] is the [_id] given to the document, the
    body fields without a validator are left out. *)
Definition postMovie (newId ttl : string) (date : option Z) (rate : option Q)
    (w : world) : response * world :=
  if bool_decide (ttl = "") then (Res 400 (Message "Title is required"), w)
  else
    let m := mkMovie newId ttl date rate true in
    match Movies.create m (movies w) with
    | None => (Res 500 (Message "Internal server error"), w)
    | Some coll =>
        (Res 201 (MovieCreated m),
         with_redis (InMemory.del ("movies:" +:+ newId)
                       (InMemory.del MOVIES_CACHE_KEY (redis w)))
                    (with_movies coll w))
    end.

End MovieRoutes.

(* ===================================================================== *)
(** ** routes/admin.routes.js: the movie management *)
(* ===================================================================== *)

Module AdminRoutes.

(** The fields of an update document that the movie record keeps; [None]
    leaves the field as it is. *)
Record MovieUpdates := mkMovieUpdates {
  set_title : option string;
  set_releaseDate : option (option Z);
  set_rating : option (option Q);
  set_isActive : option bool
}.

Definition apply_updates (u : MovieUpdates) (m : Movie) : Movie :=
  mkMovie (movie_id m)
    (default (title m) (set_title u))
    (default (releaseDate m) (set_releaseDate u))
    (default (rating m) (set_rating u))
    (default (movie_isActive m) (set_isActive u)).

(** [Movie.findByIdAndUpdate(id, updates, { new: true })]: the updated
    document and the collection, or [None] when no document has the id.
    Validators do not run on this update. *)
Definition findByIdAndUpdate (id : string) (u : MovieUpdates) (coll : list Movie)
    : option (Movie * list Movie) :=
  match list_find (λ m, movie_id m = id) coll with
  | Some (i, m) => Some (apply_updates u m, <[i := apply_updates u m]> coll)
  | None => None
  end.

Inductive admin_body :=
| AdminMessage (m : string)
| MovieData (message : string) (data : Movie).

Record admin_response := AdminRes { admin_status : Z; admin_body_of : admin_body }.

(** The cache invalidation of both handlers:
    [redis.del('movies:all'); redis.del(`movies:${id}`)]. *)
Definition invalidate (id : string) (c : InMemory.client) : InMemory.client :=
  InMemory.del ("movies:" +:+ id) (InMemory.del "movies:all" c).

(** [PUT /api/admin/movies/:id] *)
Definition updateMovie (id : string) (u : MovieUpdates) (w : world)
    : admin_response * world :=
  match findByIdAndUpdate id u (movies w) with
  | None => (AdminRes 404 (AdminMessage "Movie not found"), w)
  | Some (m, coll) =>
      (AdminRes 200 (MovieData "Movie updated" m),
       with_redis (invalidate id (redis w)) (with_movies coll w))
  end.

(** [DELETE /api/admin/movies/:id] *)
Definition deactivateMovie (id : string) (w : world) : admin_response * world :=
  match findByIdAndUpdate id (mkMovieUpdates None None None (Some false)) (movies w) with
  | None => (AdminRes 404 (AdminMessage "Movie not found"), w)
  | Some (m, coll) =>
      (AdminRes 200 (MovieData "Movie deactivated" m),
       with_redis (invalidate id (redis w)) (with_movies coll w))
  end.

End AdminRoutes.

(* ===================================================================== *)
(** ** The server as a transition system *)
(* ===================================================================== *)

Inductive request :=
| LockSeats (user show : string) (ss : list string)
| GetSeats (req_user : option string) (show : string)
| CreateBooking (user show movie : string) (ss : list string)
| CancelBooking (user : string) (id : nat)
| MockPayment (user : string) (bookingId : option nat) (st : string)
    (method reason : option string)
| GetMovies
| GetMovieById (id : string)
| PostMovie (newId ttl : string) (date : option Z) (rate : option Q).

(** The handler of a request, run at time [now]. *)
Definition handle (now : Z) (r : request) (w : world) : response * world :=
  match r with
  | LockSeats user show ss => ShowRoutes.lockSeats now user show ss w
  | GetSeats req_user show => ShowRoutes.getSeats now req_user show w
  | CreateBooking user show movie ss =>
      BookingRoutes.createBooking now user show movie ss w
  | CancelBooking user id => BookingRoutes.cancelBooking now user id w
  | MockPayment user bookingId st method reason =>
      PaymentRoutes.mockPayment now user bookingId st method reason w
  | GetMovies => MovieRoutes.getMovies now w
  | GetMovieById id => MovieRoutes.getMovieById now id w
  | PostMovie newId ttl date rate => MovieRoutes.postMovie newId ttl date rate w
  end.

(** One request arriving at time [now]: the timers that are due fire, then
    the handler runs. *)
Definition step (w : world) (tr : Z * request) : response * world :=
  handle tr.1 tr.2 (fire_timers tr.1 w).

(** A sequence of requests, oldest first: the responses and the final state. *)
Fixpoint run (w : world) (trs : list (Z * request)) : list response * world :=
  match trs with
  | [] => ([], w)
  | tr :: rest =>
      let '(r, w1) := step w tr in
      let '(rs, w2) := run w1 rest in
      (r :: rs, w2)
  end.

(** A server started on an empty key store and no booking. *)
Definition init (shs : gmap string Show) (ms : list Movie) : world :=
  mkWorld InMemory.empty shs ms [] [] [].

Definition reachable (w : world) : Prop :=
  ∃ shs ms trs, w = (run (init shs ms) trs).2.

(** No seat of a show is in two non-cancelled bookings. *)
Definition no_double_booking (coll : list Booking) : Prop :=
  ∀ (i j : nat) (bi bj : Booking) (s : string),
    i ≠ j → coll !! i = Some bi → coll !! j = Some bj →
    bookingStatus bi ≠ CANCELLED → bookingStatus bj ≠ CANCELLED →
    showId bi = showId bj → s ∈ seats bi → s ∉ seats bj.

(* ===================================================================== *)
(** ** The lock handler between its [await]s

    The handler of [POST /:showId/lock-seats] is an [async] function: at
    every [await] it gives the event loop back, and the handler of another
    request may run before it is resumed.  A call on the key store runs
    when it is made (the proxy and the in-memory client do their work
    before their first suspension); the handler receives the result when it
    is resumed.  [Show.findById] reads the collection while the handler is
    suspended; it is read here when the handler is resumed. *)
(* ===================================================================== *)

Module LockTask.
Import ShowRoutes.

(** Where a handler is suspended, with the result it is waiting for, and
    the locals it will use. *)
Inductive pc :=
| AwaitIncr (count : option Z)
| AwaitExpire (count : option Z)
| AwaitShow
| AwaitEval (result : list string)
| AwaitGet (lockedAt : Z) (existingRaw : option payload) (seat : string)
    (rest conflicts : list string)
| AwaitSet (lockedAt : Z) (rest : list string)
| Finished (r : response).

Record task := mkTask {
  task_user : string;
  task_show : string;
  task_seats : list string;
  task_pc : pc
}.

(** The broadcast and the answer. *)
Definition finish (user show : string) (ss conflicts : list string) (w : world)
    : pc * world :=
  (Finished (match conflicts with
             | [] => Res 200 (LockedSeats ss SEAT_LOCK_TTL_SECONDS)
             | _ => Res 409 (Conflicts conflicts)
             end),
   emit show (seatsLocked show ss user) w).

(** The second loop from the seats [todo] on: the next [redis.set] is
    called and awaited, or the loop is over. *)
Definition next_set (now : Z) (user show : string) (ss : list string)
    (lockedAt : Z) (todo : list string) (w : world) : pc * world :=
  match todo with
  | [] => finish user show ss [] w
  | seat :: rest =>
      (AwaitSet lockedAt rest,
       with_redis (InMemory.set now (getSeatKey show seat) (PLock user lockedAt)
                     SEAT_LOCK_TTL_SECONDS (redis w)) w)
  end.

(** The first loop from the seats [todo] on: the next [redis.get] is called
    and awaited, or the loop is over and the second loop starts when no
    conflict was found. *)
Definition next_get (now : Z) (user show : string) (ss : list string)
    (lockedAt : Z) (todo conflicts : list string) (w : world) : pc * world :=
  match todo with
  | [] =>
      match conflicts with
      | [] => next_set now user show ss lockedAt ss w
      | _ => finish user show ss conflicts w
      end
  | seat :: rest =>
      let '(existingRaw, c1) := InMemory.get now (getSeatKey show seat) (redis w) in
      (AwaitGet lockedAt existingRaw seat rest conflicts, with_redis c1 w)
  end.

(** The rate-limit test, and the call of [Show.findById]. *)
Definition gate (count : option Z) (w : world) : pc * world :=
  if exceeds count LOCK_RATE_LIMIT_MAX
  then (Finished (Res 429 (Message "Too many seat lock attempts. Please slow down.")),
        w)
  else (AwaitShow, w).

(** The handler from its first line to its first [await]. *)
Definition start (now : Z) (user show : string) (ss : list string) (w : world)
    : pc * world :=
  match ss with
  | [] => (Finished (Res 400 (Message "Seats array is required")), w)
  | _ =>
      let '(count, c1) := InMemory.incr (rateKey user show) (redis w) in
      (AwaitIncr count, with_redis c1 w)
  end.

(** The handler resumed at time [now], up to its next [await] or its
    answer. *)
Definition resume (now : Z) (t : task) (w : world) : pc * world :=
  let user := task_user t in
  let show := task_show t in
  let ss := task_seats t in
  match task_pc t with
  | AwaitIncr count =>
      if bool_decide (count = Some 1)
      then (AwaitExpire count,
            with_redis (InMemory.expire now (rateKey user show) LOCK_RATE_LIMIT_TTL
                          (redis w)) w)
      else gate count w
  | AwaitExpire count => gate count w
  | AwaitShow =>
      match shows w !! show with
      | Some sh =>
          if show_isActive sh then
            if Proxy.is_function "eval" then
              let '(result, c) :=
                lua_lock now (getSeatKey show <$> ss) (PLock user now)
                  SEAT_LOCK_TTL_SECONDS (redis w) in
              (AwaitEval result, with_redis c w)
            else next_get now user show ss now ss [] w
          else (Finished (Res 404 (Message "Show not found")), w)
      | None => (Finished (Res 404 (Message "Show not found")), w)
      end
  | AwaitEval result => finish user show ss (seat_of_key <$> result) w
  | AwaitGet lockedAt existingRaw seat rest conflicts =>
      next_get now user show ss lockedAt rest
        (if seat_conflicts user existingRaw then conflicts ++ [seat] else conflicts) w
  | AwaitSet lockedAt rest => next_set now user show ss lockedAt rest w
  | Finished r => (Finished r, w)
  end.

(** The server with lock requests in flight. *)
Record system := mkSystem {
  sys_world : world;
  sys_tasks : list task
}.

(** What the event loop does next: it starts the handler of a request that
    arrives, or resumes a suspended handler. *)
Inductive action :=
| Arrive (user show : string) (ss : list string)
| Resume (i : nat).

(** One turn of the event loop at time [ta.1]: the timers that are due
    fire, then the handler runs up to its next [await]. *)
Definition act (s : system) (ta : Z * action) : system :=
  let w := fire_timers ta.1 (sys_world s) in
  match ta.2 with
  | Arrive user show ss =>
      let '(p, w') := start ta.1 user show ss w in
      mkSystem w' (sys_tasks s ++ [mkTask user show ss p])
  | Resume i =>
      match sys_tasks s !! i with
      | Some t =>
          let '(p, w') := resume ta.1 t w in
          mkSystem w' (<[i := mkTask (task_user t) (task_show t) (task_seats t) p]>
                         (sys_tasks s))
      | None => mkSystem w (sys_tasks s)
      end
  end.

Definition interleave (s : system) (acts : list (Z * action)) : system :=
  foldl act s acts.

(** A handler that runs on its own at time [now]: it is resumed until it
    has answered, with nothing in between. *)
Inductive alone (now : Z) (user show : string) (ss : list string)
    : pc * world → pc * world → Prop :=
| alone_done st : alone now user show ss st st
| alone_resume p w st :
    alone now user show ss (resume now (mkTask user show ss p) w) st →
    alone now user show ss (p, w) st.

End LockTask.

(* ===================================================================== *)
(** ** The vocabulary of the properties *)
(* ===================================================================== *)

Module Observe.
Import InMemory.

(** What [get] returns, without the client. *)
Definition peek (now : Z) (key : string) (c : client) : option payload :=
  (get now key c).1.

(** [c'] is [c] after some expired entries were deleted on read. *)
Definition purged (now : Z) (c c' : client) : Prop :=
  ttlTimers c' = ttlTimers c ∧
  ∀ k, store c' !! k = store c !! k ∨ (store c' !! k = None ∧ peek now k c = None).

End Observe.

Module LockSpec.
Import InMemory Observe ShowRoutes.

(** The slot a granted lock leaves under a seat key. *)
Definition lock_slot (now : Z) (user : string) : slot :=
  Entry (PLock user now) (Some (now + SEAT_LOCK_TTL_SECONDS * 1000)).

(** The seats the per-seat loop reports, as a function of the store the
    request finds. *)
Definition found_conflicts (now : Z) (user show : string) (ss : list string)
    (c : client) : list string :=
  filter (λ seat, seat_conflicts user (peek now (getSeatKey show seat) c) = true) ss.

(** The client after the rate-limit gate of the handler. *)
Definition after_gate (now : Z) (key : string) (ttl : Z) (c : client) : client :=
  if bool_decide ((incr key c).1 = Some 1)
  then expire now key ttl (incr key c).2
  else (incr key c).2.

(** The answer and the state left once the gates are passed. *)
Definition locking (now : Z) (user show : string) (ss : list string) (w : world)
    : response * world :=
  let c2 := after_gate now (rateKey user show) LOCK_RATE_LIMIT_TTL (redis w) in
  let c3 := (collect_conflicts now user show ss c2).2 in
  match found_conflicts now user show ss (redis w) with
  | [] => (Res 200 (LockedSeats ss SEAT_LOCK_TTL_SECONDS),
           emit show (seatsLocked show ss user)
             (with_redis (set_locks now user show ss c3) w))
  | cs => (Res 409 (Conflicts cs),
           emit show (seatsLocked show ss user) (with_redis c3 w))
  end.

End LockSpec.

Module FrameSpec.
Import InMemory Observe.

(** The slot and the timer of [k] are the same in [c] and [c']. *)
Definition same_at (k : string) (c c' : client) : Prop :=
  store c' !! k = store c !! k ∧ ttlTimers c' !! k = ttlTimers c !! k.

(** The keys of the lock rate limiter. *)
Definition lock_rate_key (k : string) : Prop :=
  startsWith k "ratelimit:lock:" = true.

End FrameSpec.

Module RateSpec.
Import InMemory Observe FrameSpec.

(** Is [r] a lock request counted under the rate key [k]?  (A request with
    no seat is answered 400 before the gate.) *)
Definition is_attempt (k : string) (r : request) : bool :=
  match r with
  | LockSeats user show (_ :: _) => bool_decide (ShowRoutes.rateKey user show = k)
  | _ => false
  end.

(** The number of counted lock requests in a trace. *)
Fixpoint attempts (k : string) (trs : list (Z * request)) : nat :=
  match trs with
  | [] => 0%nat
  | tr :: rest => ((if is_attempt k tr.2 then 1 else 0) + attempts k rest)%nat
  end.

Definition too_many : response :=
  Res 429 (Message "Too many seat lock attempts. Please slow down.").

End RateSpec.

Module IndexSpec.
Import Bookings.

(** The index is unique: no key belongs to two documents. *)
Definition index_unique (coll : list Booking) : Prop :=
  ∀ (i j : nat) (bi bj : Booking) (key : string * option string),
    i ≠ j → coll !! i = Some bi → coll !! j = Some bj →
    key ∈ index_keys bi → key ∉ index_keys bj.

End IndexSpec.

Module SystemSpec.
Import IndexSpec.

(** How one handler changes the bookings collection. *)
Definition bookings_step (coll coll' : list Booking) : Prop :=
  coll' = coll
  ∨ (∃ b id, Bookings.create b coll = Some (id, coll'))
  ∨ (∃ id b, Bookings.save id b coll = Some coll').

End SystemSpec.

Module CommitSpec.
Import InMemory Observe BookingRoutes.

(** Seat [s] of [show] is in a booking of the collection that is not
    cancelled. *)
Definition booked (coll : list Booking) (show s : string) : Prop :=
  Exists (λ e, showId e = show ∧ bookingStatus e ≠ CANCELLED ∧ s ∈ seats e) coll.

Global Instance booked_dec coll show s : Decision (booked coll show s).
Proof. unfold booked. apply _. Defined.

(** The document the handler inserts. *)
Definition new_booking (user show movie : string) (ss : list string) (sh : Show)
    : Booking :=
  mkBooking user show movie ss (basePrice sh * Z.of_nat (List.length ss))
    CONFIRMED PENDING WEB None.

(** The client when the handler reaches the insert. *)
Definition at_insert (now : Z) (user show : string) (ss : list string) (c : client)
    : client :=
  (collect_invalid now user show ss
     (LockSpec.after_gate now (rateKey user) BOOKING_RATE_LIMIT_TTL c)).2.

(** The request passes the validation of its body, the rate limit, the
    show and movie lookups and the validation of its locks. *)
Definition reaches_insert (now : Z) (user show movie : string) (ss : list string)
    (w : world) (sh : Show) : Prop :=
  show ≠ "" ∧ movie ≠ "" ∧ ss ≠ []
  ∧ exceeds (incr (rateKey user) (redis w)).1 BOOKING_RATE_LIMIT_MAX = false
  ∧ shows w !! show = Some sh ∧ show_isActive sh = true
  ∧ (∃ mv, Movies.findById movie (movies w) = Some mv ∧ movie_isActive mv = true)
  ∧ (collect_invalid now user show ss
       (LockSpec.after_gate now (rateKey user) BOOKING_RATE_LIMIT_TTL (redis w))).1 = [].

End CommitSpec.

Module SeatSpec.
Import InMemory Observe ShowRoutes.

(** [s.includes(':')] *)
Fixpoint includes_colon (s : string) : bool :=
  match s with
  | EmptyString => false
  | String a r => if Ascii.eqb a ":"%char then true else includes_colon r
  end.

(** The value the seat map keeps for a seat: what the lock key of the seat
    reads as, when that is a truthy string that parses. *)
Definition visible_lock (now : Z) (c : client) (show sid : string) : option payload :=
  match peek now (getSeatKey show sid) c with
  | Some p =>
      if truthy p then match p with PBad _ => None | _ => Some p end else None
  | None => None
  end.

(** The seat of the seat map for a seat of the layout. *)
Definition seat_view (now : Z) (c : client) (req_user : option string) (show : string)
    (s : string * string * Z * string) : SeatView :=
  let '(sid, r, n, t) := s in
  mkSeatView sid r n t (bool_decide (is_Some (visible_lock now c show sid)))
    (locked_by_user (visible_lock now c show sid) (user_or_null req_user)).

(** The prefix of the lock keys of a show. *)
Definition lock_prefix (show : string) : string := "seatlock:" +:+ show +:+ ":".

(** The keys of [ks] that exist for the script. *)
Definition existing_keys (now : Z) (ks : list string) (c : client) : list string :=
  filter (λ k, key_exists now k c = true) ks.

End SeatSpec.

Module BookingSpec.
Import InMemory Observe BookingRoutes.

(** The requested seats that the lock validation of the booking handler
    refuses, as a function of the store the request finds. *)
Definition not_held (now : Z) (user show : string) (ss : list string) (c : client)
    : list string :=
  filter (λ seat, seat_invalid user (peek now (getSeatKey show seat) c) = true) ss.

(** The booking as the cancel handler saves it. *)
Definition cancelled_at (now : Z) (b : Booking) : Booking :=
  mkBooking (userId b) (showId b) (movieId b) (seats b) (totalAmount b)
    CANCELLED (paymentStatus b) (bookingSource b) (Some now).

End BookingSpec.

Module LedgerSpec.

(** What may become of a booking document: the owner, the show, the movie,
    the seats, the amount and the source stay, a cancelled booking stays
    cancelled and a paid booking stays as it is. *)
Definition evolves (b b' : Booking) : Prop :=
  userId b' = userId b ∧ showId b' = showId b ∧ movieId b' = movieId b
  ∧ seats b' = seats b ∧ totalAmount b' = totalAmount b
  ∧ bookingSource b' = bookingSource b
  ∧ (bookingStatus b = CANCELLED → bookingStatus b' = CANCELLED)
  ∧ (paymentStatus b = SUCCESS → b' = b).

(** How one handler changes the bookings and the payments: not at all, or
    one booking with a pending payment is added, or one unpaid booking is
    updated, with or without a payment recorded for it. *)
Definition ledger_step (w w' : world) : Prop :=
  (bookings w' = bookings w ∧ payments w' = payments w)
  ∨ (∃ doc, bookings w' = bookings w ++ [doc] ∧ payments w' = payments w
            ∧ paymentStatus doc = PENDING)
  ∨ (∃ id b b', bookings w !! id = Some b ∧ bookings w' = <[id := b']> (bookings w)
       ∧ evolves b b' ∧ paymentStatus b ≠ SUCCESS
       ∧ ((payments w' = payments w ∧ paymentStatus b' = paymentStatus b)
          ∨ (∃ pay, payments w' = payments w ++ [pay] ∧ pay_bookingId pay = id
                    ∧ pay_paymentStatus pay = paymentStatus b'
                    ∧ pay_userId pay = userId b ∧ amount pay = totalAmount b))).

(** Every successful payment is for a booking that is marked as paid, of
    the same user and amount. *)
Definition payments_settled (w : world) : Prop :=
  ∀ i p, payments w !! i = Some p → pay_paymentStatus p = SUCCESS →
    ∃ b, bookings w !! pay_bookingId p = Some b ∧ paymentStatus b = SUCCESS
         ∧ userId b = pay_userId p ∧ totalAmount b = amount p.

(** No booking has two successful payments. *)
Definition charged_once (w : world) : Prop :=
  ∀ i j p q, payments w !! i = Some p → payments w !! j = Some q →
    pay_paymentStatus p = SUCCESS → pay_paymentStatus q = SUCCESS →
    pay_bookingId p = pay_bookingId q → i = j.

(** Every booking marked as paid has a successful payment. *)
Definition paid_has_payment (w : world) : Prop :=
  ∀ id b, bookings w !! id = Some b → paymentStatus b = SUCCESS →
    ∃ i p, payments w !! i = Some p ∧ pay_bookingId p = id
           ∧ pay_paymentStatus p = SUCCESS.

Definition ledger_ok (w : world) : Prop :=
  payments_settled w ∧ charged_once w ∧ paid_has_payment w.

End LedgerSpec.

(* ===================================================================== *)
(** ** A small running server, for the concrete checks *)
(* ===================================================================== *)

Module Demo.

Definition show1 : Show :=
  mkShow "m1" "PVR Cinemas" "Chennai" 2
    [mkSeatLayout "A" 1 "REGULAR"; mkSeatLayout "A" 2 "REGULAR"] 250 true.

Definition movie1 : Movie := mkMovie "m1" "Inception" (Some 1279238400000) None true.

Definition start : world := init {["s1" := show1]} [movie1].

(** [u1] has locked both seats at time 0. *)
Definition locked : world := (step start (0, LockSeats "u1" "s1" ["A-1"; "A-2"])).2.

(** ... and has booked them at time 20. *)
Definition booked : world :=
  (step locked (20, CreateBooking "u1" "s1" "m1" ["A-1"; "A-2"])).2.

(** Twenty more lock requests of [u1] for the show, one per second, each
    for another seat, with a seat-map read in between. *)
Definition burst : list (Z * request) :=
  (500, GetSeats None "s1")
  :: ((λ n : nat, (Z.of_nat n * 1000, LockSeats "u1" "s1" ["S-" +:+ pretty n]))
        <$> seq 1 20).

(** [u2] is then granted a lock on the booked seat A-1 at time 30. *)
Definition relocked : world := (step booked (30, LockSeats "u2" "s1" ["A-1"])).2.

(** Two lock requests for the same two seats arrive together at time 1,
    and the event loop resumes their handlers in turn, one millisecond
    apart, until both have answered. *)
Definition overlap : list (Z * LockTask.action) :=
  [(1, LockTask.Arrive "u1" "s1" ["A-1"; "A-2"]);
   (1, LockTask.Arrive "u2" "s1" ["A-2"; "A-1"])]
  ++ mjoin ((λ n : nat, [(1 + Z.of_nat n, LockTask.Resume 0);
                         (1 + Z.of_nat n, LockTask.Resume 1)]) <$> seq 1 7).

End Demo.

(* ===================================================================== *)
(** ** Facts about the key store *)
(* ===================================================================== *)

Module InMemoryFacts.
Import InMemory.
Export Observe.

Lemma purged_refl now c : purged now c c.
Proof. split; [done | by left]. Qed.

Lemma peek_absent now k c : store c !! k = None → peek now k c = None.
Proof. unfold peek, get. by intros ->. Qed.

Lemma purged_peek now c c' k : purged now c c' → peek now k c' = peek now k c.
Proof.
  intros [_ H]. destruct (H k) as [Heq | [Hn Hp]].
  - unfold peek, get. rewrite Heq.
    destruct (store c !! k) as [[v [e|]|n]|]; simpl; try done.
    by case_bool_decide.
  - rewrite Hp. by apply peek_absent.
Qed.

Lemma purged_trans now c1 c2 c3 :
  purged now c1 c2 → purged now c2 c3 → purged now c1 c3.
Proof.
  intros H12 H23. split.
  - destruct H12 as [E12 _], H23 as [E23 _]. by rewrite E23.
  - intros k. destruct H23 as [_ H23]. destruct (H23 k) as [Heq | [Hn Hp]].
    + rewrite Heq. destruct H12 as [_ H12]. apply H12.
    + right. split; [done |]. by rewrite <- (purged_peek now c1 c2 k).
Qed.

Lemma get_purged now key c : purged now c (get now key c).2.
Proof.
  unfold get. destruct (store c !! key) as [[v [e|]|n]|] eqn:Hk; simpl;
    try apply purged_refl.
  case_bool_decide; simpl; [| apply purged_refl].
  split; [done |]. intros k. destruct (decide (k = key)) as [-> | Hne].
  - right. split; [apply lookup_delete_eq |].
    unfold peek, get. rewrite Hk. by rewrite bool_decide_eq_true_2.
  - left. by apply lookup_delete_ne.
Qed.

Lemma tick_store_None now' key c :
  store c !! key = None → store (tick now' c) !! key = None.
Proof.
  intros H. unfold tick. simpl. apply map_lookup_filter_None. by left.
Qed.

Lemma store_set now key v ttl c k :
  store (set now key v ttl c) !! k =
    if decide (key = k) then Some (Entry v (Some (now + ttl * 1000)))
    else store c !! k.
Proof.
  unfold set. case_bool_decide; simpl; apply lookup_insert.
Qed.

Lemma timer_delay_id ms : 1 ≤ ms ≤ 2147483647 → timer_delay ms = ms.
Proof. intros H. unfold timer_delay. by rewrite bool_decide_eq_true_2. Qed.

Lemma timer_delay_overflow ms : 2147483647 < ms → timer_delay ms = 1.
Proof. intros H. unfold timer_delay. rewrite bool_decide_eq_false_2; [done | lia]. Qed.

Lemma timers_set now key v (ttl : Z) c k :
  ttl > 0 →
  ttlTimers (set now key v ttl c) !! k =
    if decide (key = k) then Some (now + timer_delay (ttl * 1000))
    else ttlTimers c !! k.
Proof.
  intros H. unfold set. rewrite bool_decide_eq_true_2; [| done]. simpl.
  apply lookup_insert.
Qed.

Lemma startsWith_nil k : startsWith k "" = true.
Proof. by destruct k. Qed.

Lemma startsWith_cons k a p :
  startsWith k (String a p) = true → ∃ k', k = String a k' ∧ startsWith k' p = true.
Proof.
  destruct k as [| b k']; simpl; [done |]. intros H.
  apply andb_true_iff in H as [H1 H2]. apply Ascii.eqb_eq in H1 as ->. eauto.
Qed.

Lemma store_incr_ne key k c : k ≠ key → store (incr key c).2 !! k = store c !! k.
Proof. intros H. simpl. by apply lookup_insert_ne. Qed.

Lemma store_expire_ne now key ttl k c :
  k ≠ key → store (expire now key ttl c) !! k = store c !! k.
Proof.
  intros H. unfold expire. destruct (store c !! key); [| done].
  simpl. by apply lookup_insert_ne.
Qed.

End InMemoryFacts.

(* ===================================================================== *)
(** ** Facts about the seat-lock handler *)
(* ===================================================================== *)

Module LockFacts.
Import InMemory InMemoryFacts ShowRoutes.
Export LockSpec.

Lemma seat_key_ne_rate show seat user show' :
  getSeatKey show seat ≠ rateKey user show'.
Proof. unfold getSeatKey, rateKey. simpl. discriminate. Qed.

Lemma after_gate_store now key ttl c k :
  k ≠ key → store (after_gate now key ttl c) !! k = store c !! k.
Proof.
  intros H. unfold after_gate. case_bool_decide.
  - rewrite store_expire_ne; [| done]. by apply store_incr_ne.
  - by apply store_incr_ne.
Qed.

Lemma after_gate_peek now now' key ttl c k :
  k ≠ key → peek now k (after_gate now' key ttl c) = peek now k c.
Proof.
  intros H. unfold peek, get. rewrite after_gate_store; [| done].
  destruct (store c !! k) as [[v [e|]|n]|]; simpl; try done.
  by case_bool_decide.
Qed.

Lemma collect_conflicts_spec now user show ss c :
  (collect_conflicts now user show ss c).1 = found_conflicts now user show ss c
  ∧ purged now c (collect_conflicts now user show ss c).2.
Proof.
  revert c. induction ss as [| seat rest IH]; intros c; simpl.
  - split; [done | apply purged_refl].
  - pose proof (get_purged now (getSeatKey show seat) c) as Hp.
    destruct (get now (getSeatKey show seat) c) as [raw c1] eqn:Hget.
    specialize (IH c1). destruct (collect_conflicts now user show rest c1) as [cs c2].
    simpl in *. destruct IH as [-> Hp2]. split.
    + unfold found_conflicts.
      assert (raw = peek now (getSeatKey show seat) c) as ->
        by (unfold peek; by rewrite Hget).
      assert (filter (λ seat0, seat_conflicts user
                 (peek now (getSeatKey show seat0) c1) = true) rest
              = filter (λ seat0, seat_conflicts user
                 (peek now (getSeatKey show seat0) c) = true) rest) as ->.
      { apply list_filter_iff. intros x. by rewrite (purged_peek now c c1). }
      destruct (seat_conflicts user (peek now (getSeatKey show seat) c)) eqn:E.
      * by rewrite filter_cons_True.
      * rewrite filter_cons_False; [done |]. by rewrite E.
    + by apply (purged_trans now c c1 c2).
Qed.

Lemma set_locks_store now user show ss c k :
  store (set_locks now user show ss c) !! k =
    if decide (k ∈ getSeatKey show <$> ss) then Some (lock_slot now user)
    else store c !! k.
Proof.
  revert c. induction ss as [| seat rest IH]; intros c; cbn [set_locks].
  - case_decide; [set_solver | done].
  - rewrite IH, store_set, fmap_cons. unfold lock_slot.
    destruct (decide (k ∈ getSeatKey show <$> rest)) as [Hin | Hnin];
      destruct (decide (getSeatKey show seat = k)) as [Heq | Hne];
      destruct (decide (k ∈ getSeatKey show seat :: (getSeatKey show <$> rest)))
        as [Hc | Hc]; try done; exfalso; apply Hc || (apply elem_of_cons in Hc; destruct Hc; eauto);
      apply elem_of_cons; eauto.
Qed.

Lemma set_locks_timers now user show ss c k :
  ttlTimers (set_locks now user show ss c) !! k =
    if decide (k ∈ getSeatKey show <$> ss)
    then Some (now + SEAT_LOCK_TTL_SECONDS * 1000)
    else ttlTimers c !! k.
Proof.
  revert c. induction ss as [| seat rest IH]; intros c; cbn [set_locks].
  - case_decide; [set_solver | done].
  - rewrite IH, timers_set, fmap_cons; [| done].
    destruct (decide (k ∈ getSeatKey show <$> rest)) as [Hin | Hnin];
      destruct (decide (getSeatKey show seat = k)) as [Heq | Hne];
      destruct (decide (k ∈ getSeatKey show seat :: (getSeatKey show <$> rest)))
        as [Hc | Hc]; try done; exfalso; apply Hc || (apply elem_of_cons in Hc; destruct Hc; eauto);
      apply elem_of_cons; eauto.
Qed.

(** The per-seat test pushes a seat when its key reads as a value that is
    not a lock of the requesting user. *)
Lemma seat_conflicts_spec user raw :
  seat_conflicts user raw = true
  ↔ ∃ p, raw = Some p ∧ truthy p = true ∧ holder_of p ≠ Some user.
Proof.
  unfold seat_conflicts. split.
  - destruct raw as [p |]; [| done]. destruct (truthy p) eqn:Ht; [| done].
    intros H. exists p. repeat split; try done.
    destruct (holder_of p) as [h |]; [| done].
    apply bool_decide_eq_true in H. congruence.
  - intros (p & -> & -> & Hh). destruct (holder_of p) as [h |]; [| done].
    apply bool_decide_eq_true. congruence.
Qed.

Lemma found_conflicts_spec now user show ss c seat :
  seat ∈ found_conflicts now user show ss c
  ↔ seat ∈ ss ∧ ∃ p, peek now (getSeatKey show seat) c = Some p
                    ∧ truthy p = true ∧ holder_of p ≠ Some user.
Proof.
  unfold found_conflicts. rewrite list_elem_of_filter, seat_conflicts_spec. tauto.
Qed.

Lemma found_conflicts_nil now user show ss c :
  (∀ s, s ∈ ss → seat_conflicts user (peek now (getSeatKey show s) c) = false) →
  found_conflicts now user show ss c = [].
Proof.
  unfold found_conflicts. induction ss as [| x rest IH]; intros H; [done |].
  rewrite filter_cons_False.
  - apply IH. intros s Hs. apply H. by apply elem_of_cons; right.
  - rewrite H; [done |]. apply list_elem_of_here.
Qed.

Lemma after_gate_timers now key ttl c k :
  k ≠ key → ttlTimers (after_gate now key ttl c) !! k = ttlTimers c !! k.
Proof.
  intros H. unfold after_gate. case_bool_decide; [| done].
  unfold expire. destruct (store (incr key c).2 !! key); [| done].
  simpl. by apply lookup_insert_ne.
Qed.

(** The proxy has no [eval]: the handler never runs its script. *)
Lemma proxy_has_no_eval : Proxy.is_function "eval" = false.
Proof. reflexivity. Qed.

(** The script, unlike the per-seat loop, reports a key that exists whoever
    holds it. *)
Lemma lua_reports_any_holder now ks value ttl c k :
  k ∈ ks → key_exists now k c = true → k ∈ (lua_lock now ks value ttl c).1.
Proof.
  intros Hk Hex. unfold lua_lock.
  assert (k ∈ filter (λ k0, key_exists now k0 c = true) ks) as Hin
    by (by apply list_elem_of_filter).
  by destruct (filter _ ks).
Qed.

(** The handler, with its two loops replaced by what they compute. *)
Lemma lockSeats_eq now user show ss w :
  ss ≠ [] →
  lockSeats now user show ss w =
    let c2 := after_gate now (rateKey user show) LOCK_RATE_LIMIT_TTL (redis w) in
    if exceeds (incr (rateKey user show) (redis w)).1 LOCK_RATE_LIMIT_MAX
    then (Res 429 (Message "Too many seat lock attempts. Please slow down."),
          with_redis c2 w)
    else match shows w !! show with
         | Some sh =>
             if show_isActive sh then locking now user show ss w
             else (Res 404 (Message "Show not found"), with_redis c2 w)
         | None => (Res 404 (Message "Show not found"), with_redis c2 w)
         end.
Proof.
  intros Hne. unfold locking.
  set (c2 := after_gate now (rateKey user show) LOCK_RATE_LIMIT_TTL (redis w)).
  assert (found_conflicts now user show ss (redis w)
          = (collect_conflicts now user show ss c2).1) as ->.
  { rewrite (proj1 (collect_conflicts_spec now user show ss c2)).
    unfold found_conflicts. apply list_filter_iff. intros x.
    unfold c2. rewrite after_gate_peek; [done | apply seat_key_ne_rate]. }
  subst c2. unfold lockSeats, after_gate.
  destruct ss as [| s0 ss']; [done |]. remember (s0 :: ss') as l eqn:El.
  destruct (incr (rateKey user show) (redis w)) as [count c1] eqn:Hincr.
  cbn [fst snd] in *. destruct (exceeds count LOCK_RATE_LIMIT_MAX); [done |].
  destruct (shows w !! show) as [sh |]; [| done].
  destruct (show_isActive sh); [| done].
  rewrite proxy_has_no_eval. cbn [negb].
  destruct (collect_conflicts now user show l _) as [cs c3'].
  cbn [fst snd]. by destruct cs.
Qed.

Lemma lockSeats_locking now user show ss w sh :
  ss ≠ [] →
  exceeds (incr (rateKey user show) (redis w)).1 LOCK_RATE_LIMIT_MAX = false →
  shows w !! show = Some sh → show_isActive sh = true →
  lockSeats now user show ss w = locking now user show ss w.
Proof.
  intros Hne Hrate Hshow Hact. rewrite lockSeats_eq; [| done].
  cbn zeta. by rewrite Hrate, Hshow, Hact.
Qed.

(** A request that conflicts leaves every key but its rate counter as it
    was, up to expired entries dropped on read. *)
Lemma conflict_keeps_keys now user show ss w k :
  k ≠ rateKey user show →
  let c2 := after_gate now (rateKey user show) LOCK_RATE_LIMIT_TTL (redis w) in
  let c3 := (collect_conflicts now user show ss c2).2 in
  (store c3 !! k = store (redis w) !! k ∨ store c3 !! k = None)
  ∧ ttlTimers c3 !! k = ttlTimers (redis w) !! k
  ∧ peek now k c3 = peek now k (redis w).
Proof.
  intros Hk c2 c3.
  destruct (collect_conflicts_spec now user show ss c2) as [_ Hp]. fold c3 in Hp.
  split; [| split].
  - destruct Hp as [_ Hp]. destruct (Hp k) as [-> | [-> _]]; [| by right].
    left. by apply after_gate_store.
  - destruct Hp as [-> _]. by apply after_gate_timers.
  - rewrite (purged_peek now c2 c3 k Hp). by apply after_gate_peek.
Qed.

(** A granted request leaves every requested seat locked for the TTL. *)
Lemma granted_locks_all now user show ss c seat :
  seat ∈ ss →
  let c' := set_locks now user show ss c in
  store c' !! getSeatKey show seat = Some (lock_slot now user)
  ∧ ttlTimers c' !! getSeatKey show seat = Some (now + SEAT_LOCK_TTL_SECONDS * 1000)
  ∧ peek now (getSeatKey show seat) c' = Some (PLock user now).
Proof.
  intros Hin c'.
  assert (getSeatKey show seat ∈ getSeatKey show <$> ss) as Hk
    by (by apply list_elem_of_fmap_2).
  assert (store c' !! getSeatKey show seat = Some (lock_slot now user)) as Hs.
  { unfold c'. rewrite set_locks_store. by rewrite decide_True. }
  split; [done | split].
  - unfold c'. rewrite set_locks_timers. by rewrite decide_True.
  - unfold peek, get. rewrite Hs. unfold lock_slot.
    rewrite bool_decide_eq_false_2; [done |]. unfold SEAT_LOCK_TTL_SECONDS. lia.
Qed.

End LockFacts.

(* ===================================================================== *)
(** ** Properties of the seat-lock handler *)
(* ===================================================================== *)

Section LockProperties.
Import InMemory InMemoryFacts ShowRoutes LockFacts.

Variables (now : Z) (user show : string) (ss : list string) (w : world).

Let r := (lockSeats now user show ss w).1.
Let c' := redis (lockSeats now user show ss w).2.
Let found := found_conflicts now user show ss (redis w).

(** The lock handler that runs on its own, from its first line to its
    answer with no other handler in between ([TaskFacts.alone_is_lockSeats]),
    is all-or-nothing over a non-empty list of seats.
    An answer other than 200 leaves every key of the store except the
    caller's rate counter as it was (no lock key is created or modified:
    a key keeps its slot, or is an expired entry dropped on read; its
    timer and what a read returns are unchanged); a 409 carries exactly
    the requested seat identifiers found conflicting (the requested seats
    whose key reads as a value that is not a lock of the caller), which are
    seats and not store keys; a 200 leaves every requested seat locked by the caller
    with the five-minute TTL.  Past the rate-limit and show gates the
    answer is 409 when some requested seat conflicts and 200 otherwise. *)
Theorem lock_seats_all_or_nothing :
  ss ≠ [] →
  (status r = 200 →
     res_body r = LockedSeats ss SEAT_LOCK_TTL_SECONDS ∧ found = [] ∧
     ∀ seat, seat ∈ ss →
       store c' !! getSeatKey show seat
         = Some (Entry (PLock user now) (Some (now + 300 * 1000)))
       ∧ ttlTimers c' !! getSeatKey show seat = Some (now + 300 * 1000)
       ∧ peek now (getSeatKey show seat) c' = Some (PLock user now))
  ∧ (status r ≠ 200 →
     ∀ k, k ≠ rateKey user show →
       (store c' !! k = store (redis w) !! k ∨ store c' !! k = None)
       ∧ ttlTimers c' !! k = ttlTimers (redis w) !! k
       ∧ peek now k c' = peek now k (redis w))
  ∧ (status r = 409 →
     res_body r = Conflicts found ∧ found ≠ [] ∧ found ⊆ ss)
  ∧ (exceeds (incr (rateKey user show) (redis w)).1 LOCK_RATE_LIMIT_MAX = false →
     (∃ sh, shows w !! show = Some sh ∧ show_isActive sh = true) →
     (found ≠ [] → status r = 409) ∧ (found = [] → status r = 200))
  ∧ (∀ seat, seat ∈ found ↔
       seat ∈ ss ∧ ∃ p, peek now (getSeatKey show seat) (redis w) = Some p
                        ∧ truthy p = true ∧ holder_of p ≠ Some user).
Proof.
  intros Hne. subst r c' found.
  match goal with
  | |- ?A ∧ ?B ∧ ?C ∧ ?D ∧ ?S =>
      cut (A ∧ B ∧ C ∧ D);
      [ intros (HA & HB & HC & HD); repeat (split; [assumption |]);
        intros seat; apply found_conflicts_spec | ]
  end.
  pose proof (conflict_keeps_keys now user show ss w) as Hkeep.
  pose proof (λ k Hk, after_gate_store now (rateKey user show)
                        LOCK_RATE_LIMIT_TTL (redis w) k Hk) as Hgs.
  pose proof (λ k Hk, after_gate_timers now (rateKey user show)
                        LOCK_RATE_LIMIT_TTL (redis w) k Hk) as Hgt.
  pose proof (λ k Hk, after_gate_peek now now (rateKey user show)
                        LOCK_RATE_LIMIT_TTL (redis w) k Hk) as Hgp.
  rewrite lockSeats_eq; [| done]. cbn zeta.
  assert (found_conflicts now user show ss (redis w) ⊆ ss) as Hsub.
  { intros x Hx. unfold found_conflicts in Hx.
    by apply list_elem_of_filter in Hx as [_ ?]. }
  destruct (exceeds _ _) eqn:Hex.
  { simpl. repeat split; try done; intros.
    - left. by apply Hgs.
    - by apply Hgt.
    - by apply Hgp. }
  destruct (shows w !! show) as [sh |] eqn:Hshow.
  2: { simpl. repeat split; try done; intros; try (by destruct H0 as [? [? ?]]).
       - left. by apply Hgs.
       - by apply Hgt.
       - by apply Hgp. }
  destruct (show_isActive sh) eqn:Hact.
  2: { simpl. repeat split; try done; intros;
         try (destruct H0 as [? [? ?]]; congruence).
       - left. by apply Hgs.
       - by apply Hgt.
       - by apply Hgp. }
  unfold locking.
  destruct (found_conflicts now user show ss (redis w)) as [| x cs] eqn:Hfound; simpl.
  - split; [| done]. intros _. split; [done |]. split; [done |].
    intros seat Hin. by apply (granted_locks_all now user show ss).
  - split; [done |]. split; [| split; [| done]].
    + intros _ k Hk. by apply Hkeep.
    + intros _. split; [done |]. split; [done | exact Hsub].
Qed.

End LockProperties.

Section LockHolder.
Import InMemory InMemoryFacts ShowRoutes LockFacts.

(** C3 fails on the code: with seat A-1 locked by u1 since time 0, the
    request of u1 for A-1 at time 10 is answered 200 and no conflict is
    reported. *)
Lemma relock_by_holder_is_granted :
  let w := fire_timers 10 Demo.locked in
  peek 10 (getSeatKey "s1" "A-1") (redis w) = Some (PLock "u1" 0)
  ∧ (lockSeats 10 "u1" "s1" ["A-1"] w).1 = Res 200 (LockedSeats ["A-1"] 300)
  ∧ ¬ ∃ cs, (lockSeats 10 "u1" "s1" ["A-1"] w).1 = Res 409 (Conflicts cs)
            ∧ "A-1" ∈ cs.
Proof.
  assert ((lockSeats 10 "u1" "s1" ["A-1"] (fire_timers 10 Demo.locked)).1
          = Res 200 (LockedSeats ["A-1"] 300)) as E by (by vm_compute).
  cbn zeta. split; [by vm_compute |]. split; [exact E |].
  intros [cs [H _]]. rewrite E in H. discriminate H.
Qed.

(** C3, amended.  A requested seat whose unexpired lock is held by the
    requesting user is never among the reported conflicts; and when every
    requested seat is either unlocked or locked by the requesting user,
    a request that passes the rate-limit and show gates is granted and
    rewrites the lock with the new acquisition time and a full TTL. *)
Theorem relock_by_holder_refreshes now user show ss w seat t :
  seat ∈ ss →
  peek now (getSeatKey show seat) (redis w) = Some (PLock user t) →
  let r := (lockSeats now user show ss w).1 in
  let c' := redis (lockSeats now user show ss w).2 in
  (∀ cs, res_body r = Conflicts cs → seat ∉ cs)
  ∧ (exceeds (incr (rateKey user show) (redis w)).1 LOCK_RATE_LIMIT_MAX = false →
     (∃ sh, shows w !! show = Some sh ∧ show_isActive sh = true) →
     (∀ s, s ∈ ss →
        peek now (getSeatKey show s) (redis w) = None
        ∨ ∃ t', peek now (getSeatKey show s) (redis w) = Some (PLock user t')) →
     r = Res 200 (LockedSeats ss SEAT_LOCK_TTL_SECONDS)
     ∧ store c' !! getSeatKey show seat
         = Some (Entry (PLock user now) (Some (now + 300 * 1000)))).
Proof.
  intros Hin Hheld r c'. subst r c'.
  assert (ss ≠ []) as Hne by (intros ->; by apply not_elem_of_nil in Hin).
  assert (seat ∉ found_conflicts now user show ss (redis w)) as Hnot.
  { unfold found_conflicts. intros Hf. apply list_elem_of_filter in Hf as [Hf _].
    rewrite Hheld in Hf. simpl in Hf. by rewrite bool_decide_eq_false_2 in Hf; auto. }
  rewrite lockSeats_eq; [| done]. cbn zeta. split.
  - intros cs. destruct (exceeds _ _); [done |].
    destruct (shows w !! show) as [sh |]; [| done].
    destruct (show_isActive sh); [| done]. unfold locking.
    destruct (found_conflicts now user show ss (redis w)) eqn:E; simpl; [done |].
    intros [= <-]. exact Hnot.
  - intros -> [sh [-> ->]] Hall. unfold locking.
    assert (found_conflicts now user show ss (redis w) = []) as ->.
    { apply found_conflicts_nil. intros s Hs.
      destruct (Hall s Hs) as [-> | [t' ->]]; simpl; [done |].
      rewrite bool_decide_eq_false_2; auto. }
    simpl. split; [done |].
    by apply (granted_locks_all now user show ss).
Qed.

(** The theorem at the request of the counterexample. *)
Lemma relock_by_holder_refreshes_witness :
  (lockSeats 10 "u1" "s1" ["A-1"] (fire_timers 10 Demo.locked)).1
    = Res 200 (LockedSeats ["A-1"] SEAT_LOCK_TTL_SECONDS)
  ∧ store (redis (lockSeats 10 "u1" "s1" ["A-1"] (fire_timers 10 Demo.locked)).2)
      !! getSeatKey "s1" "A-1"
    = Some (Entry (PLock "u1" 10) (Some (10 + 300 * 1000))).
Proof.
  refine (proj2 (relock_by_holder_refreshes 10 "u1" "s1" ["A-1"]
                   (fire_timers 10 Demo.locked) "A-1" 0 _ _) _ _ _).
  - apply list_elem_of_here.
  - by vm_compute.
  - by vm_compute.
  - exists Demo.show1. split; by vm_compute.
  - intros s Hs. apply list_elem_of_singleton in Hs as ->.
    right. exists 0. by vm_compute.
Defined.

End LockHolder.

Section LockWitness.
Import InMemory InMemoryFacts ShowRoutes LockFacts.

(** The lemma at a request of u2 for both seats while u1 holds them: the
    409 names exactly the two seats, and the locks of u1 stay as they
    were. *)
Lemma lock_seats_all_or_nothing_witness :
  res_body (lockSeats 10 "u2" "s1" ["A-1"; "A-2"] (fire_timers 10 Demo.locked)).1
    = Conflicts ["A-1"; "A-2"]
  ∧ store (redis (lockSeats 10 "u2" "s1" ["A-1"; "A-2"] (fire_timers 10 Demo.locked)).2)
      !! getSeatKey "s1" "A-1"
    = Some (Entry (PLock "u1" 0) (Some 300000)).
Proof.
  pose proof (lock_seats_all_or_nothing 10 "u2" "s1" ["A-1"; "A-2"]
                (fire_timers 10 Demo.locked)) as H.
  cbn zeta in H. destruct H as (_ & Hkeep & Hconf & _); [discriminate |].
  split.
  - destruct Hconf as (-> & _); by vm_compute.
  - destruct (Hkeep ltac:(by vm_compute) (getSeatKey "s1" "A-1")
                ltac:(apply seat_key_ne_rate)) as ([-> | Hgone] & _).
    + by vm_compute.
    + exfalso. revert Hgone. by vm_compute.
Defined.

End LockWitness.

(* ===================================================================== *)
(** ** Which keys a handler touches *)
(* ===================================================================== *)

Module Frame.
Import InMemory InMemoryFacts.
Export FrameSpec.

Lemma same_at_refl k c : same_at k c c.
Proof. by split. Qed.

Lemma same_at_trans k c1 c2 c3 : same_at k c1 c2 → same_at k c2 c3 → same_at k c1 c3.
Proof. intros [H1 H2] [H3 H4]. split; congruence. Qed.

Lemma get_same now key k c : k ≠ key → same_at k c (get now key c).2.
Proof.
  intros Hne. unfold get. destruct (store c !! key) as [[v [e|]|n]|]; simpl;
    try apply same_at_refl.
  case_bool_decide; simpl; [| apply same_at_refl].
  split; [by apply lookup_delete_ne | done].
Qed.

Lemma set_same now key v ttl k c : k ≠ key → same_at k c (set now key v ttl c).
Proof.
  intros Hne. unfold set. case_bool_decide; split; simpl; try done;
    by apply lookup_insert_ne.
Qed.

Lemma del_same key k c : k ≠ key → same_at k c (del key c).
Proof. intros Hne. split; simpl; [by apply lookup_delete_ne | done]. Qed.

Lemma incr_same key k c : k ≠ key → same_at k c (incr key c).2.
Proof. intros Hne. split; simpl; [by apply lookup_insert_ne | done]. Qed.

Lemma expire_same now key ttl k c : k ≠ key → same_at k c (expire now key ttl c).
Proof.
  intros Hne. unfold expire. destruct (store c !! key); [| apply same_at_refl].
  split; simpl; by apply lookup_insert_ne.
Qed.

Lemma del_all_same ks k c : k ∉ ks → same_at k c (del_all ks c).
Proof.
  revert c. induction ks as [| x ks IH]; intros c Hk; [apply same_at_refl |].
  apply not_elem_of_cons in Hk as [Hx Hks]. unfold del_all. simpl.
  eapply same_at_trans; [by apply (del_same x) | by apply IH].
Qed.

(** Timers that are not due leave their key alone. *)
Lemma tick_same now k c d :
  ttlTimers c !! k = Some d → now < d → same_at k c (tick now c).
Proof.
  intros Hd Hlt. unfold tick, due. split; simpl.
  - destruct (store c !! k) as [sl |] eqn:Hs.
    + apply map_lookup_filter_Some. split; [done |]. simpl.
      apply map_lookup_filter_None. right. intros x. rewrite Hd.
      intros [= <-]. simpl. lia.
    + apply map_lookup_filter_None. by left.
  - rewrite Hd. apply map_lookup_filter_Some. split; [done |]. simpl. lia.
Qed.

(** A timer that is due deletes its key. *)
Lemma tick_due now k c d :
  ttlTimers c !! k = Some d → d ≤ now →
  store (tick now c) !! k = None ∧ ttlTimers (tick now c) !! k = None.
Proof.
  intros Hd Hle. unfold tick, due. split; simpl.
  - apply map_lookup_filter_None. right. intros sl _. simpl.
    intros Hnone. apply map_lookup_filter_None in Hnone as [Hnone | Hnone].
    + congruence.
    + by apply (Hnone d).
  - apply map_lookup_filter_None. right. intros x. rewrite Hd.
    intros [= <-]. simpl. lia.
Qed.

Lemma lock_rate_key_rateKey user show : lock_rate_key (ShowRoutes.rateKey user show).
Proof. unfold lock_rate_key, ShowRoutes.rateKey. simpl. apply startsWith_nil. Qed.

Lemma seat_key_not_rate show seat k : lock_rate_key k → getSeatKey show seat ≠ k.
Proof. intros Hk <-. unfold lock_rate_key, getSeatKey in Hk. simpl in Hk. done. Qed.

Lemma booking_rate_not_lock_rate user k :
  lock_rate_key k → BookingRoutes.rateKey user ≠ k.
Proof. intros Hk <-. unfold lock_rate_key, BookingRoutes.rateKey in Hk. simpl in Hk. done. Qed.

Lemma movie_key_not_rate id k : lock_rate_key k → "movies:" +:+ id ≠ k.
Proof. intros Hk <-. unfold lock_rate_key in Hk. simpl in Hk. done. Qed.

Lemma seatlock_pattern_not_rate rest c k :
  lock_rate_key k → k ∉ keys ("seatlock:" +:+ rest) c.
Proof.
  intros Hk Hin. assert (∃ k', k = String "s" k') as [k' ->].
  { unfold keys in Hin. destruct (includes_star _).
    - apply list_elem_of_filter in Hin as [Hin _].
      assert (before_star ("seatlock:" +:+ rest)
              = String "s" ("eatlock:" +:+ before_star rest)) as E by reflexivity.
      rewrite E in Hin. apply startsWith_cons in Hin as (k' & -> & _). by exists k'.
    - case_bool_decide; [| by apply not_elem_of_nil in Hin].
      apply list_elem_of_singleton in Hin as ->. by eexists. }
  unfold lock_rate_key in Hk. by apply startsWith_cons in Hk as (k'' & [=] & _).
Qed.

Lemma collect_conflicts_same now user show ss k c :
  lock_rate_key k → same_at k c (ShowRoutes.collect_conflicts now user show ss c).2.
Proof.
  intros Hk. revert c. induction ss as [| seat rest IH]; intros c; simpl;
    [apply same_at_refl |].
  pose proof (get_same now (getSeatKey show seat) k c) as Hg.
  destruct (get now (getSeatKey show seat) c) as [raw c1].
  specialize (IH c1).
  destruct (ShowRoutes.collect_conflicts now user show rest c1) as [cs c2].
  simpl in *. eapply same_at_trans; [apply Hg | apply IH].
  intros ->. by eapply seat_key_not_rate.
Qed.

Lemma set_locks_same now user show ss k c :
  lock_rate_key k → same_at k c (ShowRoutes.set_locks now user show ss c).
Proof.
  intros Hk. revert c. induction ss as [| seat rest IH]; intros c; simpl;
    [apply same_at_refl |].
  eapply same_at_trans; [| apply IH]. apply set_same.
  intros ->. by eapply seat_key_not_rate.
Qed.

Lemma collect_invalid_same now user show ss k c :
  lock_rate_key k → same_at k c (BookingRoutes.collect_invalid now user show ss c).2.
Proof.
  intros Hk. revert c. induction ss as [| seat rest IH]; intros c; simpl;
    [apply same_at_refl |].
  pose proof (get_same now (getSeatKey show seat) k c) as Hg.
  destruct (get now (getSeatKey show seat) c) as [raw c1].
  specialize (IH c1).
  destruct (BookingRoutes.collect_invalid now user show rest c1) as [cs c2].
  simpl in *. eapply same_at_trans; [apply Hg | apply IH].
  intros ->. by eapply seat_key_not_rate.
Qed.

Lemma clear_locks_same show ss k c :
  lock_rate_key k → same_at k c (BookingRoutes.clear_locks show ss c).
Proof.
  intros Hk. revert c. unfold BookingRoutes.clear_locks.
  induction ss as [| seat rest IH]; intros c; simpl; [apply same_at_refl |].
  eapply same_at_trans; [| apply IH]. apply del_same.
  intros ->. by eapply seat_key_not_rate.
Qed.

Lemma locked_map_same now ks k c :
  k ∉ ks → same_at k c (ShowRoutes.locked_map now ks c).2.
Proof.
  revert c. induction ks as [| x rest IH]; intros c Hk; simpl; [apply same_at_refl |].
  apply not_elem_of_cons in Hk as [Hx Hrest].
  pose proof (get_same now x k c Hx) as Hg.
  destruct (get now x c) as [val c1]. specialize (IH c1 Hrest).
  destruct (ShowRoutes.locked_map now rest c1) as [m c2].
  simpl in *. by eapply same_at_trans.
Qed.

(** The gate of a rate limiter on another key. *)
Lemma gate_same now key ttl k c :
  k ≠ key →
  same_at k c (if bool_decide ((incr key c).1 = Some 1)
               then expire now key ttl (incr key c).2 else (incr key c).2).
Proof.
  intros Hne. case_bool_decide.
  - eapply same_at_trans; [by apply incr_same | by apply expire_same].
  - by apply incr_same.
Qed.

Lemma gate_same_eq now key ttl k c count c1 :
  k ≠ key → incr key c = (count, c1) →
  same_at k c (if bool_decide (count = Some 1) then expire now key ttl c1 else c1).
Proof.
  intros Hne E. pose proof (gate_same now key ttl k c Hne) as H.
  by rewrite E in H.
Qed.

Lemma lockSeats_same now user show ss w k :
  lock_rate_key k → (ss ≠ [] → ShowRoutes.rateKey user show ≠ k) →
  same_at k (redis w) (redis (ShowRoutes.lockSeats now user show ss w).2).
Proof.
  intros Hk Hne. destruct (decide (ss = [])) as [-> | Hss]; [apply same_at_refl |].
  specialize (Hne Hss).
  assert (same_at k (redis w)
            (LockSpec.after_gate now (ShowRoutes.rateKey user show)
               ShowRoutes.LOCK_RATE_LIMIT_TTL (redis w))) as Hgate
    by (apply gate_same; congruence).
  rewrite LockFacts.lockSeats_eq; [| done]. cbn zeta.
  destruct (exceeds _ _); [done |].
  destruct (shows w !! show) as [sh |]; [| done].
  destruct (show_isActive sh); [| done]. unfold LockSpec.locking.
  destruct (LockSpec.found_conflicts now user show ss (redis w)); simpl.
  - eapply same_at_trans; [apply Hgate |].
    eapply same_at_trans; [by apply collect_conflicts_same | by apply set_locks_same].
  - eapply same_at_trans; [apply Hgate | by apply collect_conflicts_same].
Qed.

Lemma getSeats_same now req_user show w k :
  lock_rate_key k →
  same_at k (redis w) (redis (ShowRoutes.getSeats now req_user show w).2).
Proof.
  intros Hk. unfold ShowRoutes.getSeats.
  destruct (shows w !! show) as [sh |]; [| apply same_at_refl].
  destruct (show_isActive sh); [| apply same_at_refl].
  pose proof (locked_map_same now
    (keys ("seatlock:" +:+ show +:+ ":" +:+ "*") (redis w)) k (redis w)
    (seatlock_pattern_not_rate _ _ k Hk)) as H.
  destruct (ShowRoutes.locked_map now _ (redis w)) as [m c1]. exact H.
Qed.

Lemma createBooking_same now user show movie ss w k :
  lock_rate_key k →
  same_at k (redis w) (redis (BookingRoutes.createBooking now user show movie ss w).2).
Proof.
  intros Hk. unfold BookingRoutes.createBooking.
  case_bool_decide; [apply same_at_refl |].
  destruct (incr (BookingRoutes.rateKey user) (redis w)) as [count c1] eqn:Hincr.
  pose proof (gate_same_eq now (BookingRoutes.rateKey user)
    BookingRoutes.BOOKING_RATE_LIMIT_TTL k (redis w) count c1
    (not_eq_sym (booking_rate_not_lock_rate user k Hk)) Hincr) as Hgate.
  set (c2 := if bool_decide (count = Some 1) then _ else _) in *.
  destruct (exceeds _ _); [done |].
  destruct (shows w !! show) as [sh |]; [| done].
  destruct (negb (show_isActive sh)); [done |].
  destruct (Movies.findById movie (movies w)) as [mv |]; [| done].
  destruct (negb (movie_isActive mv)); [done |].
  pose proof (collect_invalid_same now user show ss k c2 Hk) as Hinv.
  destruct (BookingRoutes.collect_invalid now user show ss c2) as [inv c3].
  simpl in Hinv. destruct inv as [| x inv].
  - destruct (Bookings.create _ _) as [[id coll] |]; simpl.
    + eapply same_at_trans; [apply Hgate |].
      eapply same_at_trans; [apply Hinv | by apply clear_locks_same].
    + by eapply same_at_trans.
  - simpl. by eapply same_at_trans.
Qed.

Lemma cancelBooking_same now user id w k :
  lock_rate_key k →
  same_at k (redis w) (redis (BookingRoutes.cancelBooking now user id w).2).
Proof.
  intros Hk. unfold BookingRoutes.cancelBooking.
  destruct (Bookings.findOne id user (bookings w)) as [b |]; [| apply same_at_refl].
  repeat (case_bool_decide; [apply same_at_refl |]).
  destruct (Bookings.save _ _ _); [| apply same_at_refl].
  simpl. by apply clear_locks_same.
Qed.

Lemma mockPayment_same now user bookingId st method reason w k :
  lock_rate_key k →
  same_at k (redis w)
    (redis (PaymentRoutes.mockPayment now user bookingId st method reason w).2).
Proof.
  intros Hk. unfold PaymentRoutes.mockPayment.
  destruct bookingId as [id |]; [| apply same_at_refl].
  destruct (PaymentRoutes.valid_status st) as [status |]; [| apply same_at_refl].
  destruct (Bookings.findById id (bookings w)) as [b |]; [| apply same_at_refl].
  repeat (case_bool_decide; [apply same_at_refl |]).
  destruct (PaymentRoutes.Payment_create _ _) as [ps |]; [| apply same_at_refl].
  destruct (Bookings.save _ _ _) as [coll |]; [| apply same_at_refl].
  destruct status; simpl; try apply same_at_refl.
  apply del_all_same. by apply seatlock_pattern_not_rate.
Qed.

Lemma getMovies_same now w k :
  lock_rate_key k → same_at k (redis w) (redis (MovieRoutes.getMovies now w).2).
Proof.
  intros Hk. unfold MovieRoutes.getMovies, MovieRoutes.MOVIES_CACHE_KEY.
  pose proof (get_same now "movies:all" k (redis w)
                (not_eq_sym (movie_key_not_rate "all" k Hk))) as Hg.
  destruct (get now "movies:all" (redis w)) as [cached c1].
  destruct (MovieRoutes.cache_hit cached); simpl; [done |].
  eapply same_at_trans; [apply Hg |]. apply set_same.
  apply not_eq_sym, (movie_key_not_rate "all" k Hk).
Qed.

Lemma getMovieById_same now id w k :
  lock_rate_key k → same_at k (redis w) (redis (MovieRoutes.getMovieById now id w).2).
Proof.
  intros Hk. unfold MovieRoutes.getMovieById.
  pose proof (not_eq_sym (movie_key_not_rate id k Hk)) as Hne.
  pose proof (get_same now ("movies:" +:+ id) k (redis w) Hne) as Hg.
  destruct (get now ("movies:" +:+ id) (redis w)) as [cached c1].
  destruct (MovieRoutes.cache_hit cached); simpl; [done |].
  destruct (Movies.findById id (movies w)) as [m |]; [| done].
  destruct (movie_isActive m); simpl; [| done].
  eapply same_at_trans; [apply Hg | by apply set_same].
Qed.

Lemma postMovie_same newId ttl date rate w k :
  lock_rate_key k →
  same_at k (redis w) (redis (MovieRoutes.postMovie newId ttl date rate w).2).
Proof.
  intros Hk. unfold MovieRoutes.postMovie, MovieRoutes.MOVIES_CACHE_KEY.
  case_bool_decide; [apply same_at_refl |].
  destruct (Movies.create _ _); [| apply same_at_refl]. simpl.
  eapply same_at_trans; apply del_same.
  - apply not_eq_sym, (movie_key_not_rate "all" k Hk).
  - apply not_eq_sym, (movie_key_not_rate newId k Hk).
Qed.

(** A request leaves the counter of every lock rate limiter but its own
    as it was. *)
Lemma handle_same now r w k :
  lock_rate_key k →
  (∀ user show ss, r = LockSeats user show ss → ss ≠ [] →
                   ShowRoutes.rateKey user show ≠ k) →
  same_at k (redis w) (redis (handle now r w).2).
Proof.
  intros Hk Hr. destruct r; simpl.
  - apply lockSeats_same; [done |]. intros Hss. by eapply Hr.
  - by apply getSeats_same.
  - by apply createBooking_same.
  - by apply cancelBooking_same.
  - by apply mockPayment_same.
  - by apply getMovies_same.
  - by apply getMovieById_same.
  - by apply postMovie_same.
Qed.

End Frame.

(* ===================================================================== *)
(** ** The lock rate limiter *)
(* ===================================================================== *)

Module RateLimit.
Import InMemory InMemoryFacts Frame.
Export RateSpec.

Lemma gate_opens now key ttl c :
  store c !! key = None →
  (incr key c).1 = Some 1
  ∧ store (LockSpec.after_gate now key ttl c) !! key = Some (Count (Some 1))
  ∧ ttlTimers (LockSpec.after_gate now key ttl c) !! key
    = Some (now + timer_delay (ttl * 1000)).
Proof.
  intros Hk. unfold LockSpec.after_gate, incr. rewrite Hk. simpl.
  unfold expire. simpl. rewrite lookup_insert_eq. simpl.
  by rewrite !lookup_insert_eq.
Qed.

Lemma gate_counts now key ttl c n :
  store c !! key = Some (Count (Some n)) → 1 ≤ n →
  (incr key c).1 = Some (n + 1)
  ∧ store (LockSpec.after_gate now key ttl c) !! key = Some (Count (Some (n + 1)))
  ∧ ttlTimers (LockSpec.after_gate now key ttl c) !! key = ttlTimers c !! key.
Proof.
  intros Hk Hn. unfold LockSpec.after_gate, incr. rewrite Hk. simpl.
  rewrite bool_decide_eq_false_2; [| intros [=]; lia]. simpl.
  by rewrite lookup_insert_eq.
Qed.

(** The lock handler on a request that is counted: the rest of the handler
    leaves the counter as the gate left it, and the answer is 429 exactly
    when the count exceeds the maximum. *)
Lemma lockSeats_counted now user show ss w :
  ss ≠ [] →
  let k := ShowRoutes.rateKey user show in
  let out := ShowRoutes.lockSeats now user show ss w in
  same_at k (LockSpec.after_gate now k ShowRoutes.LOCK_RATE_LIMIT_TTL (redis w))
          (redis out.2)
  ∧ (exceeds (incr k (redis w)).1 ShowRoutes.LOCK_RATE_LIMIT_MAX = true →
     out.1 = too_many)
  ∧ (exceeds (incr k (redis w)).1 ShowRoutes.LOCK_RATE_LIMIT_MAX = false →
     status out.1 ≠ 429).
Proof.
  intros Hne k out. subst out. pose proof (lock_rate_key_rateKey user show) as Hk.
  rewrite LockFacts.lockSeats_eq; [| done]. cbn zeta. fold k.
  destruct (exceeds _ _); [by repeat split; try apply same_at_refl |].
  destruct (shows w !! show) as [sh |];
    [| by repeat split; try apply same_at_refl].
  destruct (show_isActive sh); [| by repeat split; try apply same_at_refl].
  unfold LockSpec.locking. fold k.
  destruct (LockSpec.found_conflicts now user show ss (redis w)); simpl.
  - split; [| done].
    eapply same_at_trans; [by apply collect_conflicts_same | by apply set_locks_same].
  - split; [| done]. by apply collect_conflicts_same.
Qed.

Lemma is_attempt_inv k r :
  is_attempt k r = true →
  ∃ user show ss, r = LockSeats user show ss ∧ ss ≠ [] ∧ ShowRoutes.rateKey user show = k.
Proof.
  destruct r as [user show [| x xs] | | | | | | |]; simpl; try done.
  intros H. apply bool_decide_eq_true in H. by exists user, show, (x :: xs).
Qed.

Lemma not_attempt_same now r w k :
  lock_rate_key k → is_attempt k r = false →
  same_at k (redis w) (redis (handle now r w).2).
Proof.
  intros Hk Hr. apply handle_same; [done |].
  intros user show ss -> Hss Hkey. destruct ss as [| x xs]; [done |].
  simpl in Hr. by rewrite bool_decide_eq_true_2 in Hr.
Qed.

(** Inside an open window: the counter follows the counted requests, and
    a counted request is refused exactly from count 21 on. *)
Lemma run_window k d trs : ∀ w n,
  lock_rate_key k →
  store (redis w) !! k = Some (Count (Some n)) → 1 ≤ n →
  ttlTimers (redis w) !! k = Some d →
  Forall (λ tr : Z * request, tr.1 < d) trs →
  store (redis (run w trs).2) !! k = Some (Count (Some (n + Z.of_nat (attempts k trs))))
  ∧ ttlTimers (redis (run w trs).2) !! k = Some d
  ∧ ∀ i tr r, trs !! i = Some tr → (run w trs).1 !! i = Some r →
      is_attempt k tr.2 = true →
      (20 < n + Z.of_nat (attempts k (take (S i) trs)) → r = too_many)
      ∧ (n + Z.of_nat (attempts k (take (S i) trs)) ≤ 20 → status r ≠ 429).
Proof.
  induction trs as [| [t rq] rest IH]; intros w n Hk Hs Hn Ht Hall.
  { simpl. rewrite Z.add_0_r. repeat split; try done. }
  apply Forall_cons in Hall as [Hlt Hall]. simpl in Hlt.
  destruct (tick_same t k (redis w) d Ht Hlt) as [Hs1 Ht1].
  rewrite Hs in Hs1. rewrite Ht in Ht1.
  cbn [run]. unfold step. cbn [fst snd].
  set (w0 := fire_timers t w) in *.
  assert (store (redis w0) !! k = Some (Count (Some n))) as Hs0 by exact Hs1.
  assert (ttlTimers (redis w0) !! k = Some d) as Ht0 by exact Ht1.
  destruct (is_attempt k rq) eqn:Hatt.
  - apply is_attempt_inv in Hatt as Hinv.
    destruct Hinv as (user & show & ss & -> & Hss & Hkey).
    destruct (lockSeats_counted t user show ss w0 Hss) as (Hsame & Hover & Hunder).
    cbn zeta in *. rewrite Hkey in *.
    destruct (gate_counts t k ShowRoutes.LOCK_RATE_LIMIT_TTL (redis w0) n Hs0 Hn)
      as (Hcount & Hgs & Hgt).
    destruct Hsame as [Hsame1 Hsame2]. rewrite Hgs in Hsame1.
    rewrite Hgt, Ht0 in Hsame2. rewrite Hcount in Hover, Hunder.
    cbn [handle].
    destruct (ShowRoutes.lockSeats t user show ss w0) as [r1 w1] eqn:Hout.
    cbn [fst snd] in *.
    assert (1 ≤ n + 1) as Hn1 by lia.
    specialize (IH w1 (n + 1) Hk Hsame1 Hn1 Hsame2 Hall).
    destruct (run w1 rest) as [rs w2] eqn:Hrun. cbn [fst snd] in *.
    destruct IH as (IH1 & IH2 & IH3). cbn [attempts fst snd]. rewrite Hatt.
    split; [| split]; [rewrite IH1; do 3 f_equal; lia | done |].
    intros i tr r Htr Hr Hatt'. destruct i as [| i].
    + simpl in Htr, Hr. injection Htr as <-. injection Hr as <-.
      cbn [take attempts fst snd]. rewrite Hatt. rewrite take_0. simpl attempts.
      unfold exceeds, ShowRoutes.LOCK_RATE_LIMIT_MAX in *. split; intros Hc.
      * apply Hover. apply bool_decide_eq_true_2. lia.
      * apply Hunder. apply bool_decide_eq_false_2. lia.
    + simpl in Htr, Hr. specialize (IH3 i tr r Htr Hr Hatt').
      cbn [take attempts fst snd]. rewrite Hatt.
      replace (n + Z.of_nat (1 + attempts k (take (S i) rest)))
        with (n + 1 + Z.of_nat (attempts k (take (S i) rest))) by lia.
      exact IH3.
  - pose proof (not_attempt_same t rq w0 k Hk Hatt) as [Hsame1 Hsame2].
    rewrite Hs0 in Hsame1. rewrite Ht0 in Hsame2.
    destruct (handle t rq w0) as [r1 w1] eqn:Hout. cbn [fst snd] in *.
    specialize (IH w1 n Hk Hsame1 Hn Hsame2 Hall).
    destruct (run w1 rest) as [rs w2] eqn:Hrun. cbn [fst snd] in *.
    destruct IH as (IH1 & IH2 & IH3). cbn [attempts fst snd]. rewrite Hatt.
    split; [| split]; [by rewrite IH1 | done |].
    intros i tr r Htr Hr Hatt'. destruct i as [| i].
    + simpl in Htr. injection Htr as <-. simpl in Hatt'. congruence.
    + simpl in Htr, Hr. specialize (IH3 i tr r Htr Hr Hatt').
      cbn [take attempts fst snd]. rewrite Hatt. exact IH3.
Qed.

(** When the timer of the counter has fired, the next lock request of the
    pair opens a new window. *)
Lemma window_restarts w t user show ss d :
  ss ≠ [] →
  ttlTimers (redis w) !! ShowRoutes.rateKey user show = Some d → d ≤ t →
  status (step w (t, LockSeats user show ss)).1 ≠ 429
  ∧ store (redis (step w (t, LockSeats user show ss)).2) !! ShowRoutes.rateKey user show
    = Some (Count (Some 1))
  ∧ ttlTimers (redis (step w (t, LockSeats user show ss)).2)
      !! ShowRoutes.rateKey user show
    = Some (t + ShowRoutes.LOCK_RATE_LIMIT_TTL * 1000).
Proof.
  intros Hss Hd Hle. unfold step. cbn [fst snd handle].
  destruct (tick_due t _ (redis w) d Hd Hle) as [Hs0 _].
  change (tick t (redis w)) with (redis (fire_timers t w)) in Hs0.
  destruct (lockSeats_counted t user show ss (fire_timers t w) Hss)
    as (Hsame & _ & Hunder). cbn zeta in *.
  destruct (gate_opens t _ ShowRoutes.LOCK_RATE_LIMIT_TTL _ Hs0) as (Hcount & Hgs & Hgt).
  destruct Hsame as [Hsame1 Hsame2]. rewrite Hgs in Hsame1. rewrite Hgt in Hsame2.
  rewrite Hcount in Hunder. by split; [apply Hunder |].
Qed.

End RateLimit.

Section RateLimitProperty.
Import InMemory InMemoryFacts Frame RateLimit.

(** C8.  Take a lock request of a user for a show, with at least one seat,
    that arrives at [t1] when the pair has no counter (a new window), and
    let any requests follow before [t1 + 60 s].  The first request arms the
    expiry of the counter at [t1 + 60 s]; the counter ends at the number of
    lock requests of the pair, whatever seats they name and whatever else
    the server handled in between; a lock request of the pair is answered
    429 (not 409) when it is the 21st or a later one of the window, and is
    not answered 429 when it is among the first 20. *)
Theorem lock_rate_limit w user show t1 ss1 rest :
  ss1 ≠ [] →
  store (InMemory.tick t1 (redis w)) !! ShowRoutes.rateKey user show = None →
  Forall (λ tr : Z * request, tr.1 < t1 + ShowRoutes.LOCK_RATE_LIMIT_TTL * 1000) rest →
  let k := ShowRoutes.rateKey user show in
  let trs := (t1, LockSeats user show ss1) :: rest in
  ttlTimers (redis (step w (t1, LockSeats user show ss1)).2) !! k = Some (t1 + 60 * 1000)
  ∧ store (redis (run w trs).2) !! k = Some (Count (Some (Z.of_nat (attempts k trs))))
  ∧ ∀ i tr r, trs !! i = Some tr → (run w trs).1 !! i = Some r →
      is_attempt k tr.2 = true →
      ((20 < attempts k (take (S i) trs))%nat → r = too_many)
      ∧ ((attempts k (take (S i) trs) ≤ 20)%nat → status r ≠ 429).
Proof.
  intros Hss Hclosed Hall k trs. subst trs.
  pose proof (lock_rate_key_rateKey user show) as Hk. fold k in Hk, Hclosed.
  cbn [run]. unfold step. cbn [fst snd handle].
  set (w0 := fire_timers t1 w) in *.
  assert (store (redis w0) !! k = None) as Hs0 by exact Hclosed.
  destruct (lockSeats_counted t1 user show ss1 w0 Hss) as (Hsame & _ & Hunder).
  cbn zeta in *. fold k in Hsame, Hunder.
  destruct (gate_opens t1 k ShowRoutes.LOCK_RATE_LIMIT_TTL (redis w0) Hs0)
    as (Hcount & Hgs & Hgt).
  destruct Hsame as [Hsame1 Hsame2]. rewrite Hgs in Hsame1. rewrite Hgt in Hsame2.
  rewrite Hcount in Hunder. specialize (Hunder eq_refl).
  destruct (ShowRoutes.lockSeats t1 user show ss1 w0) as [r1 w1] eqn:Hout.
  cbn [fst snd] in *.
  destruct (run_window k (t1 + ShowRoutes.LOCK_RATE_LIMIT_TTL * 1000) rest w1 1
              Hk Hsame1 (Z.le_refl 1) Hsame2 Hall) as (R1 & R2 & R3).
  destruct (run w1 rest) as [rs w2] eqn:Hrun. cbn [fst snd] in *.
  assert (is_attempt k (LockSeats user show ss1) = true) as Hfirst.
  { destruct ss1; [done |]. simpl. by apply bool_decide_eq_true_2. }
  split; [exact Hsame2 |]. split.
  - rewrite R1. cbn [attempts fst snd]. rewrite Hfirst. do 3 f_equal. lia.
  - intros i tr r Htr Hr Hatt. destruct i as [| i].
    + simpl in Htr, Hr. injection Htr as <-. injection Hr as <-.
      cbn [take attempts fst snd]. rewrite Hfirst, take_0. simpl attempts.
      split; [lia | done].
    + simpl in Htr, Hr. destruct (R3 i tr r Htr Hr Hatt) as [Hover Hok].
      cbn [take attempts fst snd]. rewrite Hfirst. split; intros Hc.
      * apply Hover. lia.
      * apply Hok. lia.
Qed.

(** C8 on a fresh server: u1 locks A-1 at time 0 and sends the twenty
    requests of [Demo.burst] within the minute; the last one is refused. *)
Lemma lock_rate_limit_witness :
  ttlTimers (redis (step Demo.start (0, LockSeats "u1" "s1" ["A-1"])).2)
    !! ShowRoutes.rateKey "u1" "s1" = Some (0 + 60 * 1000)
  ∧ ∃ r, (run Demo.start ((0, LockSeats "u1" "s1" ["A-1"]) :: Demo.burst)).1 !! 21%nat
           = Some r ∧ r = too_many.
Proof.
  assert (["A-1"] ≠ []) as H1 by discriminate.
  assert (store (InMemory.tick 0 (redis Demo.start)) !! ShowRoutes.rateKey "u1" "s1"
          = None) as H2 by (by vm_compute).
  assert (Forall (λ tr : Z * request, tr.1 < 0 + ShowRoutes.LOCK_RATE_LIMIT_TTL * 1000)
            Demo.burst) as H3.
  { apply Forall_forall. intros x Hx. unfold Demo.burst in Hx. simpl in Hx.
    repeat (apply elem_of_cons in Hx as [-> | Hx]; [by vm_compute |]).
    by apply not_elem_of_nil in Hx. }
  destruct (lock_rate_limit Demo.start "u1" "s1" 0 ["A-1"] Demo.burst H1 H2 H3)
    as (T1 & T2 & T3).
  split; [exact T1 |]. eexists. split; [by vm_compute |].
  refine (proj1 (T3 21%nat (20 * 1000, LockSeats "u1" "s1" ["S-20"]) _ _ _ _) _).
  - by vm_compute.
  - by vm_compute.
  - by vm_compute.
  - vm_compute. lia.
Defined.

End RateLimitProperty.

(* ===================================================================== *)
(** ** The unique index keeps bookings apart *)
(* ===================================================================== *)

Module IndexFacts.
Import Bookings.
Export IndexSpec.

Lemma duplicate_key_false b coll :
  duplicate_key b coll = false →
  ∀ e key, e ∈ coll → key ∈ index_keys b → key ∉ index_keys e.
Proof.
  unfold duplicate_key. intros H e key He Hb Hin.
  apply bool_decide_eq_false in H. apply H.
  apply Exists_exists. exists e. split; [done |].
  apply Exists_exists. by exists key.
Qed.

Lemma duplicate_key_true b coll e key :
  e ∈ coll → key ∈ index_keys b → key ∈ index_keys e → duplicate_key b coll = true.
Proof.
  intros He Hb Hin. unfold duplicate_key. apply bool_decide_eq_true.
  apply Exists_exists. exists e. split; [done |].
  apply Exists_exists. by exists key.
Qed.

Lemma seat_index_key b s :
  bookingStatus b ≠ CANCELLED → s ∈ seats b → (showId b, Some s) ∈ index_keys b.
Proof.
  intros Hst Hs. unfold index_keys. destruct (bookingStatus b); [| done].
  destruct (seats b) as [| x xs] eqn:E; [by apply not_elem_of_nil in Hs |].
  by apply (list_elem_of_fmap_2 (λ s0, (showId b, Some s0))).
Qed.

Lemma index_key_inv b key :
  key ∈ index_keys b →
  bookingStatus b = CONFIRMED ∧ key.1 = showId b
  ∧ ((seats b = [] ∧ key.2 = None) ∨ ∃ s, key.2 = Some s ∧ s ∈ seats b).
Proof.
  unfold index_keys. destruct (bookingStatus b); [| by intros ?%not_elem_of_nil].
  destruct (seats b) as [| x xs].
  - intros ->%list_elem_of_singleton. by repeat split; try left.
  - intros (s & -> & Hs)%list_elem_of_fmap. repeat split; try done. right. by exists s.
Qed.

Lemma index_unique_no_double_booking coll :
  index_unique coll → no_double_booking coll.
Proof.
  intros Hu i j bi bj s Hij Hi Hj Hsi Hsj Hshow Hin Hin'.
  apply (Hu i j bi bj (showId bi, Some s) Hij Hi Hj).
  - by apply seat_index_key.
  - rewrite Hshow. by apply seat_index_key.
Qed.

Lemma index_unique_nil : index_unique [].
Proof. intros i j bi bj key _ Hi. by rewrite lookup_nil in Hi. Qed.

Lemma create_unique b coll id coll' :
  index_unique coll → create b coll = Some (id, coll') → index_unique coll'.
Proof.
  unfold create. intros Hu Hc. destruct (duplicate_key b coll) eqn:Hd; [done |].
  injection Hc as <- <-. pose proof (duplicate_key_false b coll Hd) as Hfresh.
  intros i j bi bj key Hij Hi Hj Hki Hkj.
  apply lookup_app_Some in Hi as [Hi | [Hil Hi]];
    apply lookup_app_Some in Hj as [Hj | [Hjl Hj]].
  - by apply (Hu i j bi bj key).
  - apply list_lookup_singleton_Some in Hj as [_ <-].
    apply (Hfresh bi key); [by eapply list_elem_of_lookup_2 | done | done].
  - apply list_lookup_singleton_Some in Hi as [_ <-].
    apply (Hfresh bj key); [by eapply list_elem_of_lookup_2 | done | done].
  - apply list_lookup_singleton_Some in Hi as [Hi0 _].
    apply list_lookup_singleton_Some in Hj as [Hj0 _]. lia.
Qed.

Lemma others_elem (coll : list Booking) id j e :
  j ≠ id → coll !! j = Some e → e ∈ take id coll ++ drop (S id) coll.
Proof.
  intros Hne Hj. apply elem_of_app. destruct (decide (j < id)%nat) as [Hlt | Hge].
  - left. apply list_elem_of_lookup. exists j. by rewrite lookup_take_lt.
  - right. apply list_elem_of_lookup. exists (j - S id)%nat.
    rewrite lookup_drop. by replace (S id + (j - S id))%nat with j by lia.
Qed.

Lemma save_unique b coll id coll' :
  index_unique coll → save id b coll = Some coll' → index_unique coll'.
Proof.
  unfold save. intros Hu Hs. destruct (coll !! id) as [old |] eqn:Hold; [| done].
  assert (coll' = <[id := b]> coll ∧
          (index_keys b = index_keys old
           ∨ duplicate_key b (take id coll ++ drop (S id) coll) = false))
    as [-> Hcase].
  { case_bool_decide; [injection Hs as <-; by split; [| left] |].
    destruct (duplicate_key _ _) eqn:Hd; [done |]. injection Hs as <-.
    by split; [| right]. }
  assert (∀ j bj key, j ≠ id → coll !! j = Some bj →
            key ∈ index_keys b → key ∉ index_keys bj) as Hb.
  { intros j bj key Hj Hbj Hk. destruct Hcase as [E | Hd].
    - rewrite E in Hk. by apply (Hu id j old bj key).
    - apply (duplicate_key_false _ _ Hd bj key); [| done].
      by apply (others_elem coll id j). }
  intros i j bi bj key Hij Hi Hj Hki Hkj.
  apply list_lookup_insert_Some in Hi as [(<- & <- & _) | [Hi1 Hi]];
    apply list_lookup_insert_Some in Hj as [(<- & <- & _) | [Hj1 Hj]].
  - done.
  - by apply (Hb j bj key).
  - by apply (Hb i bi key).
  - by apply (Hu i j bi bj key).
Qed.

End IndexFacts.

Module SystemFacts.
Import IndexFacts.
Export SystemSpec.

Lemma lockSeats_bookings now user show ss w :
  bookings (ShowRoutes.lockSeats now user show ss w).2 = bookings w.
Proof.
  unfold ShowRoutes.lockSeats. repeat case_match; done.
Qed.

Lemma getSeats_bookings now req_user show w :
  bookings (ShowRoutes.getSeats now req_user show w).2 = bookings w.
Proof.
  unfold ShowRoutes.getSeats. repeat case_match; done.
Qed.

Lemma createBooking_bookings now user show movie ss w :
  bookings_step (bookings w)
    (bookings (BookingRoutes.createBooking now user show movie ss w).2).
Proof.
  unfold BookingRoutes.createBooking, bookings_step.
  repeat case_match; simpl; eauto.
Qed.

Lemma cancelBooking_bookings now user id w :
  bookings_step (bookings w) (bookings (BookingRoutes.cancelBooking now user id w).2).
Proof.
  unfold BookingRoutes.cancelBooking, bookings_step.
  repeat case_match; simpl; eauto.
Qed.

Lemma mockPayment_bookings now user bookingId st method reason w :
  bookings_step (bookings w)
    (bookings (PaymentRoutes.mockPayment now user bookingId st method reason w).2).
Proof.
  unfold PaymentRoutes.mockPayment, bookings_step.
  repeat case_match; simpl; eauto.
Qed.

Lemma movie_routes_bookings now id newId ttl date rate w :
  bookings (MovieRoutes.getMovies now w).2 = bookings w
  ∧ bookings (MovieRoutes.getMovieById now id w).2 = bookings w
  ∧ bookings (MovieRoutes.postMovie newId ttl date rate w).2 = bookings w.
Proof.
  unfold MovieRoutes.getMovies, MovieRoutes.getMovieById, MovieRoutes.postMovie.
  repeat split; repeat case_match; done.
Qed.

Lemma handle_bookings now r w :
  bookings_step (bookings w) (bookings (handle now r w).2).
Proof.
  destruct r; simpl.
  - left. apply lockSeats_bookings.
  - left. apply getSeats_bookings.
  - apply createBooking_bookings.
  - apply cancelBooking_bookings.
  - apply mockPayment_bookings.
  - left. apply (movie_routes_bookings now "" "" "" None None w).
  - left. apply (movie_routes_bookings now id "" "" None None w).
  - left. apply (movie_routes_bookings now "" newId ttl date rate w).
Qed.

Lemma bookings_step_unique coll coll' :
  index_unique coll → bookings_step coll coll' → index_unique coll'.
Proof.
  intros Hu [-> | [(b & id & Hc) | (id & b & Hs)]]; [done | |].
  - by eapply create_unique.
  - by eapply save_unique.
Qed.

Lemma run_unique trs : ∀ w,
  index_unique (bookings w) → index_unique (bookings (run w trs).2).
Proof.
  induction trs as [| [t r] rest IH]; intros w Hu; [done |].
  cbn [run]. unfold step. cbn [fst snd].
  pose proof (handle_bookings t r (fire_timers t w)) as Hstep.
  destruct (handle t r (fire_timers t w)) as [r1 w1]. cbn [fst snd] in *.
  change (bookings (fire_timers t w)) with (bookings w) in Hstep.
  specialize (IH w1 (bookings_step_unique _ _ Hu Hstep)).
  by destruct (run w1 rest).
Qed.

End SystemFacts.

Section BookingInvariant.
Import IndexFacts SystemFacts.

(** C1.  In every state the server reaches, no seat of a show is in the
    seats of two different bookings that are not cancelled; the same holds
    after any sequence of requests from any state whose index is unique;
    and an insert of a non-cancelled booking that shares a seat with a
    non-cancelled booking of the same show is refused by the unique index. *)
Theorem no_seat_in_two_bookings :
  (∀ w, reachable w → no_double_booking (bookings w))
  ∧ (∀ w trs, index_unique (bookings w) → no_double_booking (bookings (run w trs).2))
  ∧ (∀ (b e : Booking) (coll : list Booking) (s : string),
       e ∈ coll → bookingStatus e ≠ CANCELLED → bookingStatus b ≠ CANCELLED →
       showId e = showId b → s ∈ seats e → s ∈ seats b →
       Bookings.create b coll = None).
Proof.
  split; [| split].
  - intros w (shs & ms & trs & ->). apply index_unique_no_double_booking.
    apply run_unique. simpl. apply index_unique_nil.
  - intros w trs Hu. by apply index_unique_no_double_booking, run_unique.
  - intros b e coll s He Hse Hsb Hshow Hine Hinb. unfold Bookings.create.
    rewrite (duplicate_key_true b coll e (showId b, Some s)); [done | done | |].
    + by apply seat_index_key.
    + rewrite <- Hshow. by apply seat_index_key.
Qed.

(** C1 on the demo server: after the booking of u1 the invariant holds,
    and a booking of u2 for seat A-1 is refused by the index. *)
Lemma no_seat_in_two_bookings_witness :
  no_double_booking (bookings Demo.booked)
  ∧ Bookings.create (mkBooking "u2" "s1" "m1" ["A-1"] 250 CONFIRMED PENDING WEB None)
      (bookings Demo.booked) = None.
Proof.
  split.
  - apply (proj1 no_seat_in_two_bookings).
    exists {["s1" := Demo.show1]}, [Demo.movie1],
      [(0, LockSeats "u1" "s1" ["A-1"; "A-2"]);
       (20, CreateBooking "u1" "s1" "m1" ["A-1"; "A-2"])].
    by vm_compute.
  - apply (proj2 (proj2 no_seat_in_two_bookings) _
             (mkBooking "u1" "s1" "m1" ["A-1"; "A-2"] 500 CONFIRMED PENDING WEB None)
             _ "A-1"); try done.
    + vm_compute. apply list_elem_of_here.
    + apply list_elem_of_here.
    + apply list_elem_of_here.
Defined.

End BookingInvariant.

(* ===================================================================== *)
(** ** Settlement *)
(* ===================================================================== *)

Module SettleFacts.
Import Bookings.

(** A save that keeps the show and the seats and either keeps the booking
    status or cancels the booking is never refused by the index. *)
Lemma save_accepts id b old coll :
  coll !! id = Some old → showId b = showId old → seats b = seats old →
  bookingStatus b = bookingStatus old ∨ bookingStatus b = CANCELLED →
  save id b coll = Some (<[id := b]> coll).
Proof.
  intros Hold Hshow Hseats Hst. unfold save. rewrite Hold.
  destruct Hst as [Hst | Hst].
  - rewrite bool_decide_eq_true_2; [done |].
    unfold index_keys. by rewrite Hst, Hshow, Hseats.
  - case_bool_decide; [done |].
    assert (duplicate_key b (take id coll ++ drop (S id) coll) = false) as ->; [| done].
    unfold duplicate_key. apply bool_decide_eq_false. intros Hex.
    apply Exists_exists in Hex as (e & _ & Hex).
    apply Exists_exists in Hex as (key & Hkey & _).
    unfold index_keys in Hkey. rewrite Hst in Hkey. by apply not_elem_of_nil in Hkey.
Qed.

End SettleFacts.

Section Settlement.
Import PaymentRoutes SettleFacts.

(** C10.  A settlement request of a user for a booking of another user is
    answered 403 and changes nothing: the whole state (payments, bookings,
    key store with its seat locks, published events) is the one before. *)
Theorem settle_by_other_user_rejected now user id st method reason w b :
  is_Some (valid_status st) →
  bookings w !! id = Some b →
  userId b ≠ user →
  mockPayment now user (Some id) st method reason w
    = (Res 403 (Message "Cannot pay for another user booking"), w).
Proof.
  intros [status Hst] Hb Hne. unfold mockPayment, Bookings.findById.
  rewrite Hst, Hb. by rewrite bool_decide_eq_true_2.
Qed.

Lemma settle_by_other_user_rejected_witness :
  mockPayment 60 "u2" (Some 0%nat) "SUCCESS" None None Demo.booked
    = (Res 403 (Message "Cannot pay for another user booking"), Demo.booked).
Proof.
  apply (settle_by_other_user_rejected 60 "u2" 0 "SUCCESS" None None Demo.booked
           (mkBooking "u1" "s1" "m1" ["A-1"; "A-2"] 500 CONFIRMED PENDING WEB None)).
  - by exists SUCCESS.
  - by vm_compute.
  - discriminate.
Defined.

(** C6.  A settlement request for a booking that is already paid is
    refused (400 for its owner, with either outcome; 403 for anyone else)
    and leaves the state as it was.  For a booking of the requester that
    is not yet paid, with an accepted payment method, the outcome FAILED
    stores paymentStatus FAILED and bookingStatus CANCELLED, and the
    outcome SUCCESS stores paymentStatus SUCCESS and keeps the booking
    status; the rest of the booking is kept. *)
Theorem settle_payment now user id st method reason w b :
  bookings w !! id = Some b →
  let out := mockPayment now user (Some id) st method reason w in
  (paymentStatus b = SUCCESS →
     (status out.1 = 400 ∨ status out.1 = 403) ∧ out.2 = w
     ∧ (userId b = user → is_Some (valid_status st) →
        out.1 = Res 400 (Message "Booking already paid")))
  ∧ (userId b = user → paymentStatus b ≠ SUCCESS →
     default "CARD" method ∈ ["CARD"; "UPI"; "NETBANKING"; "WALLET"] →
     (st = "FAILED" →
        status out.1 = 201
        ∧ bookings out.2 !! id
            = Some (mkBooking (userId b) (showId b) (movieId b) (seats b)
                      (totalAmount b) CANCELLED FAILED (bookingSource b)
                      (cancelledAt b)))
     ∧ (st = "SUCCESS" →
        status out.1 = 201
        ∧ bookings out.2 !! id
            = Some (mkBooking (userId b) (showId b) (movieId b) (seats b)
                      (totalAmount b) (bookingStatus b) SUCCESS (bookingSource b)
                      (cancelledAt b)))).
Proof.
  intros Hb out. subst out. unfold mockPayment, Bookings.findById. rewrite Hb.
  assert (id < List.length (bookings w))%nat as Hlen by (by eapply lookup_lt_Some).
  split.
  - intros Hpaid. destruct (valid_status st) as [status |].
    + case_bool_decide as Howner.
      * simpl. split; [by right |]. split; [done |]. by intros.
      * rewrite bool_decide_eq_true_2; [| done]. simpl. by repeat split; try left.
    + simpl. split; [by left |]. split; [done |]. by intros _ [x Hx].
  - intros Howner Hunpaid Hmethod.
    rewrite (bool_decide_eq_false_2 (userId b ≠ user)); [| by intros H; apply H].
    rewrite (bool_decide_eq_false_2 (paymentStatus b = SUCCESS)); [| done].
    unfold Payment_create. cbn [paymentMethod].
    rewrite (bool_decide_eq_true_2 _ Hmethod).
    split; intros ->; cbn [valid_status bool_decide]; simpl.
    + rewrite (save_accepts id _ b); [| done | done | done | by right].
      simpl. split; [done |]. by apply list_lookup_insert_eq.
    + rewrite (save_accepts id _ b); [| done | done | done | by left].
      simpl. split; [done |]. by apply list_lookup_insert_eq.
Qed.

(** C6 on the demo server: u1 settles the booking with outcome FAILED. *)
Lemma settle_payment_witness :
  status (mockPayment 70 "u1" (Some 0%nat) "FAILED" None None Demo.booked).1 = 201
  ∧ bookings (mockPayment 70 "u1" (Some 0%nat) "FAILED" None None Demo.booked).2 !! 0%nat
      = Some (mkBooking "u1" "s1" "m1" ["A-1"; "A-2"] 500 CANCELLED FAILED WEB None).
Proof.
  refine (proj1 (proj2 (settle_payment 70 "u1" 0 "FAILED" None None Demo.booked
            (mkBooking "u1" "s1" "m1" ["A-1"; "A-2"] 500 CONFIRMED PENDING WEB None) _)
            _ _ _) _).
  - by vm_compute.
  - done.
  - discriminate.
  - apply list_elem_of_here.
  - done.
Defined.

End Settlement.

(* ===================================================================== *)
(** ** The booking commit *)
(* ===================================================================== *)

Module CommitFacts.
Import InMemory InMemoryFacts BookingRoutes.
Export CommitSpec.

Lemma filter_ext_elem {A} (P Q : A → Prop) `{∀ x, Decision (P x), ∀ x, Decision (Q x)}
    (l : list A) :
  (∀ x, x ∈ l → P x ↔ Q x) → filter P l = filter Q l.
Proof.
  induction l as [| a l IH]; intros Hext; [done |].
  assert (filter P l = filter Q l) as IH'
    by (apply IH; intros x Hx; apply Hext; by apply elem_of_cons; right).
  destruct (decide (P a)) as [Hp | Hp].
  - rewrite !filter_cons_True; [by rewrite IH' | | done].
    apply Hext; [apply list_elem_of_here | done].
  - rewrite !filter_cons_False; [done | | done].
    intros Hq. apply Hp. apply Hext; [apply list_elem_of_here | done].
Qed.

(** The seats the duplicate-key answer lists are the requested seats that
    are booked. *)
Lemma duplicate_answer_booked show ss coll :
  duplicate_answer show ss coll
    = Res 409 (InvalidSeats (filter (λ s, booked coll show s) ss)).
Proof.
  unfold duplicate_answer. do 2 f_equal. apply filter_ext_elem. intros s Hs.
  rewrite list_elem_of_join. unfold booked. rewrite Exists_exists. split.
  - intros (l & Hsl & Hl). apply list_elem_of_fmap in Hl as (e & -> & He).
    unfold Bookings.find_conflicting in He.
    apply list_elem_of_filter in He as [(Hshow & _ & Hst) He]. by exists e.
  - intros (e & He & Hshow & Hst & Hse). exists (seats e). split; [done |].
    apply list_elem_of_fmap. exists e. split; [done |].
    unfold Bookings.find_conflicting. apply list_elem_of_filter.
    split; [| done]. repeat split; try done.
    apply Exists_exists. by exists s.
Qed.

(** The handler at the insert: the insert decides. *)
Lemma createBooking_insert now user show movie ss w sh :
  reaches_insert now user show movie ss w sh →
  createBooking now user show movie ss w =
    match Bookings.create (new_booking user show movie ss sh) (bookings w) with
    | None => (duplicate_answer show ss (bookings w),
               with_redis (at_insert now user show ss (redis w)) w)
    | Some (id, coll) =>
        (Res 201 (BookingCreated id (new_booking user show movie ss sh)),
         emit show (seatsBooked show ss)
           (with_bookings coll
              (with_redis (clear_locks show ss (at_insert now user show ss (redis w)))
                 w)))
    end.
Proof.
  intros (Hshow & Hmovie & Hss & Hrate & Hsh & Hact & (mv & Hmv & Hmact) & Hinv).
  unfold createBooking, at_insert, LockSpec.after_gate in *.
  rewrite bool_decide_eq_false_2; [| by intros [? | [? | ?]]].
  destruct (incr (rateKey user) (redis w)) as [count c1] eqn:Hincr.
  cbn [fst snd] in *. rewrite Hrate, Hsh, Hact, Hmv, Hmact. cbn [negb].
  destruct (collect_invalid now user show ss _) as [inv c3].
  cbn [fst snd] in *. subst inv. unfold new_booking.
  by destruct (Bookings.create _ _) as [[id coll] |].
Qed.

End CommitFacts.

Section DuplicateKey.
Import InMemory InMemoryFacts BookingRoutes CommitFacts.

(** C5.  When a createBooking request reaches the insert and the insert is
    refused by the unique index, the answer is a 409 that lists exactly the
    requested seats that are in a non-cancelled booking of the show, a list
    computed from the bookings collection alone (no lock key is read for
    it), and at least one seat is listed; the bookings collection is left
    as it was. *)
Theorem duplicate_key_reports_booked_seats now user show movie ss w sh :
  reaches_insert now user show movie ss w sh →
  Bookings.create (new_booking user show movie ss sh) (bookings w) = None →
  let out := createBooking now user show movie ss w in
  out.1 = Res 409 (InvalidSeats (filter (λ s, booked (bookings w) show s) ss))
  ∧ filter (λ s, booked (bookings w) show s) ss ≠ []
  ∧ bookings out.2 = bookings w
  ∧ payments out.2 = payments w
  ∧ emitted out.2 = emitted w.
Proof.
  intros Hreach Hdup out. subst out.
  rewrite (createBooking_insert now user show movie ss w sh Hreach), Hdup.
  cbn [fst snd]. rewrite duplicate_answer_booked.
  split; [done |]. split; [| done].
  unfold Bookings.create in Hdup.
  destruct (Bookings.duplicate_key _ _) eqn:Hd; [| done].
  unfold Bookings.duplicate_key in Hd. apply bool_decide_eq_true in Hd.
  apply Exists_exists in Hd as (e & He & Hk).
  apply Exists_exists in Hk as (key & Hkb & Hke).
  destruct Hreach as (_ & _ & Hss & _).
  apply IndexFacts.index_key_inv in Hkb as (_ & Hk1 & Hk2).
  apply IndexFacts.index_key_inv in Hke as (Hst & Hk1' & Hk2').
  cbn [new_booking seats showId] in Hk1, Hk2.
  destruct Hk2 as [[Hnil _] | (s & Hk2 & Hs)]; [done |].
  assert (s ∈ seats e) as Hse.
  { destruct Hk2' as [[_ Hnone] | (s' & Hk2' & Hs')]; [congruence |].
    rewrite Hk2 in Hk2'. by injection Hk2' as ->. }
  assert (showId e = show) as Hshow by congruence.
  intros Hnil. apply (filter_nil_not_elem_of _ _ s Hnil); [| done].
  apply Exists_exists. exists e. rewrite Hst. by repeat split.
Qed.

(** C5 on the demo server: u2, holding a lock on the seat A-1 that u1 has
    booked, asks to book it at time 40. *)
Lemma duplicate_key_reports_booked_seats_witness :
  (createBooking 40 "u2" "s1" "m1" ["A-1"] (fire_timers 40 Demo.relocked)).1
    = Res 409 (InvalidSeats ["A-1"])
  ∧ bookings (createBooking 40 "u2" "s1" "m1" ["A-1"] (fire_timers 40 Demo.relocked)).2
    = bookings (fire_timers 40 Demo.relocked).
Proof.
  assert (reaches_insert 40 "u2" "s1" "m1" ["A-1"] (fire_timers 40 Demo.relocked)
            Demo.show1) as Hreach.
  { repeat split; try done; try (by vm_compute).
    exists Demo.movie1. split; by vm_compute. }
  assert (Bookings.create (new_booking "u2" "s1" "m1" ["A-1"] Demo.show1)
            (bookings (fire_timers 40 Demo.relocked)) = None) as Hdup
    by (by vm_compute).
  destruct (duplicate_key_reports_booked_seats 40 "u2" "s1" "m1" ["A-1"]
              (fire_timers 40 Demo.relocked) Demo.show1 Hreach Hdup)
    as (H1 & _ & H2 & _).
  split; [| exact H2]. rewrite H1. by vm_compute.
Defined.

End DuplicateKey.

(* ===================================================================== *)
(** ** Locks and bookings *)
(* ===================================================================== *)

Module OccupancyFacts.
Import InMemory InMemoryFacts BookingRoutes CommitFacts.

Lemma clear_locks_store show ss c k :
  store (clear_locks show ss c) !! k =
    if decide (k ∈ getSeatKey show <$> ss) then None else store c !! k.
Proof.
  revert c. unfold clear_locks. induction ss as [| seat rest IH]; intros c.
  - cbn [foldl]. rewrite fmap_nil.
    destruct (decide (k ∈ [])) as [H | _]; [by apply not_elem_of_nil in H | done].
  - cbn [foldl]. rewrite IH, fmap_cons. simpl.
    destruct (decide (k ∈ getSeatKey show <$> rest)) as [Hin | Hnin].
    + rewrite decide_True; [done | by apply elem_of_cons; right].
    + destruct (decide (k = getSeatKey show seat)) as [-> | Hne].
      * rewrite lookup_delete_eq.
        rewrite decide_True; [done | apply list_elem_of_here].
      * rewrite lookup_delete_ne; [| done].
        rewrite decide_False; [done |].
        intros [? | ?]%elem_of_cons; done.
Qed.

(** A 201 is answered only by a request that reached the insert. *)
Lemma createBooking_201_inv now user show movie ss w :
  status (createBooking now user show movie ss w).1 = 201 →
  ∃ sh, reaches_insert now user show movie ss w sh.
Proof.
  unfold createBooking, reaches_insert, LockSpec.after_gate.
  case_bool_decide as Hbody; [done |].
  destruct (incr (rateKey user) (redis w)) as [count c1] eqn:Hincr. cbn [fst snd].
  destruct (exceeds count BOOKING_RATE_LIMIT_MAX) eqn:Hrate; [done |].
  destruct (shows w !! show) as [sh |] eqn:Hsh; [| done].
  destruct (show_isActive sh) eqn:Hact; [| done]. cbn [negb].
  destruct (Movies.findById movie (movies w)) as [mv |] eqn:Hmv; [| done].
  destruct (movie_isActive mv) eqn:Hmact; [| done]. cbn [negb].
  destruct (collect_invalid now user show ss _) as [inv c3] eqn:Hinv.
  destruct inv as [| x inv]; [| done]. intros _. exists sh.
  repeat split; try done; try (intros ->; apply Hbody; auto).
  by exists mv.
Qed.

(** The lock handler and the seat map do not read the bookings. *)
Lemma lockSeats_ignores_bookings now user show ss w bs :
  (ShowRoutes.lockSeats now user show ss (with_bookings bs w)).1
    = (ShowRoutes.lockSeats now user show ss w).1.
Proof.
  unfold ShowRoutes.lockSeats, with_bookings. simpl. repeat case_match; done.
Qed.

Lemma getSeats_ignores_bookings now req_user show w bs :
  (ShowRoutes.getSeats now req_user show (with_bookings bs w)).1
    = (ShowRoutes.getSeats now req_user show w).1.
Proof.
  unfold ShowRoutes.getSeats, with_bookings. simpl. repeat case_match; done.
Qed.

End OccupancyFacts.

Section Occupancy.
Import InMemory InMemoryFacts BookingRoutes CommitFacts OccupancyFacts.

(** C2 fails on the code: on the demo server, where u1 has booked A-1 and
    A-2 (booking confirmed, locks deleted by the booking handler), the lock
    request of u2 for A-1 is granted, and the seat map shows both seats
    unlocked. *)
Lemma booked_seat_is_lockable :
  bookings Demo.booked
    = [mkBooking "u1" "s1" "m1" ["A-1"; "A-2"] 500 CONFIRMED PENDING WEB None]
  ∧ (step Demo.booked (30, LockSeats "u2" "s1" ["A-1"])).1
    = Res 200 (LockedSeats ["A-1"] 300)
  ∧ (step Demo.booked (30, GetSeats None "s1")).1
    = Res 200 (SeatMap [mkSeatView "A-1" "A" 1 "REGULAR" false (Some false);
                        mkSeatView "A-2" "A" 2 "REGULAR" false (Some false)]).
Proof. by vm_compute. Qed.

End Occupancy.

(* ===================================================================== *)
(** ** The seatsLocked notification *)
(* ===================================================================== *)

Section Notification.
Import InMemory InMemoryFacts ShowRoutes LockFacts.

(** Whatever the per-seat check finds, a lock request that passes the gates
    publishes seatsLocked: the 409 answer comes with the event as well. *)
Lemma conflict_answer_emits now user show ss w :
  status (lockSeats now user show ss w).1 = 409 →
  emitted (lockSeats now user show ss w).2
    = emitted w ++ [("show:" +:+ show, seatsLocked show ss user)].
Proof.
  destruct (decide (ss = [])) as [-> | Hne]; [done |].
  rewrite lockSeats_eq; [| done]. cbn zeta.
  destruct (exceeds _ _); [done |].
  destruct (shows w !! show) as [sh |]; [| done].
  destruct (show_isActive sh); [| done]. unfold locking.
  by destruct (found_conflicts now user show ss (redis w)).
Qed.

(** C7 fails on the code: with A-1 locked by u1, the lock request of u2
    for A-1 at time 10 is answered 409 with the conflict A-1, and the event
    seatsLocked for seat A-1 and holder u2 is published to the show's room
    all the same. *)
Theorem seatsLocked_published_on_conflict :
  (step Demo.locked (10, LockSeats "u2" "s1" ["A-1"])).1 = Res 409 (Conflicts ["A-1"])
  ∧ emitted (step Demo.locked (10, LockSeats "u2" "s1" ["A-1"])).2
    = emitted Demo.locked ++ [("show:s1", seatsLocked "s1" ["A-1"] "u2")]
  ∧ store (redis (step Demo.locked (10, LockSeats "u2" "s1" ["A-1"])).2)
      !! getSeatKey "s1" "A-1"
    = Some (Entry (PLock "u1" 0) (Some 300000)).
Proof. by vm_compute. Qed.

End Notification.

(* ===================================================================== *)
(** ** The movie cache *)
(* ===================================================================== *)

Module CacheFacts.
Import InMemory InMemoryFacts.

(** A deleted key reads as absent at any later time. *)
Lemma read_after_del now' key c : peek now' key (tick now' (del key c)) = None.
Proof. apply peek_absent, tick_store_None. simpl. apply lookup_delete_eq. Qed.

Lemma get_absent now key c : store c !! key = None → get now key c = (None, c).
Proof. unfold get. by intros ->. Qed.

Lemma findById_new id m coll :
  Movies.findById id coll = None → movie_id m = id →
  Movies.findById id (coll ++ [m]) = Some m.
Proof.
  unfold Movies.findById. intros Hnone Hid. induction coll as [| x coll IH]; simpl in *.
  - by rewrite bool_decide_eq_true_2.
  - destruct (bool_decide (movie_id x = id)); [done |]. by apply IH.
Qed.

End CacheFacts.

Section Cache.
Import InMemory InMemoryFacts MovieRoutes CacheFacts.

(** C9.  A key that was deleted is read as absent, so the read-through that
    comes next runs its loader: the movie list read after the deletion of
    its key answers [fromCache: false] with the active movies of the
    collection, the movie detail read after the deletion of its key
    answers [fromCache: false] with the stored movie (or 404), whatever the
    cache held before; and after a movie is created (201), both reads
    return the collection's data, the new movie included. *)
Theorem invalidate_then_read_loads :
  (∀ now' key c, peek now' key (InMemory.tick now' (del key c)) = None)
  ∧ (∀ now' w,
       (getMovies now'
          (fire_timers now' (with_redis (del MOVIES_CACHE_KEY (redis w)) w))).1
         = Res 200 (Cached false (PMovies (Movies.find_active (movies w)))))
  ∧ (∀ now' id w,
       (getMovieById now' id
          (fire_timers now' (with_redis (del ("movies:" +:+ id) (redis w)) w))).1
         = match Movies.findById id (movies w) with
           | Some m => if movie_isActive m then Res 200 (Cached false (PMovie m))
                       else Res 404 (Message "Movie not found")
           | None => Res 404 (Message "Movie not found")
           end)
  ∧ (∀ now' newId ttl date rate w m,
       (postMovie newId ttl date rate w).1 = Res 201 (MovieCreated m) →
       let w1 := fire_timers now' (postMovie newId ttl date rate w).2 in
       m ∈ movies w1
       ∧ (getMovies now' w1).1
           = Res 200 (Cached false (PMovies (Movies.find_active (movies w1))))
       ∧ (getMovieById now' newId w1).1 = Res 200 (Cached false (PMovie m))).
Proof.
  split; [| split; [| split]].
  - intros. apply read_after_del.
  - intros now' w. unfold getMovies, fire_timers. cbn [redis with_redis].
    rewrite get_absent; [done |]. apply tick_store_None, lookup_delete_eq.
  - intros now' id w. unfold getMovieById, fire_timers. cbn [redis with_redis].
    rewrite get_absent; [| apply tick_store_None, lookup_delete_eq].
    cbn [cache_hit movies with_redis].
    destruct (Movies.findById id (movies w)) as [m |]; [| done].
    by destruct (movie_isActive m).
  - intros now' newId ttl date rate w m. unfold postMovie.
    case_bool_decide; [done |]. unfold Movies.create.
    case_bool_decide as Hfresh; [done |].
    destruct (Movies.rating_valid _); [| done]. cbn [fst snd].
    intros [= <-]. cbn zeta. split; [| split].
    + simpl. apply elem_of_app. right. apply list_elem_of_here.
    + unfold getMovies, fire_timers. cbn [redis with_redis].
      rewrite get_absent; [done |]. apply tick_store_None. simpl.
      rewrite lookup_delete. destruct (decide _); [done | apply lookup_delete_eq].
    + unfold getMovieById, fire_timers. cbn [redis with_redis].
      rewrite get_absent; [| apply tick_store_None, lookup_delete_eq].
      cbn [cache_hit movies with_movies with_redis].
      rewrite findById_new; [done | | done].
      destruct (Movies.findById newId (movies w)) eqn:E; [| done].
      exfalso. apply Hfresh. by eexists.
Qed.

(** C9 on the demo server: the list is cached at time 80, a movie is
    created, and the list read at time 90 is loaded from the collection. *)
Lemma invalidate_then_read_loads_witness :
  (getMovies 80 Demo.booked).1 = Res 200 (Cached false (PMovies [Demo.movie1]))
  ∧ (getMovies 85 (getMovies 80 Demo.booked).2).1
    = Res 200 (Cached true (PMovies [Demo.movie1]))
  ∧ (getMovies 90
       (fire_timers 90
          (postMovie "m2" "Tenet" None None (getMovies 80 Demo.booked).2).2)).1
    = Res 200 (Cached false
        (PMovies (Movies.find_active
           (movies (fire_timers 90
              (postMovie "m2" "Tenet" None None (getMovies 80 Demo.booked).2).2))))).
Proof.
  split; [by vm_compute |]. split; [by vm_compute |].
  refine (proj1 (proj2 (proj2 (proj2 (proj2 invalidate_then_read_loads))
    90 "m2" "Tenet" None None (getMovies 80 Demo.booked).2
    (mkMovie "m2" "Tenet" None None true) _))).
  by vm_compute.
Defined.

End Cache.

(* ===================================================================== *)
(** ** The scenarios of the specification, run on the demo server *)
(* ===================================================================== *)

Section Scenarios.
Import InMemory ShowRoutes.

(** u1 is granted both seats; u2 is refused A-1 within the TTL. *)
Example scenario_lock_then_conflict :
  (run Demo.start [(0, LockSeats "u1" "s1" ["A-1"; "A-2"]);
                   (10, LockSeats "u2" "s1" ["A-1"])]).1
  = [Res 200 (LockedSeats ["A-1"; "A-2"] 300); Res 409 (Conflicts ["A-1"])].
Proof. by vm_compute. Qed.

(** The lock is still there one millisecond before the TTL has elapsed, and
    gone once it has: the seat can then be locked by another user. *)
Example scenario_lock_expires :
  (step Demo.locked (299999, LockSeats "u2" "s1" ["A-1"])).1
    = Res 409 (Conflicts ["A-1"])
  ∧ (step Demo.locked (300000, LockSeats "u2" "s1" ["A-1"])).1
    = Res 200 (LockedSeats ["A-1"] 300)
  ∧ store (redis (fire_timers 300000 Demo.locked)) !! getSeatKey "s1" "A-1" = None.
Proof. by vm_compute. Qed.

(** u1 books the seats it holds: 201, the locks are released and the
    booking is confirmed and pending payment. *)
Example scenario_booking :
  (step Demo.locked (20, CreateBooking "u1" "s1" "m1" ["A-1"; "A-2"])).1
    = Res 201 (BookingCreated 0
        (mkBooking "u1" "s1" "m1" ["A-1"; "A-2"] 500 CONFIRMED PENDING WEB None))
  ∧ store (redis Demo.booked) !! getSeatKey "s1" "A-1" = None
  ∧ store (redis Demo.booked) !! getSeatKey "s1" "A-2" = None
  ∧ emitted Demo.booked
    = [("show:s1", seatsLocked "s1" ["A-1"; "A-2"] "u1");
       ("show:s1", seatsBooked "s1" ["A-1"; "A-2"])].
Proof. by vm_compute. Qed.

(** A booking request for seats the user has not locked is refused with
    the seats. *)
Example scenario_booking_without_lock :
  (step Demo.locked (20, CreateBooking "u2" "s1" "m1" ["A-1"])).1
  = Res 409 (InvalidSeats ["A-1"]).
Proof. by vm_compute. Qed.

(** A second settlement with SUCCESS is refused. *)
Example scenario_settle_twice :
  (run Demo.booked [(60, MockPayment "u1" (Some 0%nat) "SUCCESS" None None);
                    (70, MockPayment "u1" (Some 0%nat) "SUCCESS" None None)]).1
  = [Res 201 (PaymentProcessed
        (mkPayment 0 "u1" 500 "CARD" "MOCK-60" SUCCESS None (Some 60))
        (mkBooking "u1" "s1" "m1" ["A-1"; "A-2"] 500 CONFIRMED SUCCESS WEB None));
     Res 400 (Message "Booking already paid")].
Proof. by vm_compute. Qed.

End Scenarios.

(* ===================================================================== *)
(** ** More on the key store *)
(* ===================================================================== *)

Module StringFacts.
Import InMemory.

Lemma includes_star_app a b :
  includes_star (a +:+ b) = includes_star a || includes_star b.
Proof.
  induction a as [| x a IH]; [done |]. simpl. by destruct (Ascii.eqb x "*").
Qed.

Lemma before_star_app a b :
  includes_star a = false → before_star (a +:+ b) = a +:+ before_star b.
Proof.
  induction a as [| x a IH]; [done |]. simpl.
  destruct (Ascii.eqb x "*"); [done |]. intros H. by rewrite IH.
Qed.

Lemma startsWith_app p r : startsWith (p +:+ r) p = true.
Proof.
  induction p as [| x p IH]; [by destruct r |]. simpl.
  by rewrite Ascii.eqb_refl, IH.
Qed.

Lemma startsWith_inv k p : startsWith k p = true → ∃ r, k = p +:+ r.
Proof.
  revert k. induction p as [| x p IH]; intros k H; [by exists k |].
  apply InMemoryFacts.startsWith_cons in H as (k' & -> & H).
  destruct (IH k' H) as [r ->]. by exists r.
Qed.

Lemma app_empty_r (p : string) : p +:+ "" = p.
Proof.
  induction p as [| x p IH]; [done |].
  change (String x (p +:+ "") = String x p). by rewrite IH.
Qed.

Lemma app_inj_l (p a b : string) : p +:+ a = p +:+ b → a = b.
Proof. induction p as [| x p IH]; [done |]. simpl. intros [= H]. by apply IH. Qed.

(** The keys that a pattern made of a star-free prefix and a final star
    selects. *)
Lemma keys_prefix_spec p c :
  includes_star p = false →
  (∀ k, k ∈ keys (p +:+ "*") c ↔ is_Some (store c !! k) ∧ ∃ r, k = p +:+ r)
  ∧ NoDup (keys (p +:+ "*") c).
Proof.
  intros Hp. unfold keys.
  rewrite includes_star_app, Hp. cbn [orb includes_star].
  rewrite before_star_app; [| done]. cbn [before_star].
  change (if Ascii.eqb "*" "*" then true else false) with true. cbn iota.
  change (if Ascii.eqb "*" "*" then "" else String "*" "") with "".
  rewrite app_empty_r.
  split.
  - intros k. rewrite list_elem_of_filter. split.
    + intros [Hpre Hin]. split; [| by apply startsWith_inv].
      apply list_elem_of_fmap in Hin as ([k' sl] & -> & Hin).
      apply elem_of_map_to_list in Hin. simpl. by eexists.
    + intros [[sl Hsl] [r ->]]. split; [apply startsWith_app |].
      apply list_elem_of_fmap. exists (p +:+ r, sl). split; [done |].
      by apply elem_of_map_to_list.
  - apply NoDup_filter, NoDup_fst_map_to_list.
Qed.

End StringFacts.

Section KeyStore.
Import InMemory InMemoryFacts Frame StringFacts.

(** X1.  A value stored with a positive TTL of at most 2147483 seconds
    (a delay that [setTimeout] takes as it is) is what a read returns at
    any time before the TTL has elapsed, and from the moment it has elapsed
    the key reads as absent (its timer has deleted it).  With a longer TTL
    the timer is armed with a delay of one millisecond, and the key reads
    as absent from one millisecond after the [set]. *)
Theorem set_get_until_expiry now key v (ttl : Z) c :
  ttl > 0 →
  (ttl * 1000 ≤ 2147483647 →
     (∀ t, t < now + ttl * 1000 → peek t key (tick t (set now key v ttl c)) = Some v)
     ∧ (∀ t, now + ttl * 1000 ≤ t → peek t key (tick t (set now key v ttl c)) = None))
  ∧ (2147483647 < ttl * 1000 →
     (∀ t, t < now + 1 → peek t key (tick t (set now key v ttl c)) = Some v)
     ∧ (∀ t, now + 1 ≤ t → peek t key (tick t (set now key v ttl c)) = None)).
Proof.
  intros Httl.
  assert (ttlTimers (set now key v ttl c) !! key
          = Some (now + timer_delay (ttl * 1000))) as Htimer.
  { rewrite timers_set; [| done]. by rewrite decide_True. }
  assert (∀ d, timer_delay (ttl * 1000) = d → d ≤ ttl * 1000 →
    (∀ t, t < now + d → peek t key (tick t (set now key v ttl c)) = Some v)
    ∧ (∀ t, now + d ≤ t → peek t key (tick t (set now key v ttl c)) = None)) as Hd.
  { intros d Hdelay Hle. rewrite Hdelay in Htimer. split; intros t Ht.
    - destruct (tick_same t key _ _ Htimer Ht) as [Hs _].
      unfold peek, get. rewrite Hs, store_set, decide_True; [| done].
      rewrite bool_decide_eq_false_2; [done | lia].
    - apply peek_absent. by apply (tick_due t key _ _ Htimer). }
  split; intros Hrange.
  - apply Hd; [apply timer_delay_id | ]; lia.
  - apply Hd; [by apply timer_delay_overflow | lia].
Qed.

Lemma set_get_until_expiry_witness :
  peek 59999 "movies:all" (tick 59999 (set 0 "movies:all" (PMovies []) 60 empty))
    = Some (PMovies [])
  ∧ peek 60000 "movies:all" (tick 60000 (set 0 "movies:all" (PMovies []) 60 empty))
    = None
  ∧ peek 1 "movies:all" (tick 1 (set 0 "movies:all" (PMovies []) 2147484 empty))
    = None.
Proof.
  destruct (set_get_until_expiry 0 "movies:all" (PMovies []) 60 empty) as [H1 _];
    [done |].
  destruct (set_get_until_expiry 0 "movies:all" (PMovies []) 2147484 empty)
    as [_ H2]; [done |].
  destruct H1 as [H1a H1b]; [done |]. destruct H2 as [_ H2]; [done |].
  split; [by apply H1a |]. split; [by apply H1b | by apply H2].
Defined.

(** X2.  [keys] on a pattern made of a prefix without star and a final
    star returns the stored keys that start with the prefix, each of them
    once (entries that are expired but not yet deleted included). *)
Theorem keys_of_prefix p c :
  includes_star p = false →
  (∀ k, k ∈ keys (p +:+ "*") c ↔ is_Some (store c !! k) ∧ ∃ r, k = p +:+ r)
  ∧ NoDup (keys (p +:+ "*") c).
Proof. apply keys_prefix_spec. Qed.

Lemma keys_of_prefix_witness :
  NoDup (keys ("seatlock:s1:" +:+ "*") (redis Demo.locked))
  ∧ getSeatKey "s1" "A-2" ∈ keys ("seatlock:s1:" +:+ "*") (redis Demo.locked).
Proof.
  destruct (keys_of_prefix "seatlock:s1:" (redis Demo.locked)) as [H1 H2]; [done |].
  split; [exact H2 |]. apply H1.
  split; [eexists; vm_compute; reflexivity | by exists "A-2"].
Defined.

End KeyStore.

(* ===================================================================== *)
(** ** More on the seat routes *)
(* ===================================================================== *)

Module SeatFacts.
Import InMemory InMemoryFacts ShowRoutes StringFacts.
Export SeatSpec.

Lemma string_length_app (a b : string) :
  String.length (a +:+ b) = (String.length a + String.length b)%nat.
Proof.
  induction a as [| x a IH]; [done |].
  change (S (String.length (a +:+ b)) = S (String.length a + String.length b)).
  by rewrite IH.
Qed.

Lemma after_colon_app_no a r :
  includes_colon a = false → after_colon (a +:+ String ":" r) = r.
Proof.
  induction a as [| x a IH]; [done |]. simpl.
  destruct (Ascii.eqb x ":"); [done |]. exact IH.
Qed.

Lemma after_colon_app_yes a r :
  includes_colon a = true → after_colon (a +:+ r) = after_colon a +:+ r.
Proof.
  induction a as [| x a IH]; [done |]. simpl.
  destruct (Ascii.eqb x ":"); [done |]. exact IH.
Qed.

Lemma seat_of_key_unfold show seat :
  seat_of_key (getSeatKey show seat) = after_colon (show +:+ String ":" seat).
Proof. reflexivity. Qed.

Lemma set_all_store now v ttl ks : ∀ c k,
  store (foldl (λ c k, set now k v ttl c) c ks) !! k =
    if decide (k ∈ ks) then Some (Entry v (Some (now + ttl * 1000)))
    else store c !! k.
Proof.
  induction ks as [| x ks IH]; intros c k; cbn [foldl].
  - destruct (decide (k ∈ [])) as [H | _]; [by apply not_elem_of_nil in H | done].
  - rewrite IH, store_set.
    destruct (decide (k ∈ ks)) as [Hin | Hnin].
    + rewrite decide_True; [done | by apply elem_of_cons; right].
    + destruct (decide (x = k)) as [-> | Hne].
      * rewrite decide_True; [done | apply list_elem_of_here].
      * rewrite decide_False; [done |]. intros [? | ?]%elem_of_cons; done.
Qed.

Lemma string_app_assoc (a b c : string) : (a +:+ b) +:+ c = a +:+ (b +:+ c).
Proof.
  induction a as [| x a IH]; [done |].
  change (String x ((a +:+ b) +:+ c) = String x (a +:+ (b +:+ c))). by rewrite IH.
Qed.

Lemma lock_prefix_key show seat : getSeatKey show seat = lock_prefix show +:+ seat.
Proof.
  unfold getSeatKey, lock_prefix.
  change (String "s" (String "e" (String "a" (String "t" (String "l" (String "o"
            (String "c" (String "k" (String ":" (show +:+ ":" +:+ seat)))))))))
          = String "s" (String "e" (String "a" (String "t" (String "l" (String "o"
            (String "c" (String "k" (String ":" ((show +:+ ":") +:+ seat)))))))))).
  by rewrite string_app_assoc.
Qed.

Lemma lock_prefix_no_star show :
  includes_star show = false → includes_star (lock_prefix show) = false.
Proof.
  intros H. unfold lock_prefix.
  change (includes_star (show +:+ ":") = false).
  by rewrite includes_star_app, H.
Qed.

(** What [lockedMap] holds for a seat, when at most one of the keys reads
    back as that seat. *)
Lemma locked_map_lookup now sid key0 c0 ks : ∀ c,
  purged now c0 c →
  seat_of_key key0 = sid →
  (∀ k, k ∈ ks → seat_of_key k = sid → k = key0) →
  (locked_map now ks c).1 !! sid =
    if decide (key0 ∈ ks) then
      match peek now key0 c0 with
      | Some p =>
          if truthy p then match p with PBad _ => None | _ => Some p end else None
      | None => None
      end
    else None.
Proof.
  induction ks as [| k rest IH]; intros c Hp Hkey0 Huniq.
  { simpl. rewrite lookup_empty.
    destruct (decide (key0 ∈ [])) as [H | _]; [by apply not_elem_of_nil in H | done]. }
  cbn [locked_map].
  pose proof (get_purged now k c) as Hp1.
  assert ((get now k c).1 = peek now k c0) as Hval
    by (apply (purged_peek now c0 c k Hp)).
  destruct (get now k c) as [val c1]. cbn [fst snd] in *.
  assert (purged now c0 c1) as Hp01 by (by eapply purged_trans).
  specialize (IH c1 Hp01 Hkey0
    (λ k' Hk' Hs, Huniq k' (proj2 (elem_of_cons rest k' k) (or_intror Hk')) Hs)).
  destruct (locked_map now rest c1) as [m c2]. cbn [fst snd] in *.
  destruct (decide (k = key0)) as [-> | Hne].
  - rewrite decide_True; [| apply list_elem_of_here]. rewrite <- Hval. rewrite Hkey0.
    assert (m !! sid = None ∨ m !! sid =
              match val with
              | Some p => if truthy p
                          then match p with PBad _ => None | _ => Some p end else None
              | None => None
              end) as Hm.
    { rewrite IH. destruct (decide (key0 ∈ rest)); [right; by rewrite Hval | by left]. }
    destruct val as [p |]; [| by destruct Hm].
    destruct (truthy p); [| by destruct Hm].
    destruct p; try (by destruct Hm);
      (case_bool_decide as Hsome;
       [ destruct Hm as [Hm | Hm]; [rewrite Hm in Hsome; by destruct Hsome | done]
       | by apply lookup_insert_eq ]).
  - assert (seat_of_key k ≠ sid) as Hsk.
    { intros Hs. apply Hne, Huniq; [apply list_elem_of_here | done]. }
    assert ((if decide (key0 ∈ k :: rest) then
               match peek now key0 c0 with
               | Some p => if truthy p
                           then match p with PBad _ => None | _ => Some p end else None
               | None => None
               end else None) = m !! sid) as ->.
    { rewrite IH. destruct (decide (key0 ∈ rest)) as [Hin | Hnin].
      - rewrite decide_True; [done | by apply elem_of_cons; right].
      - rewrite decide_False; [done |]. intros [? | ?]%elem_of_cons; done. }
    destruct val as [p |]; [| done]. destruct (truthy p); [| done].
    destruct p; try done; (case_bool_decide; [done | by rewrite lookup_insert_ne]).
Qed.

(** Reading the seat back from the key made for it. *)
Lemma seat_of_getSeatKey show seat :
  seat_of_key (getSeatKey show seat) = seat ↔ includes_colon show = false.
Proof.
  rewrite seat_of_key_unfold. split.
  - intros H. destruct (includes_colon show) eqn:E; [| done]. exfalso.
    rewrite after_colon_app_yes in H; [| done].
    apply (f_equal String.length) in H. rewrite string_length_app in H.
    simpl in H. lia.
  - intros H. by apply after_colon_app_no.
Qed.

End SeatFacts.

Section SeatRoutes.
Import InMemory InMemoryFacts ShowRoutes StringFacts SeatFacts.

(** X3.  The seat that the seat map and the lock handler read back from a
    lock key with [key.split(':').slice(2).join(':')] is the seat the key
    was made for exactly when the show id holds no colon; the seat itself
    may hold colons. *)
Theorem seat_of_key_round_trip show seat :
  seat_of_key (getSeatKey show seat) = seat ↔ includes_colon show = false.
Proof. apply seat_of_getSeatKey. Qed.

Lemma seat_of_key_round_trip_witness :
  seat_of_key (getSeatKey "65f1c0ffee" "A:1") = "A:1".
Proof. by apply seat_of_key_round_trip. Defined.

(** X4.  The Lua script of the lock handler is all-or-nothing: when some
    of its keys exist it returns exactly those keys, in the order given,
    and writes nothing, whoever holds them; when none exists it returns no
    conflict, leaves every key it was given set to the payload with the
    TTL, and leaves the other keys alone. *)
Theorem lua_lock_all_or_nothing now ks v (ttl : Z) c :
  (existing_keys now ks c ≠ [] →
     lua_lock now ks v ttl c = (existing_keys now ks c, c))
  ∧ (existing_keys now ks c = [] →
     (lua_lock now ks v ttl c).1 = []
     ∧ ∀ k, store (lua_lock now ks v ttl c).2 !! k =
            if decide (k ∈ ks) then Some (Entry v (Some (now + ttl * 1000)))
            else store c !! k).
Proof.
  unfold lua_lock, existing_keys. split.
  - by destruct (filter _ ks).
  - intros ->. split; [done |]. intros k. apply set_all_store.
Qed.

Lemma lua_lock_all_or_nothing_witness :
  lua_lock 10 [getSeatKey "s1" "A-1"; getSeatKey "s1" "B-7"] (PLock "u1" 10) 300
    (redis Demo.locked)
  = ([getSeatKey "s1" "A-1"], redis Demo.locked).
Proof.
  destruct (lua_lock_all_or_nothing 10 [getSeatKey "s1" "A-1"; getSeatKey "s1" "B-7"]
              (PLock "u1" 10) 300 (redis Demo.locked)) as [H _].
  rewrite H; [| by vm_compute]. f_equal.
Defined.

(** X5.  The demo layout generated for a show without a seat layout has
    five rows of equal size: 50 seats when [totalSeats] is 0, and otherwise
    five times the smaller of a fifth of [totalSeats] (rounded down) and 12,
    so at most 60 seats and never more than a positive [totalSeats]. *)
Theorem demo_layout_size sh :
  seatLayout sh = [] →
  (totalSeats sh = 0 → List.length (base_seats sh) = 50%nat)
  ∧ (totalSeats sh ≠ 0 →
     Z.of_nat (List.length (base_seats sh))
       = 5 * Z.max 0 (Z.min (totalSeats sh / 5) 12))
  ∧ (List.length (base_seats sh) ≤ 60)%nat
  ∧ (0 < totalSeats sh → Z.of_nat (List.length (base_seats sh)) ≤ totalSeats sh).
Proof.
  intros Hlayout. unfold base_seats. rewrite Hlayout.
  set (perRow := if bool_decide (totalSeats sh = 0) then 10
                 else Z.min (totalSeats sh / 5) 12).
  assert (∀ n, List.length
            (r ← ["A"; "B"; "C"; "D"; "E"];
             (λ n0 : nat, (r +:+ "-" +:+ pretty (Z.of_nat n0), r, Z.of_nat n0, "REGULAR"))
               <$> seq 1 n) = (5 * n)%nat) as Hlen.
  { intros n. cbn [mbind list_bind]. rewrite !length_app, !length_fmap, !length_seq.
    simpl. lia. }
  rewrite Hlen. subst perRow. case_bool_decide as H0.
  - repeat split; try done; lia.
  - pose proof (Z.div_mod (totalSeats sh) 5 ltac:(done)) as Hdm.
    pose proof (Z.mod_pos_bound (totalSeats sh) 5 ltac:(done)) as Hmod.
    repeat split; try done; lia.
Qed.

Lemma demo_layout_size_witness :
  Z.of_nat (List.length
    (base_seats (mkShow "m1" "INOX" "Delhi" 100 [] 300 true))) = 60.
Proof.
  destruct (demo_layout_size (mkShow "m1" "INOX" "Delhi" 100 [] 300 true))
    as (_ & H & _); [done |].
  rewrite H; [done | done].
Defined.

(** X6.  For an active show whose id holds neither a colon nor a star
    and whose layout numbers are integers that JavaScript renders in
    decimal digits (at most 2^53 - 1 in absolute value), the seat map lists
    the seats of the layout in order and marks a seat locked exactly when
    its lock key reads as a truthy string that parses (an unexpired lock).
    [lockedByUser] is false for a seat that is not locked; for a locked
    seat it is null when the request carries no user (no middleware sets
    one on this route) and otherwise tells whether the user is the
    holder. *)
Theorem seat_map_shows_locks now req_user show w sh :
  shows w !! show = Some sh → show_isActive sh = true →
  includes_colon show = false → includes_star show = false →
  Forall (λ s, Z.abs (number s) ≤ 9007199254740991) (seatLayout sh) →
  (getSeats now req_user show w).1
    = Res 200 (SeatMap (seat_view now (redis w) req_user show <$> base_seats sh))
  ∧ ∀ s, s ∈ base_seats sh →
      isLocked (seat_view now (redis w) req_user show s)
        = bool_decide (is_Some (visible_lock now (redis w) show s.1.1.1))
      ∧ lockedByUser (seat_view now (redis w) req_user show s)
        = match visible_lock now (redis w) show s.1.1.1 with
          | None => Some false
          | Some p =>
              match req_user with
              | None | Some "" => None
              | Some u => Some (bool_decide (holder_of p = Some u))
              end
          end.
Proof.
  intros Hshow Hact Hcolon Hstar _. split.
  2: { intros [[[sid r] n] t] _. cbn [seat_view isLocked lockedByUser fst].
       split; [done |]. unfold locked_by_user, user_or_null.
       destruct (visible_lock now (redis w) show sid) as [p |]; [| done].
       destruct req_user as [u |]; [| done].
       case_bool_decide as Hu; [by subst u |]. by destruct u. }
  unfold getSeats. rewrite Hshow, Hact.
  set (ks := keys _ (redis w)).
  assert (∀ sid, (locked_map now ks (redis w)).1 !! sid
                 = visible_lock now (redis w) show sid) as Hmap.
  { intros sid. subst ks.
    replace ("seatlock:" +:+ show +:+ ":" +:+ "*") with (lock_prefix show +:+ "*")
      by (symmetry; apply (lock_prefix_key show "*")).
    destruct (keys_prefix_spec (lock_prefix show) (redis w)
                (lock_prefix_no_star show Hstar)) as [Hkeys _].
    rewrite (locked_map_lookup now sid (getSeatKey show sid) (redis w)).
    - unfold visible_lock. destruct (decide _) as [Hin | Hnin]; [done |].
      rewrite peek_absent; [done |].
      destruct (store (redis w) !! getSeatKey show sid) eqn:E; [| done].
      exfalso. apply Hnin, Hkeys. split; [by eexists |].
      exists sid. apply lock_prefix_key.
    - apply purged_refl.
    - by apply seat_of_getSeatKey.
    - intros k Hk Hs. apply Hkeys in Hk as [_ [r ->]].
      rewrite <- lock_prefix_key in *.
      apply seat_of_getSeatKey with (seat := r) in Hcolon. congruence. }
  destruct (locked_map now ks (redis w)) as [m c1]. cbn [fst snd] in *.
  do 2 f_equal. apply list_fmap_ext. intros i [[[sid r] n] t] _.
  unfold seat_view. by rewrite Hmap.
Qed.

(** On the demo server with both seats locked by [u1]: the seat map as
    [u1] would see it, and as the route answers it, without a user. *)
Lemma seat_map_shows_locks_witness :
  (getSeats 10 (Some "u1") "s1" (fire_timers 10 Demo.locked)).1
    = Res 200 (SeatMap [mkSeatView "A-1" "A" 1 "REGULAR" true (Some true);
                        mkSeatView "A-2" "A" 2 "REGULAR" true (Some true)])
  ∧ (getSeats 10 None "s1" (fire_timers 10 Demo.locked)).1
    = Res 200 (SeatMap [mkSeatView "A-1" "A" 1 "REGULAR" true None;
                        mkSeatView "A-2" "A" 2 "REGULAR" true None]).
Proof.
  assert (Forall (λ s, Z.abs (number s) ≤ 9007199254740991) (seatLayout Demo.show1))
    as Hnum by (repeat constructor; simpl; lia).
  split.
  - rewrite (proj1 (seat_map_shows_locks 10 (Some "u1") "s1" (fire_timers 10 Demo.locked)
               Demo.show1 eq_refl eq_refl eq_refl eq_refl Hnum)).
    vm_compute; reflexivity.
  - rewrite (proj1 (seat_map_shows_locks 10 None "s1" (fire_timers 10 Demo.locked)
               Demo.show1 eq_refl eq_refl eq_refl eq_refl Hnum)).
    vm_compute; reflexivity.
Defined.

End SeatRoutes.

(* ===================================================================== *)
(** ** More on the bookings router *)
(* ===================================================================== *)

Module BookingFacts.
Import InMemory InMemoryFacts BookingRoutes CommitFacts OccupancyFacts IndexFacts.
Export BookingSpec.

Lemma seat_key_ne_booking_rate show seat user : getSeatKey show seat ≠ rateKey user.
Proof. unfold getSeatKey, rateKey. simpl. discriminate. Qed.

(** The lock validation accepts a seat when its key reads as a lock of the
    requesting user. *)
Lemma seat_invalid_false user raw :
  seat_invalid user raw = false
  ↔ ∃ p, raw = Some p ∧ truthy p = true ∧ holder_of p = Some user.
Proof.
  unfold seat_invalid. split.
  - destruct raw as [p |]; [| done]. destruct (truthy p) eqn:Ht; [| done].
    destruct (holder_of p) as [h |] eqn:Hh; [| done].
    intros H. apply bool_decide_eq_false in H. exists p. repeat split; try done.
    destruct (decide (h = user)) as [-> | Hne]; [done | by destruct H].
  - intros (p & -> & -> & ->). apply bool_decide_eq_false. by intros H.
Qed.

Lemma collect_invalid_spec now user show ss c :
  (collect_invalid now user show ss c).1 = not_held now user show ss c
  ∧ purged now c (collect_invalid now user show ss c).2.
Proof.
  revert c. induction ss as [| seat rest IH]; intros c; simpl.
  - split; [done | apply purged_refl].
  - pose proof (get_purged now (getSeatKey show seat) c) as Hp.
    destruct (get now (getSeatKey show seat) c) as [raw c1] eqn:Hget.
    specialize (IH c1). destruct (collect_invalid now user show rest c1) as [cs c2].
    simpl in *. destruct IH as [-> Hp2]. split.
    + unfold not_held.
      assert (raw = peek now (getSeatKey show seat) c) as ->
        by (unfold peek; by rewrite Hget).
      assert (filter (λ seat0, seat_invalid user
                 (peek now (getSeatKey show seat0) c1) = true) rest
              = filter (λ seat0, seat_invalid user
                 (peek now (getSeatKey show seat0) c) = true) rest) as ->.
      { apply list_filter_iff. intros x. by rewrite (purged_peek now c c1). }
      destruct (seat_invalid user (peek now (getSeatKey show seat) c)) eqn:E.
      * by rewrite filter_cons_True.
      * rewrite filter_cons_False; [done |]. by rewrite E.
    + by apply (purged_trans now c c1 c2).
Qed.

(** The seats refused at the lock validation, read on the store of the
    request. *)
Lemma at_gate_not_held now user show ss c :
  (collect_invalid now user show ss
     (LockSpec.after_gate now (rateKey user) BOOKING_RATE_LIMIT_TTL c)).1
  = not_held now user show ss c.
Proof.
  rewrite (proj1 (collect_invalid_spec _ _ _ _ _)). unfold not_held.
  apply list_filter_iff. intros x.
  rewrite LockFacts.after_gate_peek; [done | apply seat_key_ne_booking_rate].
Qed.

(** The handler answers 201 or changes the key store at most. *)
Lemma createBooking_shape now user show movie ss w :
  status (createBooking now user show movie ss w).1 = 201
  ∨ ∃ c, (createBooking now user show movie ss w).2 = with_redis c w.
Proof.
  unfold createBooking.
  case_bool_decide; [right; by exists (redis w); destruct w |].
  destruct (incr (rateKey user) (redis w)) as [count c1].
  destruct (exceeds count BOOKING_RATE_LIMIT_MAX); [right; by eexists |].
  destruct (shows w !! show) as [sh |]; [| right; by eexists].
  destruct (negb (show_isActive sh)); [right; by eexists |].
  destruct (Movies.findById movie (movies w)) as [mv |]; [| right; by eexists].
  destruct (negb (movie_isActive mv)); [right; by eexists |].
  destruct (collect_invalid now user show ss _) as [inv c3].
  destruct inv; [| right; by eexists].
  destruct (Bookings.create _ _) as [[id coll] |]; [by left | right; by eexists].
Qed.

(** An answer other than 201 leaves bookings, payments and events alone. *)
Lemma createBooking_refused now user show movie ss w :
  status (createBooking now user show movie ss w).1 ≠ 201 →
  bookings (createBooking now user show movie ss w).2 = bookings w
  ∧ payments (createBooking now user show movie ss w).2 = payments w
  ∧ emitted (createBooking now user show movie ss w).2 = emitted w
  ∧ movies (createBooking now user show movie ss w).2 = movies w.
Proof.
  intros H. destruct (createBooking_shape now user show movie ss w) as [? | [c ->]];
    done.
Qed.

(** A booking for a seat of a non-cancelled booking of the show shares an
    index key with it. *)
Lemma overlap_is_duplicate user show movie ss sh coll e s :
  e ∈ coll → bookingStatus e ≠ CANCELLED → showId e = show →
  s ∈ seats e → s ∈ ss →
  Bookings.duplicate_key (new_booking user show movie ss sh) coll = true.
Proof.
  intros He Hst Hshow Hse Hss.
  apply (duplicate_key_true _ coll e (show, Some s)); [done | |].
  - by apply (seat_index_key (new_booking user show movie ss sh)).
  - rewrite <- Hshow. by apply seat_index_key.
Qed.

(** ... and is refused, whatever locks the requester holds. *)
Lemma overlap_refused now user show movie ss w e s :
  e ∈ bookings w → bookingStatus e ≠ CANCELLED → showId e = show →
  s ∈ seats e → s ∈ ss →
  status (createBooking now user show movie ss w).1 ≠ 201
  ∧ bookings (createBooking now user show movie ss w).2 = bookings w.
Proof.
  intros He Hst Hshow Hse Hss.
  assert (status (createBooking now user show movie ss w).1 ≠ 201) as Hne.
  { intros H201. destruct (createBooking_201_inv _ _ _ _ _ _ H201) as [sh Hreach].
    rewrite (createBooking_insert now user show movie ss w sh Hreach) in H201.
    unfold Bookings.create in H201.
    rewrite (overlap_is_duplicate user show movie ss sh (bookings w) e s) in H201
      by done.
    cbn [fst] in H201. by rewrite duplicate_answer_booked in H201. }
  split; [done |]. by destruct (createBooking_refused now user show movie ss w Hne).
Qed.

End BookingFacts.

Section BookingHandlers.
Import InMemory InMemoryFacts Frame BookingRoutes CommitFacts OccupancyFacts
  IndexFacts BookingFacts.

(** X7.  A booking is created only for seats that the requester holds: a
    201 means that the key of every requested seat read as a lock of the
    requesting user; and a request that passes the body, rate-limit, show
    and movie checks with some seat not so held is answered 409 with
    exactly those seats, and stores no booking and publishes no event. *)
Theorem booking_needs_own_locks now user show movie ss w :
  (status (createBooking now user show movie ss w).1 = 201 →
     ∀ seat, seat ∈ ss →
       ∃ p, peek now (getSeatKey show seat) (redis w) = Some p
            ∧ truthy p = true ∧ holder_of p = Some user)
  ∧ (show ≠ "" → movie ≠ "" →
     exceeds (incr (rateKey user) (redis w)).1 BOOKING_RATE_LIMIT_MAX = false →
     (∃ sh, shows w !! show = Some sh ∧ show_isActive sh = true) →
     (∃ mv, Movies.findById movie (movies w) = Some mv ∧ movie_isActive mv = true) →
     not_held now user show ss (redis w) ≠ [] →
     (createBooking now user show movie ss w).1
       = Res 409 (InvalidSeats (not_held now user show ss (redis w)))
     ∧ bookings (createBooking now user show movie ss w).2 = bookings w
     ∧ emitted (createBooking now user show movie ss w).2 = emitted w).
Proof.
  split.
  - intros H201 seat Hseat.
    destruct (createBooking_201_inv _ _ _ _ _ _ H201) as [sh Hreach].
    destruct Hreach as (_ & _ & _ & _ & _ & _ & _ & Hinv).
    rewrite at_gate_not_held in Hinv. apply seat_invalid_false.
    destruct (seat_invalid user (peek now (getSeatKey show seat) (redis w))) eqn:E;
      [| done].
    exfalso. by apply (filter_nil_not_elem_of _ _ seat Hinv).
  - intros Hshow Hmovie Hrate (sh & Hsh & Hact) (mv & Hmv & Hmact) Hnot.
    pose proof (at_gate_not_held now user show ss (redis w)) as Hgate.
    assert (ss ≠ []) as Hss by (intros ->; by apply Hnot).
    unfold createBooking, LockSpec.after_gate in *.
    rewrite bool_decide_eq_false_2; [| by intros [? | [? | ?]]].
    destruct (incr (rateKey user) (redis w)) as [count c1] eqn:Hincr.
    cbn [fst snd] in *. rewrite Hrate, Hsh, Hact, Hmv, Hmact. cbn [negb].
    destruct (collect_invalid now user show ss _) as [inv c3].
    cbn [fst snd] in *. subst inv.
    by destruct (not_held now user show ss (redis w)).
Qed.

Lemma booking_needs_own_locks_witness :
  (createBooking 20 "u2" "s1" "m1" ["A-1"; "B-9"] (fire_timers 20 Demo.locked)).1
    = Res 409 (InvalidSeats ["A-1"; "B-9"]).
Proof.
  assert (not_held 20 "u2" "s1" ["A-1"; "B-9"] (redis (fire_timers 20 Demo.locked))
          = ["A-1"; "B-9"]) as Hnot by (vm_compute; reflexivity).
  destruct (proj2 (booking_needs_own_locks 20 "u2" "s1" "m1" ["A-1"; "B-9"]
                     (fire_timers 20 Demo.locked))) as (H & _).
  - discriminate.
  - discriminate.
  - vm_compute; reflexivity.
  - exists Demo.show1. split; vm_compute; reflexivity.
  - exists Demo.movie1. split; vm_compute; reflexivity.
  - rewrite Hnot. discriminate.
  - rewrite H, Hnot. reflexivity.
Defined.

(** X8.  For a show whose base price times the number of requested seats
    is at most 2^53 - 1 in absolute value (the handler multiplies
    JavaScript numbers, and such a product is exact): the booking handler
    stores a booking and publishes seatsBooked exactly when it answers 201.
    On a 201 the new booking is the last document of the collection,
    CONFIRMED and PENDING, for the requester and the requested seats, with
    the show's base price times the number of requested seats as amount;
    the lock keys of its seats are deleted and one seatsBooked event is
    published.  On any other answer the bookings, payments and events are
    as before. *)
Theorem booking_created_iff_201 now user show movie ss w :
  (∀ sh, shows w !! show = Some sh →
     Z.abs (basePrice sh * Z.of_nat (List.length ss)) ≤ 9007199254740991) →
  (status (createBooking now user show movie ss w).1 = 201 →
     ∃ sh, shows w !! show = Some sh
       ∧ (createBooking now user show movie ss w).1
           = Res 201 (BookingCreated (List.length (bookings w))
                        (mkBooking user show movie ss
                           (basePrice sh * Z.of_nat (List.length ss))
                           CONFIRMED PENDING WEB None))
       ∧ bookings (createBooking now user show movie ss w).2
           = bookings w ++ [mkBooking user show movie ss
                              (basePrice sh * Z.of_nat (List.length ss))
                              CONFIRMED PENDING WEB None]
       ∧ emitted (createBooking now user show movie ss w).2
           = emitted w ++ [("show:" +:+ show, seatsBooked show ss)]
       ∧ payments (createBooking now user show movie ss w).2 = payments w
       ∧ ∀ seat, seat ∈ ss →
           store (redis (createBooking now user show movie ss w).2)
             !! getSeatKey show seat = None)
  ∧ (status (createBooking now user show movie ss w).1 ≠ 201 →
     bookings (createBooking now user show movie ss w).2 = bookings w
     ∧ payments (createBooking now user show movie ss w).2 = payments w
     ∧ emitted (createBooking now user show movie ss w).2 = emitted w).
Proof.
  intros _. split.
  - intros H201. destruct (createBooking_201_inv _ _ _ _ _ _ H201) as [sh Hreach].
    pose proof Hreach as (_ & _ & _ & _ & Hsh & _).
    rewrite (createBooking_insert now user show movie ss w sh Hreach) in *.
    exists sh. split; [done |]. unfold Bookings.create in *.
    destruct (Bookings.duplicate_key _ _);
      [by rewrite duplicate_answer_booked in H201 |].
    cbn [fst snd]. repeat split; try done.
    intros seat Hseat. simpl. rewrite clear_locks_store.
    rewrite decide_True; [done | by apply list_elem_of_fmap_2].
  - intros H. by destruct (createBooking_refused now user show movie ss w H)
      as (? & ? & ? & _).
Qed.

Lemma booking_created_iff_201_witness :
  bookings (createBooking 20 "u1" "s1" "m1" ["A-1"; "A-2"] (fire_timers 20 Demo.locked)).2
    = bookings (fire_timers 20 Demo.locked)
      ++ [mkBooking "u1" "s1" "m1" ["A-1"; "A-2"] 500 CONFIRMED PENDING WEB None].
Proof.
  assert (shows (fire_timers 20 Demo.locked) !! "s1" = Some Demo.show1) as Hs1
    by (vm_compute; reflexivity).
  assert (∀ sh, shows (fire_timers 20 Demo.locked) !! "s1" = Some sh →
            Z.abs (basePrice sh * Z.of_nat (List.length ["A-1"; "A-2"]))
              ≤ 9007199254740991) as Hmax.
  { intros sh Hsh. rewrite Hs1 in Hsh. injection Hsh as <-. simpl. lia. }
  destruct (proj1 (booking_created_iff_201 20 "u1" "s1" "m1" ["A-1"; "A-2"]
                     (fire_timers 20 Demo.locked) Hmax))
    as (sh & Hsh & _ & Hb & _); [vm_compute; reflexivity |].
  rewrite Hs1 in Hsh. injection Hsh as <-. rewrite Hb. reflexivity.
Defined.

(** X9.  A booking request that names a seat of a non-cancelled booking of
    the same show is never answered 201 and never changes the bookings,
    whatever locks the requester holds. *)
Theorem booked_seat_is_never_rebooked now user show movie ss w e s :
  e ∈ bookings w → bookingStatus e ≠ CANCELLED → showId e = show →
  s ∈ seats e → s ∈ ss →
  status (createBooking now user show movie ss w).1 ≠ 201
  ∧ bookings (createBooking now user show movie ss w).2 = bookings w.
Proof. apply overlap_refused. Qed.

Lemma booked_seat_is_never_rebooked_witness :
  status (createBooking 40 "u2" "s1" "m1" ["A-1"] (fire_timers 40 Demo.relocked)).1 ≠ 201
  ∧ bookings (createBooking 40 "u2" "s1" "m1" ["A-1"] (fire_timers 40 Demo.relocked)).2
    = bookings (fire_timers 40 Demo.relocked).
Proof.
  assert (bookings (fire_timers 40 Demo.relocked)
          = [mkBooking "u1" "s1" "m1" ["A-1"; "A-2"] 500 CONFIRMED PENDING WEB None])
    as Hb by (vm_compute; reflexivity).
  apply (booked_seat_is_never_rebooked 40 "u2" "s1" "m1" ["A-1"]
           (fire_timers 40 Demo.relocked)
           (mkBooking "u1" "s1" "m1" ["A-1"; "A-2"] 500 CONFIRMED PENDING WEB None)
           "A-1").
  - rewrite Hb. apply list_elem_of_here.
  - discriminate.
  - reflexivity.
  - apply list_elem_of_here.
  - apply list_elem_of_here.
Defined.

End BookingHandlers.

Section Cancellation.
Import InMemory InMemoryFacts BookingRoutes CommitFacts OccupancyFacts IndexFacts
  SettleFacts BookingFacts.

(** What the cancel handler answers and leaves. *)
Lemma cancelBooking_spec now user id w :
  (status (cancelBooking now user id w).1 = 200
   ↔ ∃ b, bookings w !! id = Some b ∧ userId b = user
          ∧ bookingStatus b = CONFIRMED ∧ paymentStatus b ≠ SUCCESS)
  ∧ (status (cancelBooking now user id w).1 ≠ 200 → (cancelBooking now user id w).2 = w)
  ∧ (∀ b, bookings w !! id = Some b → userId b ≠ user →
       (cancelBooking now user id w).1 = Res 404 (Message "Booking not found"))
  ∧ (∀ b, bookings w !! id = Some b →
       status (cancelBooking now user id w).1 = 200 →
       (cancelBooking now user id w).1 = Res 200 (BookingCancelled (cancelled_at now b))
       ∧ bookings (cancelBooking now user id w).2
           = <[id := cancelled_at now b]> (bookings w)
       ∧ payments (cancelBooking now user id w).2 = payments w
       ∧ emitted (cancelBooking now user id w).2
           = emitted w ++ [("show:" +:+ showId b, seatsClearedAfterPayment (showId b))]
       ∧ ∀ seat, seat ∈ seats b →
           store (redis (cancelBooking now user id w).2)
             !! getSeatKey (showId b) seat = None).
Proof.
  unfold cancelBooking, Bookings.findOne.
  destruct (bookings w !! id) as [b |] eqn:Hb.
  2: { split; [split | split; [| split]]; try done. by intros (b & ? & _). }
  case_bool_decide as Howner.
  2: { split; [split | split; [| split]]; try done;
         try (by intros b' [= <-]).
       intros (b' & Heq & Ho & _). injection Heq as <-. done. }
  case_bool_decide as Hcancelled.
  { split; [split | split; [| split]]; try done;
      try (by intros b' [= <-]).
    intros (b' & Heq & _ & Hc & _). injection Heq as <-. congruence. }
  case_bool_decide as Hpaid.
  { split; [split | split; [| split]]; try done;
      try (by intros b' [= <-]).
    intros (b' & Heq & _ & _ & Hp). injection Heq as <-. done. }
  fold (cancelled_at now b).
  rewrite (save_accepts id (cancelled_at now b) b); [| done | done | done | by right].
  cbn [fst snd status]. split; [split | split; [| split]]; try done;
    try (by intros b' [= <-]).
  - intros _. exists b. repeat split; try done. by destruct (bookingStatus b).
  - intros b' [= <-] _. repeat split.
    intros seat Hseat. simpl. rewrite clear_locks_store.
    rewrite decide_True; [done | by apply list_elem_of_fmap_2].
Qed.

(** X10.  The cancel handler answers 200 exactly for a booking of the
    requester that is confirmed and not paid; any other answer (404 for a
    missing booking or a booking of another user, 400 for a cancelled or a
    paid one) leaves the whole state as it was.  On a 200 the booking is
    saved as CANCELLED with the time of the request, the rest of it kept,
    the lock keys of its seats are deleted and one seatsClearedAfterPayment
    event is published for its show. *)
Theorem cancel_booking now user id w :
  (status (cancelBooking now user id w).1 = 200
   ↔ ∃ b, bookings w !! id = Some b ∧ userId b = user
          ∧ bookingStatus b = CONFIRMED ∧ paymentStatus b ≠ SUCCESS)
  ∧ (status (cancelBooking now user id w).1 ≠ 200 → (cancelBooking now user id w).2 = w)
  ∧ (∀ b, bookings w !! id = Some b → userId b ≠ user →
       (cancelBooking now user id w).1 = Res 404 (Message "Booking not found"))
  ∧ (∀ b, bookings w !! id = Some b →
       status (cancelBooking now user id w).1 = 200 →
       (cancelBooking now user id w).1 = Res 200 (BookingCancelled (cancelled_at now b))
       ∧ bookings (cancelBooking now user id w).2
           = <[id := cancelled_at now b]> (bookings w)
       ∧ payments (cancelBooking now user id w).2 = payments w
       ∧ emitted (cancelBooking now user id w).2
           = emitted w ++ [("show:" +:+ showId b, seatsClearedAfterPayment (showId b))]
       ∧ ∀ seat, seat ∈ seats b →
           store (redis (cancelBooking now user id w).2)
             !! getSeatKey (showId b) seat = None).
Proof. apply cancelBooking_spec. Qed.

Lemma cancel_booking_witness :
  (cancelBooking 30 "u1" 0 Demo.booked).1
    = Res 200 (BookingCancelled
        (mkBooking "u1" "s1" "m1" ["A-1"; "A-2"] 500 CANCELLED PENDING WEB (Some 30)))
  ∧ (cancelBooking 30 "u2" 0 Demo.booked).1 = Res 404 (Message "Booking not found").
Proof.
  assert (bookings Demo.booked !! 0%nat
          = Some (mkBooking "u1" "s1" "m1" ["A-1"; "A-2"] 500 CONFIRMED PENDING WEB None))
    as Hb by (vm_compute; reflexivity).
  destruct (cancel_booking 30 "u1" 0 Demo.booked) as (H200 & _ & _ & Hok).
  destruct (cancel_booking 30 "u2" 0 Demo.booked) as (_ & _ & H404 & _).
  split.
  - apply (Hok _ Hb). apply H200. eexists. split; [exact Hb |]. by repeat split.
  - by apply (H404 _ Hb).
Defined.

(** X11.  Cancelling gives the seats back: in a collection whose index is
    unique (every reachable one), after a booking is cancelled (200) the
    index accepts a booking for seats of the cancelled booking in the same
    show; so in any later state with the same bookings, a booking request
    for such seats that reaches the insert (its requester having locked
    them in between) is answered 201. *)
Theorem cancelled_seats_can_be_booked now user id w b w2 now' user' movie' ss' sh :
  index_unique (bookings w) →
  bookings w !! id = Some b →
  status (cancelBooking now user id w).1 = 200 →
  bookings w2 = bookings (cancelBooking now user id w).2 →
  ss' ⊆ seats b →
  reaches_insert now' user' (showId b) movie' ss' w2 sh →
  status (createBooking now' user' (showId b) movie' ss' w2).1 = 201.
Proof.
  intros Hu Hb H200 Hw2 Hsub Hreach.
  destruct (cancelBooking_spec now user id w) as (Hiff & _ & _ & Hok).
  destruct (Hok b Hb H200) as (_ & Hcoll & _).
  apply Hiff in H200 as (b0 & Hb0 & _ & Hconf & _).
  rewrite Hb in Hb0. injection Hb0 as <-.
  rewrite (createBooking_insert _ _ _ _ _ _ _ Hreach).
  rewrite Hw2, Hcoll. unfold Bookings.create.
  assert (Bookings.duplicate_key (new_booking user' (showId b) movie' ss' sh)
            (<[id := cancelled_at now b]> (bookings w)) = false) as ->; [| done].
  unfold Bookings.duplicate_key. apply bool_decide_eq_false. intros Hex.
  apply Exists_exists in Hex as (e & He & Hex).
  apply Exists_exists in Hex as (key & Hkey & Hkeye).
  apply list_elem_of_lookup in He as [j Hj].
  apply list_lookup_insert_Some in Hj as [(<- & <- & _) | [Hne Hj]].
  - unfold Bookings.index_keys, cancelled_at in Hkeye. simpl in Hkeye.
    by apply not_elem_of_nil in Hkeye.
  - apply (Hu id j b e key); [done | done | done | | done].
    apply index_key_inv in Hkey as (_ & Hk1 & Hk2).
    cbn [new_booking seats showId] in Hk1, Hk2.
    destruct Hreach as (_ & _ & Hss & _).
    destruct Hk2 as [[Hnil _] | (s & Hk2 & Hs)]; [done |].
    destruct key as [k1 k2]. simpl in *. subst k1 k2.
    apply seat_index_key; [by rewrite Hconf | by apply Hsub].
Qed.

(** On the demo server: u1 cancels its booking at time 30, u2 locks A-1 at
    time 40 and books it at time 50. *)
Lemma cancelled_seats_can_be_booked_witness :
  status (createBooking 50 "u2" "s1" "m1" ["A-1"]
            (fire_timers 50
               (step (cancelBooking 30 "u1" 0 Demo.booked).2
                  (40, LockSeats "u2" "s1" ["A-1"])).2)).1 = 201.
Proof.
  apply (cancelled_seats_can_be_booked 30 "u1" 0 Demo.booked
           (mkBooking "u1" "s1" "m1" ["A-1"; "A-2"] 500 CONFIRMED PENDING WEB None)
           _ 50 "u2" "m1" ["A-1"] Demo.show1).
  - assert (bookings Demo.booked
            = [mkBooking "u1" "s1" "m1" ["A-1"; "A-2"] 500 CONFIRMED PENDING WEB None])
      as -> by (vm_compute; reflexivity).
    intros i j bi bj key Hij Hi Hj.
    apply list_lookup_singleton_Some in Hi as [-> _].
    apply list_lookup_singleton_Some in Hj as [-> _]. done.
  - vm_compute; reflexivity.
  - vm_compute; reflexivity.
  - vm_compute; reflexivity.
  - intros x ->%list_elem_of_singleton. apply list_elem_of_here.
  - split; [discriminate |]. split; [discriminate |]. split; [discriminate |].
    split; [vm_compute; reflexivity |]. split; [vm_compute; reflexivity |].
    split; [reflexivity |]. split; [| vm_compute; reflexivity].
    exists Demo.movie1. split; vm_compute; reflexivity.
Defined.

End Cancellation.

(* ===================================================================== *)
(** ** More on the settlement *)
(* ===================================================================== *)

Module SweepFacts.
Import InMemory InMemoryFacts StringFacts SeatFacts.

Lemma del_all_store ks : ∀ c k,
  store (del_all ks c) !! k = if decide (k ∈ ks) then None else store c !! k.
Proof.
  unfold del_all. induction ks as [| x ks IH]; intros c k; cbn [foldl].
  - destruct (decide (k ∈ [])) as [H | _]; [by apply not_elem_of_nil in H | done].
  - rewrite IH. simpl.
    destruct (decide (k ∈ ks)) as [Hin | Hnin].
    + rewrite decide_True; [done | by apply elem_of_cons; right].
    + destruct (decide (k = x)) as [-> | Hne].
      * rewrite lookup_delete_eq.
        rewrite decide_True; [done | apply list_elem_of_here].
      * rewrite lookup_delete_ne; [| done].
        rewrite decide_False; [done |]. intros [? | ?]%elem_of_cons; done.
Qed.

Lemma del_all_timers ks : ∀ c, ttlTimers (del_all ks c) = ttlTimers c.
Proof.
  unfold del_all. induction ks as [| x ks IH]; intros c; cbn [foldl]; [done |].
  by rewrite IH.
Qed.

Lemma startsWith_before_star a r :
  startsWith (a +:+ r) (before_star (a +:+ "*")) = true.
Proof.
  induction a as [| x a IH]; [apply startsWith_nil |].
  change (startsWith (String x (a +:+ r))
            (if Ascii.eqb x "*" then "" else String x (before_star (a +:+ "*"))) = true).
  destruct (Ascii.eqb x "*"); [done |].
  cbn [startsWith]. by rewrite Ascii.eqb_refl, IH.
Qed.

(** The pattern of the sweep matches every lock key of the show that is
    stored, whatever the show id is. *)
Lemma stored_lock_key_swept show seat c :
  is_Some (store c !! getSeatKey show seat) →
  getSeatKey show seat ∈ keys ("seatlock:" +:+ show +:+ ":" +:+ "*") c.
Proof.
  intros [sl Hsl].
  replace ("seatlock:" +:+ show +:+ ":" +:+ "*") with (lock_prefix show +:+ "*")
    by (symmetry; apply (lock_prefix_key show "*")).
  rewrite lock_prefix_key in *. unfold keys.
  rewrite includes_star_app. cbn [includes_star].
  change (if Ascii.eqb "*" "*" then true else false) with true.
  rewrite orb_true_r. apply list_elem_of_filter. split.
  - apply startsWith_before_star.
  - apply list_elem_of_fmap. exists (lock_prefix show +:+ seat, sl).
    split; [done |]. by apply elem_of_map_to_list.
Qed.

End SweepFacts.

Section Sweep.
Import InMemory InMemoryFacts PaymentRoutes SettleFacts SweepFacts.

(** X12.  For the owner of an unpaid booking and an accepted payment
    method: a settlement with SUCCESS records a payment of the booking's
    amount with the time as [paidAt], deletes every seat-lock key of the
    booking's show from the store, whichever seat and holder it is for,
    and publishes one seatsClearedAfterPayment event; a settlement with
    FAILED records a payment with the given failure reason, or "Mock
    failure" when none or an empty one is given, and leaves the key store
    and the events as they were. *)
Theorem settlement_effects now user id method reason w b :
  bookings w !! id = Some b → userId b = user → paymentStatus b ≠ SUCCESS →
  default "CARD" method ∈ ["CARD"; "UPI"; "NETBANKING"; "WALLET"] →
  ((∀ seat, store (redis (mockPayment now user (Some id) "SUCCESS" method reason w).2)
              !! getSeatKey (showId b) seat = None)
   ∧ payments (mockPayment now user (Some id) "SUCCESS" method reason w).2
     = payments w ++ [mkPayment id user (totalAmount b) (default "CARD" method)
                        ("MOCK-" +:+ pretty now) SUCCESS None (Some now)]
   ∧ emitted (mockPayment now user (Some id) "SUCCESS" method reason w).2
     = emitted w ++ [("show:" +:+ showId b, seatsClearedAfterPayment (showId b))])
  ∧ (redis (mockPayment now user (Some id) "FAILED" method reason w).2 = redis w
     ∧ payments (mockPayment now user (Some id) "FAILED" method reason w).2
       = payments w ++ [mkPayment id user (totalAmount b) (default "CARD" method)
                          ("MOCK-" +:+ pretty now) FAILED
                          (Some (match reason with
                                 | Some r => if bool_decide (r = "") then "Mock failure"
                                             else r
                                 | None => "Mock failure"
                                 end)) None]
     ∧ emitted (mockPayment now user (Some id) "FAILED" method reason w).2 = emitted w).
Proof.
  intros Hb Howner Hunpaid Hmethod.
  unfold mockPayment, Bookings.findById. rewrite Hb.
  rewrite (bool_decide_eq_false_2 (userId b ≠ user)); [| by intros H; apply H].
  rewrite (bool_decide_eq_false_2 (paymentStatus b = SUCCESS)); [| done].
  unfold Payment_create. cbn [paymentMethod].
  rewrite (bool_decide_eq_true_2 _ Hmethod).
  cbn [valid_status bool_decide]. simpl.
  rewrite !(save_accepts id _ b); try done; [| by right | by left].
  simpl. repeat split; try done.
  intros seat. rewrite del_all_store.
  destruct (decide _) as [Hin | Hnin]; [done |].
  destruct (store (redis w) !! getSeatKey (showId b) seat) eqn:E; [| done].
  exfalso. apply Hnin. apply stored_lock_key_swept. by eexists.
Qed.

(** On the demo server with the booked seat A-1 locked again by u2: the
    settlement of u1 sweeps the lock of u2. *)
Lemma settlement_effects_witness :
  store (redis Demo.relocked) !! getSeatKey "s1" "A-1"
    = Some (Entry (PLock "u2" 30) (Some 300030))
  ∧ store (redis (mockPayment 60 "u1" (Some 0%nat) "SUCCESS" None None Demo.relocked).2)
      !! getSeatKey "s1" "A-1" = None.
Proof.
  split; [vm_compute; reflexivity |].
  refine (proj1 (proj1 (settlement_effects 60 "u1" 0 None None Demo.relocked
            (mkBooking "u1" "s1" "m1" ["A-1"; "A-2"] 500 CONFIRMED PENDING WEB None)
            _ _ _ _)) "A-1").
  - vm_compute; reflexivity.
  - reflexivity.
  - discriminate.
  - apply list_elem_of_here.
Defined.

End Sweep.

(* ===================================================================== *)
(** ** The bookings and the payments over the life of the server *)
(* ===================================================================== *)

Module LedgerFacts.
Import SettleFacts.
Export LedgerSpec.

Lemma evolves_refl b : evolves b b.
Proof. by repeat split. Qed.

Lemma evolves_trans b1 b2 b3 : evolves b1 b2 → evolves b2 b3 → evolves b1 b3.
Proof.
  intros (U1 & S1 & M1 & E1 & T1 & R1 & C1 & P1) (U2 & S2 & M2 & E2 & T2 & R2 & C2 & P2).
  repeat split; try congruence.
  - auto.
  - intros H. specialize (P1 H). subst b2. auto.
Qed.

Lemma lockSeats_payments now user show ss w :
  payments (ShowRoutes.lockSeats now user show ss w).2 = payments w.
Proof. unfold ShowRoutes.lockSeats. repeat case_match; done. Qed.

Lemma getSeats_payments now req_user show w :
  payments (ShowRoutes.getSeats now req_user show w).2 = payments w.
Proof. unfold ShowRoutes.getSeats. repeat case_match; done. Qed.

Lemma movie_routes_payments now id newId ttl date rate w :
  payments (MovieRoutes.getMovies now w).2 = payments w
  ∧ payments (MovieRoutes.getMovieById now id w).2 = payments w
  ∧ payments (MovieRoutes.postMovie newId ttl date rate w).2 = payments w.
Proof.
  unfold MovieRoutes.getMovies, MovieRoutes.getMovieById, MovieRoutes.postMovie.
  repeat split; repeat case_match; done.
Qed.

Lemma createBooking_ledger now user show movie ss w :
  ledger_step w (BookingRoutes.createBooking now user show movie ss w).2.
Proof.
  unfold BookingRoutes.createBooking.
  case_bool_decide; [by left |].
  destruct (InMemory.incr _ _) as [count c1].
  destruct (exceeds count _); [by left |].
  destruct (shows w !! show) as [sh |]; [| by left].
  destruct (negb (show_isActive sh)); [by left |].
  destruct (Movies.findById movie (movies w)) as [mv |]; [| by left].
  destruct (negb (movie_isActive mv)); [by left |].
  destruct (BookingRoutes.collect_invalid now user show ss _) as [inv c3].
  destruct inv; [| by left].
  unfold Bookings.create. destruct (Bookings.duplicate_key _ _); [by left |].
  right; left. by eexists.
Qed.

Lemma cancelBooking_ledger now user id w :
  ledger_step w (BookingRoutes.cancelBooking now user id w).2.
Proof.
  unfold BookingRoutes.cancelBooking, Bookings.findOne.
  destruct (bookings w !! id) as [b |] eqn:Hb; [| by left].
  case_bool_decide; [| by left].
  case_bool_decide as Hc; [by left |].
  case_bool_decide as Hp; [by left |].
  rewrite (save_accepts id _ b); [| done | done | done | by right].
  right; right. eexists id, b, _. split; [done |]. split; [done |].
  split; [by repeat split |]. split; [done |]. by left.
Qed.

Lemma mockPayment_ledger now user bookingId st method reason w :
  ledger_step w (PaymentRoutes.mockPayment now user bookingId st method reason w).2.
Proof.
  unfold PaymentRoutes.mockPayment, Bookings.findById.
  destruct bookingId as [id |]; [| by left].
  destruct (PaymentRoutes.valid_status st) as [status |]; [| by left].
  destruct (bookings w !! id) as [b |] eqn:Hb; [| by left].
  case_bool_decide; [by left |].
  case_bool_decide as Hp; [by left |].
  unfold PaymentRoutes.Payment_create. case_bool_decide; [| by left].
  rewrite (save_accepts id _ b); [| done | done | done |].
  - right; right.
    destruct (bool_decide (status = SUCCESS)); cbn [snd];
      (eexists id, b, _; split; [done |]; split; [done |];
       split; [repeat split; try done; simpl; intros ->; by case_bool_decide |];
       split; [done |]; right; by eexists).
  - simpl. case_bool_decide; [by right | by left].
Qed.

Lemma handle_ledger now r w : ledger_step w (handle now r w).2.
Proof.
  destruct r; simpl.
  - left. split; [apply SystemFacts.lockSeats_bookings | apply lockSeats_payments].
  - left. split; [apply SystemFacts.getSeats_bookings | apply getSeats_payments].
  - apply createBooking_ledger.
  - apply cancelBooking_ledger.
  - apply mockPayment_ledger.
  - left. split; [apply (SystemFacts.movie_routes_bookings now "" "" "" None None w)
                 | apply (movie_routes_payments now "" "" "" None None w)].
  - left. split; [apply (SystemFacts.movie_routes_bookings now id "" "" None None w)
                 | apply (movie_routes_payments now id "" "" None None w)].
  - left. split; [apply (SystemFacts.movie_routes_bookings now "" newId ttl date rate w)
                 | apply (movie_routes_payments now "" newId ttl date rate w)].
Qed.

Lemma step_ledger w tr : ledger_step w (step w tr).2.
Proof.
  unfold step. pose proof (handle_ledger tr.1 tr.2 (fire_timers tr.1 w)) as H.
  exact H.
Qed.

(** One handler keeps every booking, changed at most as [evolves] allows. *)
Lemma ledger_step_evolves w w' id b :
  ledger_step w w' → bookings w !! id = Some b →
  ∃ b', bookings w' !! id = Some b' ∧ evolves b b'.
Proof.
  intros [[Hb _] | [(doc & Hb & _) | (id0 & b0 & b0' & H0 & Hb & Hev & _)]] Hid.
  - exists b. rewrite Hb. split; [done | apply evolves_refl].
  - exists b. rewrite Hb. split; [| apply evolves_refl].
    by apply lookup_app_l_Some.
  - rewrite Hb. destruct (decide (id = id0)) as [-> | Hne].
    + exists b0'. split.
      * apply list_lookup_insert_eq. by apply lookup_lt_Some in H0.
      * congruence.
    + exists b. split; [| apply evolves_refl].
      by rewrite list_lookup_insert_ne.
Qed.

Lemma ledger_step_ok w w' : ledger_step w w' → ledger_ok w → ledger_ok w'.
Proof.
  intros Hstep (Hset & Honce & Hpaid).
  destruct Hstep as [[Hb Hp] | [(doc & Hb & Hp & Hdoc)
    | (id & b & b' & Hid & Hb & Hev & Hunpaid & Hpay)]].
  - unfold ledger_ok, payments_settled, charged_once, paid_has_payment.
    rewrite Hb, Hp. done.
  - split; [| split].
    + intros i p Hi Hs. rewrite Hp in Hi. rewrite Hb.
      destruct (Hset i p Hi Hs) as (b & Hl & ?). exists b. split; [| done].
      by apply lookup_app_l_Some.
    + intros i j p q. rewrite Hp. apply Honce.
    + intros id b. rewrite Hb, Hp. intros Hl Hs.
      apply lookup_app_Some in Hl as [Hl | [_ Hl]]; [by eapply Hpaid |].
      apply list_lookup_singleton_Some in Hl as [_ <-]. congruence.
  - assert (id < List.length (bookings w))%nat as Hlt by by apply lookup_lt_Some in Hid.
    assert (∀ i p, payments w !! i = Some p → pay_paymentStatus p = SUCCESS →
            pay_bookingId p ≠ id) as Hother.
    { intros i p Hi Hs Heq. destruct (Hset i p Hi Hs) as (b0 & Hl & Hs0 & _).
      rewrite Heq in Hl. congruence. }
    destruct Hev as (Hu & _ & _ & _ & Ht & _).
    destruct Hpay as [[Hp Hsame] | (pay & Hp & Hpid & Hpst & Hpu & Hpa)].
    + split; [| split].
      * intros i p Hi Hs. rewrite Hp in Hi. rewrite Hb.
        destruct (Hset i p Hi Hs) as (b0 & Hl & ?). exists b0. split; [| done].
        rewrite list_lookup_insert_ne; [done |]. intros Heq. by apply (Hother i p Hi Hs).
      * intros i j p q. rewrite Hp. apply Honce.
      * intros id0 b0. rewrite Hb, Hp. intros Hl Hs.
        destruct (decide (id0 = id)) as [-> | Hne].
        -- rewrite list_lookup_insert_eq in Hl; [| done]. congruence.
        -- rewrite list_lookup_insert_ne in Hl; [| done]. by eapply Hpaid.
    + split; [| split].
      * intros i p Hi Hs. rewrite Hp in Hi. rewrite Hb.
        apply lookup_app_Some in Hi as [Hi | [_ Hi]].
        -- destruct (Hset i p Hi Hs) as (b0 & Hl & ?). exists b0. split; [| done].
           rewrite list_lookup_insert_ne; [done |]. intros Heq. by apply (Hother i p Hi Hs).
        -- apply list_lookup_singleton_Some in Hi as [_ <-]. exists b'.
           rewrite Hpid. split; [by apply list_lookup_insert_eq |].
           repeat split; congruence.
      * intros i j p q. rewrite Hp. intros Hi Hj Hsp Hsq Heq.
        apply lookup_app_Some in Hi as [Hi | [Hli Hi]];
          apply lookup_app_Some in Hj as [Hj | [Hlj Hj]].
        -- by eapply Honce.
        -- apply list_lookup_singleton_Some in Hj as [_ <-].
           exfalso. apply (Hother i p Hi Hsp). congruence.
        -- apply list_lookup_singleton_Some in Hi as [_ <-].
           exfalso. apply (Hother j q Hj Hsq). congruence.
        -- apply list_lookup_singleton_Some in Hi as [Hi _].
           apply list_lookup_singleton_Some in Hj as [Hj _]. lia.
      * intros id0 b0. rewrite Hb, Hp. intros Hl Hs.
        destruct (decide (id0 = id)) as [-> | Hne].
        -- rewrite list_lookup_insert_eq in Hl; [| done]. injection Hl as <-.
           exists (List.length (payments w)), pay. split; [| split; congruence].
           rewrite lookup_app_r; [| done]. by rewrite Nat.sub_diag.
        -- rewrite list_lookup_insert_ne in Hl; [| done].
           destruct (Hpaid id0 b0 Hl Hs) as (i & p & Hi & ?). exists i, p.
           split; [| done]. by apply lookup_app_l_Some.
Qed.

Lemma run_cons w tr rest :
  (run w (tr :: rest)).2 = (run (step w tr).2 rest).2.
Proof.
  cbn [run]. destruct (step w tr) as [r w1]. cbn [snd]. by destruct (run w1 rest).
Qed.

Lemma run_ledger_ok trs : ∀ w, ledger_ok w → ledger_ok (run w trs).2.
Proof.
  induction trs as [| tr rest IH]; intros w H; [done |].
  rewrite run_cons. apply IH. eapply ledger_step_ok; [apply step_ledger | done].
Qed.

Lemma run_evolves trs : ∀ w id b,
  bookings w !! id = Some b →
  ∃ b', bookings (run w trs).2 !! id = Some b' ∧ evolves b b'.
Proof.
  induction trs as [| tr rest IH]; intros w id b Hb.
  - exists b. split; [done | apply evolves_refl].
  - rewrite run_cons.
    destruct (ledger_step_evolves w (step w tr).2 id b (step_ledger w tr) Hb)
      as (b1 & H1 & E1).
    destruct (IH _ id b1 H1) as (b2 & H2 & E2).
    exists b2. split; [done | by eapply evolves_trans].
Qed.

End LedgerFacts.

Section Ledger.
Import LedgerFacts.

(** X13.  When the requests are handled one after the other, each handler
    answering before the next one starts ([run]): whatever requests a
    server that started without bookings and payments has handled, every
    successful payment is for a booking that is marked as paid and has the
    user and the amount of the payment, no booking has two successful
    payments, and every booking marked as paid has a successful payment.
    (The settlement handler reads the booking, creates the payment and
    saves the booking at three different [await]s; settlements of one
    booking that overlap are not covered.) *)
Theorem one_payment_per_booking_when_serial shs ms trs :
  ledger_ok (run (init shs ms) trs).2.
Proof.
  apply run_ledger_ok. split; [| split].
  - intros i p Hi. change (payments (init shs ms)) with (@nil Payment) in Hi.
    by rewrite lookup_nil in Hi.
  - intros i j p q Hi. change (payments (init shs ms)) with (@nil Payment) in Hi.
    by rewrite lookup_nil in Hi.
  - intros id b Hb. change (bookings (init shs ms)) with (@nil Booking) in Hb.
    by rewrite lookup_nil in Hb.
Qed.

(** On the demo server: the booking of [u1] is paid, and a second
    settlement with SUCCESS is refused; one successful payment is kept. *)
Lemma one_payment_per_booking_when_serial_witness :
  ledger_ok (run Demo.start
               [(0, LockSeats "u1" "s1" ["A-1"; "A-2"]);
                (20, CreateBooking "u1" "s1" "m1" ["A-1"; "A-2"]);
                (60, MockPayment "u1" (Some 0%nat) "SUCCESS" None None);
                (70, MockPayment "u1" (Some 0%nat) "SUCCESS" None None)]).2
  ∧ pay_paymentStatus <$>
      payments (run Demo.start
                  [(0, LockSeats "u1" "s1" ["A-1"; "A-2"]);
                   (20, CreateBooking "u1" "s1" "m1" ["A-1"; "A-2"]);
                   (60, MockPayment "u1" (Some 0%nat) "SUCCESS" None None);
                   (70, MockPayment "u1" (Some 0%nat) "SUCCESS" None None)]).2
    = [SUCCESS].
Proof.
  split; [| vm_compute; reflexivity].
  exact (one_payment_per_booking_when_serial {["s1" := Demo.show1]} [Demo.movie1] _).
Defined.

(** X14.  When the requests are handled one after the other, each handler
    answering before the next one starts ([run]): a booking of a state is
    still there, under the same id, after any sequence of requests, with
    the owner, the show, the movie, the seats, the amount and the source it
    had; if it was cancelled it is still cancelled, and if it was paid it
    is unchanged.  (A cancellation or a settlement that overlaps a
    settlement of the same booking is not covered.) *)
Theorem booking_lifecycle_when_serial w trs id b :
  bookings w !! id = Some b →
  ∃ b', bookings (run w trs).2 !! id = Some b' ∧ evolves b b'.
Proof. apply run_evolves. Qed.

(** On the demo server: the booking of [u1] after it is paid, a second
    settlement is tried, and its owner tries to cancel it. *)
Lemma booking_lifecycle_when_serial_witness :
  bookings Demo.booked !! 0%nat
    = Some (mkBooking "u1" "s1" "m1" ["A-1"; "A-2"] 500 CONFIRMED PENDING WEB None)
  ∧ ∃ b', bookings (run Demo.booked
                      [(60, MockPayment "u1" (Some 0%nat) "SUCCESS" None None);
                       (70, MockPayment "u1" (Some 0%nat) "FAILED" None None);
                       (80, CancelBooking "u1" 0%nat)]).2 !! 0%nat = Some b'
          ∧ evolves (mkBooking "u1" "s1" "m1" ["A-1"; "A-2"] 500 CONFIRMED PENDING
                       WEB None) b'.
Proof.
  assert (bookings Demo.booked !! 0%nat
    = Some (mkBooking "u1" "s1" "m1" ["A-1"; "A-2"] 500 CONFIRMED PENDING WEB None))
    as H by (vm_compute; reflexivity).
  split; [exact H |].
  exact (booking_lifecycle_when_serial Demo.booked _ 0%nat _ H).
Defined.

End Ledger.

(* ===================================================================== *)
(** ** The life of a seat lock *)
(* ===================================================================== *)

Module ExpiryFacts.
Import InMemory InMemoryFacts ShowRoutes LockFacts.

(** A lock request answered 200 has written the locks last. *)
Lemma lockSeats_granted now user show ss w :
  ss ≠ [] → status (lockSeats now user show ss w).1 = 200 →
  ∃ c, redis (lockSeats now user show ss w).2 = set_locks now user show ss c.
Proof.
  intros Hne. rewrite lockSeats_eq; [| done]. cbn zeta.
  destruct (exceeds _ _); [done |].
  destruct (shows w !! show) as [sh |]; [| done].
  destruct (show_isActive sh); [| done].
  unfold locking. destruct (found_conflicts _ _ _ _ _); simpl; [| done].
  intros _. by eexists.
Qed.

End ExpiryFacts.

Section LockExpiry.
Import InMemory InMemoryFacts ShowRoutes LockFacts Frame ExpiryFacts.

(** X15.  The seats of a lock request answered 200 at time [now] stay
    locked for five minutes and not longer: as long as only time passes,
    at any time before [now] + 300 s a read of the seat key returns the
    lock and a request of any other user for these seats finds the seat
    conflicting; from [now] + 300 s on the key is gone from the store, and
    no request for these seats, of whichever user, finds a conflict. *)
Theorem granted_lock_expires now user show ss w seat t :
  ss ≠ [] → status (lockSeats now user show ss w).1 = 200 → seat ∈ ss →
  (t < now + SEAT_LOCK_TTL_SECONDS * 1000 →
     peek t (getSeatKey show seat) (tick t (redis (lockSeats now user show ss w).2))
       = Some (PLock user now)
     ∧ ∀ user', user' ≠ user →
         seat ∈ found_conflicts t user' show ss
                  (tick t (redis (lockSeats now user show ss w).2)))
  ∧ (now + SEAT_LOCK_TTL_SECONDS * 1000 ≤ t →
     store (tick t (redis (lockSeats now user show ss w).2)) !! getSeatKey show seat
       = None
     ∧ ∀ user', found_conflicts t user' show ss
                  (tick t (redis (lockSeats now user show ss w).2)) = []).
Proof.
  intros Hne H200 Hin. destruct (lockSeats_granted now user show ss w Hne H200) as [c ->].
  destruct (granted_locks_all now user show ss c seat Hin) as (Hs & Ht & _).
  split.
  - intros Hlt. destruct (tick_same t _ _ _ Ht Hlt) as [Hst _].
    assert (peek t (getSeatKey show seat) (tick t (set_locks now user show ss c))
            = Some (PLock user now)) as Hpeek.
    { unfold peek, get. rewrite Hst, Hs. unfold lock_slot.
      rewrite bool_decide_eq_false_2; [done | lia]. }
    split; [done |]. intros user' Hu. apply found_conflicts_spec.
    split; [done |]. exists (PLock user now). split; [done |]. split; [done |].
    simpl. congruence.
  - intros Hle. split; [by apply (tick_due t _ _ _ Ht) |].
    intros user'. apply found_conflicts_nil. intros s Hsin.
    destruct (granted_locks_all now user show ss c s Hsin) as (_ & Ht' & _).
    rewrite peek_absent; [done |]. by apply (tick_due t _ _ _ Ht').
Qed.

(** The lock of [u1] on the demo server, one millisecond before and at the
    end of the five minutes. *)
Lemma granted_lock_expires_witness :
  peek 299999 (getSeatKey "s1" "A-1")
    (tick 299999 (redis (lockSeats 0 "u1" "s1" ["A-1"; "A-2"] Demo.start).2))
    = Some (PLock "u1" 0)
  ∧ store (tick 300000 (redis (lockSeats 0 "u1" "s1" ["A-1"; "A-2"] Demo.start).2))
      !! getSeatKey "s1" "A-1" = None.
Proof.
  assert (status (lockSeats 0 "u1" "s1" ["A-1"; "A-2"] Demo.start).1 = 200) as H200
    by (vm_compute; reflexivity).
  assert ("A-1" ∈ ["A-1"; "A-2"]) as Hin by apply list_elem_of_here.
  assert (["A-1"; "A-2"] ≠ @nil string) as Hne by discriminate.
  split.
  - refine (proj1 (proj1 (granted_lock_expires 0 "u1" "s1" ["A-1"; "A-2"] Demo.start
                            "A-1" 299999 Hne H200 Hin) _)).
    reflexivity.
  - refine (proj1 (proj2 (granted_lock_expires 0 "u1" "s1" ["A-1"; "A-2"] Demo.start
                            "A-1" 300000 Hne H200 Hin) _)).
    discriminate.
Defined.

End LockExpiry.

(* ===================================================================== *)
(** ** The movie management and the movie cache *)
(* ===================================================================== *)

Module AdminFacts.
Import InMemory InMemoryFacts MovieRoutes AdminRoutes CacheFacts.

Lemma list_find_findById id coll :
  Movies.findById id coll = snd <$> list_find (λ m, movie_id m = id) coll.
Proof.
  unfold Movies.findById. induction coll as [| x coll IH]; [done |].
  cbn [List.find list_find]. case_bool_decide as Hx.
  - by rewrite decide_True.
  - rewrite decide_False; [| done]. rewrite IH.
    by destruct (list_find _ coll) as [[i m] |].
Qed.

(** The document that was updated is the one [findById] returns. *)
Lemma findById_insert id coll i m0 m' :
  list_find (λ m, movie_id m = id) coll = Some (i, m0) → movie_id m' = id →
  Movies.findById id (<[i := m']> coll) = Some m'.
Proof.
  intros Hf Hid. apply list_find_Some in Hf as (Hi & _ & Hbefore).
  rewrite list_find_findById.
  assert (list_find (λ m, movie_id m = id) (<[i := m']> coll) = Some (i, m')) as ->;
    [| done].
  apply list_find_Some. split; [| split; [done |]].
  - apply list_lookup_insert_eq. by apply lookup_lt_Some in Hi.
  - intros j y Hj Hlt. rewrite list_lookup_insert_ne in Hj; [| lia]. by eapply Hbefore.
Qed.

Lemma invalidate_store id c :
  store (invalidate id c) !! "movies:all" = None
  ∧ store (invalidate id c) !! ("movies:" +:+ id) = None.
Proof.
  unfold invalidate. simpl. split; [| apply lookup_delete_eq].
  rewrite lookup_delete. destruct (decide _); [done | apply lookup_delete_eq].
Qed.

(** The reads that follow an invalidation load from the collection. *)
Lemma reads_after_invalidate now' id c w :
  (getMovieById now' id (fire_timers now' (with_redis (invalidate id c) w))).1
    = match Movies.findById id (movies w) with
      | Some m => if movie_isActive m then Res 200 (Cached false (PMovie m))
                  else Res 404 (Message "Movie not found")
      | None => Res 404 (Message "Movie not found")
      end
  ∧ (getMovies now' (fire_timers now' (with_redis (invalidate id c) w))).1
    = Res 200 (Cached false (PMovies (Movies.find_active (movies w)))).
Proof.
  destruct (invalidate_store id c) as [Hall Hone]. split.
  - unfold getMovieById, fire_timers. cbn [redis with_redis].
    rewrite get_absent; [| by apply tick_store_None].
    cbn [cache_hit movies with_redis].
    destruct (Movies.findById id (movies w)) as [m |]; [| done].
    by destruct (movie_isActive m).
  - unfold getMovies, fire_timers. cbn [redis with_redis].
    rewrite get_absent; [done |]. by apply tick_store_None.
Qed.

Lemma insert_desc_elem m l x : x ∈ Movies.insert_desc m l ↔ x = m ∨ x ∈ l.
Proof.
  induction l as [| y l IH]; simpl.
  - rewrite list_elem_of_singleton, elem_of_nil. tauto.
  - destruct (Movies.date_leb _ _).
    + rewrite !elem_of_cons, IH. tauto.
    + rewrite !elem_of_cons. tauto.
Qed.

(** The list of the active movies has the active movies of the collection. *)
Lemma find_active_elem coll x :
  x ∈ Movies.find_active coll ↔ x ∈ coll ∧ movie_isActive x = true.
Proof.
  unfold Movies.find_active.
  assert (∀ l, x ∈ foldr Movies.insert_desc [] l ↔ x ∈ l) as Hsort.
  { induction l as [| y l IH]; [done |].
    cbn [foldr]. rewrite insert_desc_elem, elem_of_cons, IH. tauto. }
  rewrite Hsort, list_elem_of_filter. tauto.
Qed.

End AdminFacts.

Section Admin.
Import InMemory InMemoryFacts MovieRoutes AdminRoutes CacheFacts AdminFacts.

(** X16.  The update of a movie answers 404 and changes nothing when no
    movie has the id; otherwise it answers 200 with the first document of
    that id changed in the given fields, which takes the place of the old
    one in the collection, and the reads that follow load from the
    collection whatever the cache held: the detail read answers the
    updated movie, or 404 when the update left it inactive, and the list
    read answers the active movies of the updated collection. *)
Theorem update_is_read_back id u w :
  match Movies.findById id (movies w) with
  | None => updateMovie id u w = (AdminRes 404 (AdminMessage "Movie not found"), w)
  | Some m0 =>
      (updateMovie id u w).1
        = AdminRes 200 (MovieData "Movie updated" (apply_updates u m0))
      ∧ Movies.findById id (movies (updateMovie id u w).2) = Some (apply_updates u m0)
      ∧ List.length (movies (updateMovie id u w).2) = List.length (movies w)
      ∧ ∀ now',
          (getMovieById now' id (fire_timers now' (updateMovie id u w).2)).1
            = (if movie_isActive (apply_updates u m0)
               then Res 200 (Cached false (PMovie (apply_updates u m0)))
               else Res 404 (Message "Movie not found"))
          ∧ (getMovies now' (fire_timers now' (updateMovie id u w).2)).1
            = Res 200 (Cached false
                (PMovies (Movies.find_active (movies (updateMovie id u w).2))))
  end.
Proof.
  unfold updateMovie, findByIdAndUpdate. rewrite list_find_findById.
  destruct (list_find _ (movies w)) as [[i m0] |] eqn:Hf; cbn [fmap option_fmap option_map snd fst];
    [| done].
  assert (Movies.findById id (<[i := apply_updates u m0]> (movies w))
          = Some (apply_updates u m0)) as Hread.
  { apply (findById_insert id (movies w) i m0); [done |].
    by apply list_find_Some in Hf as (_ & Hid & _). }
  split; [done |]. split; [exact Hread |]. split; [apply length_insert |].
  intros now'.
  destruct (reads_after_invalidate now' id (redis w)
              (with_movies (<[i := apply_updates u m0]> (movies w)) w)) as [H1 H2].
  cbn [movies with_movies] in H1, H2. rewrite Hread in H1. by split.
Qed.

(** On the demo server, with the movie cached at time 80: the title is
    changed, and the detail read at time 90 answers the new title. *)
Lemma update_is_read_back_witness :
  (getMovieById 85 "m1" (getMovieById 80 "m1" Demo.booked).2).1
    = Res 200 (Cached true (PMovie Demo.movie1))
  ∧ (getMovieById 90 "m1"
       (fire_timers 90
          (updateMovie "m1" (mkMovieUpdates (Some "Inception (2010)") None None None)
             (getMovieById 80 "m1" Demo.booked).2).2)).1
    = Res 200 (Cached false
        (PMovie (mkMovie "m1" "Inception (2010)" (Some 1279238400000) None true))).
Proof.
  split; [vm_compute; reflexivity |].
  pose proof (update_is_read_back "m1"
                (mkMovieUpdates (Some "Inception (2010)") None None None)
                (getMovieById 80 "m1" Demo.booked).2) as H.
  assert (Movies.findById "m1" (movies (getMovieById 80 "m1" Demo.booked).2)
          = Some Demo.movie1) as E by (vm_compute; reflexivity).
  rewrite E in H. destruct H as (_ & _ & _ & H).
  exact (proj1 (H 90)).
Defined.

(** X17.  In a collection where no two movies have the same id, the
    deactivation of a movie that exists answers 200 with the movie marked
    inactive; from then on the detail read of the movie answers 404, and
    the list read answers the movies that were active before, without the
    deactivated one, whatever the cache held. *)
Theorem deactivated_movie_is_hidden id w m0 :
  NoDup (movie_id <$> movies w) → Movies.findById id (movies w) = Some m0 →
  (deactivateMovie id w).1
    = AdminRes 200 (MovieData "Movie deactivated"
        (mkMovie (movie_id m0) (title m0) (releaseDate m0) (rating m0) false))
  ∧ ∀ now',
      (getMovieById now' id (fire_timers now' (deactivateMovie id w).2)).1
        = Res 404 (Message "Movie not found")
      ∧ ∃ l, (getMovies now' (fire_timers now' (deactivateMovie id w).2)).1
               = Res 200 (Cached false (PMovies l))
             ∧ ∀ m, m ∈ l ↔ m ∈ movies w ∧ movie_isActive m = true ∧ movie_id m ≠ id.
Proof.
  intros Hnd. unfold deactivateMovie, findByIdAndUpdate. rewrite list_find_findById.
  destruct (list_find _ (movies w)) as [[i m] |] eqn:Hf; [| done].
  cbn [fmap option_fmap option_map snd fst]. intros [= ->].
  set (m' := apply_updates (mkMovieUpdates None None None (Some false)) m0).
  assert (Movies.findById id (<[i := m']> (movies w)) = Some m') as Hread.
  { apply (findById_insert id (movies w) i m0); [done |].
    by apply list_find_Some in Hf as (_ & Hid & _). }
  apply list_find_Some in Hf as (Hi & Hid & _).
  split; [done |]. intros now'.
  destruct (reads_after_invalidate now' id (redis w)
              (with_movies (<[i := m']> (movies w)) w)) as [H1 H2].
  cbn [movies with_movies] in H1, H2. rewrite Hread in H1.
  split; [exact H1 |]. eexists. split; [exact H2 |].
  intros x. rewrite find_active_elem. split.
  - intros [Hx Hact]. apply list_elem_of_lookup in Hx as [j Hj].
    destruct (decide (j = i)) as [-> | Hne].
    + rewrite list_lookup_insert_eq in Hj; [| by apply lookup_lt_Some in Hi].
      injection Hj as <-. done.
    + rewrite list_lookup_insert_ne in Hj; [| done].
      split; [by eapply list_elem_of_lookup_2 |]. split; [done |].
      intros Hxid. apply Hne. apply (NoDup_lookup _ j i id Hnd).
      * by rewrite list_lookup_fmap, Hj, <- Hxid.
      * by rewrite list_lookup_fmap, Hi, <- Hid.
  - intros (Hx & Hact & Hxid). split; [| done].
    apply list_elem_of_lookup in Hx as [j Hj].
    apply (list_elem_of_lookup_2 _ j). rewrite list_lookup_insert_ne; [done |].
    intros <-. congruence.
Qed.

(** On the demo server, with the list cached at time 80: after the movie
    is deactivated the list read at time 90 is empty. *)
Lemma deactivated_movie_is_hidden_witness :
  (getMovies 85 (getMovies 80 Demo.booked).2).1
    = Res 200 (Cached true (PMovies [Demo.movie1]))
  ∧ (getMovieById 90 "m1"
       (fire_timers 90 (deactivateMovie "m1" (getMovies 80 Demo.booked).2).2)).1
    = Res 404 (Message "Movie not found").
Proof.
  split; [vm_compute; reflexivity |].
  refine (proj1 (proj2 (deactivated_movie_is_hidden "m1" (getMovies 80 Demo.booked).2
                          Demo.movie1 _ _) 90)).
  - apply NoDup_singleton.
  - vm_compute; reflexivity.
Defined.

End Admin.

Module TtlFacts.
Import InMemory InMemoryFacts Frame.

(** A value stored with a positive TTL: what [get] finds once the timers
    that are due have fired. *)
Lemma get_after_set now key v (ttl : Z) c t :
  ttl > 0 → ttl * 1000 ≤ 2147483647 →
  (t < now + ttl * 1000 →
     get t key (tick t (set now key v ttl c)) = (Some v, tick t (set now key v ttl c)))
  ∧ (now + ttl * 1000 ≤ t → store (tick t (set now key v ttl c)) !! key = None).
Proof.
  intros Httl Hmax.
  assert (ttlTimers (set now key v ttl c) !! key = Some (now + ttl * 1000)) as Htimer.
  { rewrite timers_set; [| done]. rewrite decide_True; [| done].
    rewrite timer_delay_id; [done | lia]. }
  split; intros Ht.
  - destruct (tick_same t key _ _ Htimer Ht) as [Hs _].
    unfold get. rewrite Hs, store_set, decide_True; [| done].
    rewrite bool_decide_eq_false_2; [done | lia].
  - by apply (tick_due t key _ _ Htimer).
Qed.

End TtlFacts.

Section CacheWindow.
Import InMemory InMemoryFacts MovieRoutes CacheFacts TtlFacts.

(** X18.  A list read at time [t0] that is answered from the collection
    answers the active movies and caches them for 60 seconds: as long as
    only time passes in the key store, a list read before [t0] + 60 s
    answers [fromCache: true] with that same list, whatever the collection
    has become, and a list read from [t0] + 60 s on loads the active movies
    of the collection as it is then. *)
Theorem movie_list_is_cached_for_a_minute t0 w d t ms' :
  (getMovies t0 w).1 = Res 200 (Cached false d) →
  d = PMovies (Movies.find_active (movies w))
  ∧ (t < t0 + MOVIES_TTL_SECONDS * 1000 →
     (getMovies t (fire_timers t (with_movies ms' (getMovies t0 w).2))).1
       = Res 200 (Cached true d))
  ∧ (t0 + MOVIES_TTL_SECONDS * 1000 ≤ t →
     (getMovies t (fire_timers t (with_movies ms' (getMovies t0 w).2))).1
       = Res 200 (Cached false (PMovies (Movies.find_active ms')))).
Proof.
  unfold getMovies at 1 3 5.
  destruct (get t0 MOVIES_CACHE_KEY (redis w)) as [cached c1].
  destruct (cache_hit cached) as [data |]; [done |].
  cbn [fst snd]. intros [= <-]. split; [done |].
  destruct (get_after_set t0 MOVIES_CACHE_KEY
              (PMovies (Movies.find_active (movies w))) MOVIES_TTL_SECONDS c1 t)
    as [Hin Hout]; [done | done |].
  split; intros Ht; unfold getMovies, fire_timers; cbn [redis with_redis with_movies].
  - by rewrite (Hin Ht).
  - by rewrite get_absent; [| apply (Hout Ht)].
Qed.

(** On the demo server: the list is loaded at time 80; the movie is then
    removed from the collection behind the cache; the read one millisecond
    before the minute is over still answers the cached list. *)
Lemma movie_list_is_cached_for_a_minute_witness :
  (getMovies 80 Demo.booked).1 = Res 200 (Cached false (PMovies [Demo.movie1]))
  ∧ (getMovies 60079
       (fire_timers 60079 (with_movies [] (getMovies 80 Demo.booked).2))).1
    = Res 200 (Cached true (PMovies [Demo.movie1])).
Proof.
  assert ((getMovies 80 Demo.booked).1 = Res 200 (Cached false (PMovies [Demo.movie1])))
    as H by (vm_compute; reflexivity).
  split; [exact H |].
  refine (proj1 (proj2 (movie_list_is_cached_for_a_minute 80 Demo.booked
                          (PMovies [Demo.movie1]) 60079 [] H)) _).
  reflexivity.
Defined.

End CacheWindow.

(* ===================================================================== *)
(** ** The counter of the booking requests *)
(* ===================================================================== *)

Module CounterFacts.
Import InMemory InMemoryFacts Frame BookingRoutes.
Import LockSpec.

Lemma gate_store now key ttl c :
  store (after_gate now key ttl c) !! key
    = Some (Count ((λ n, n + 1) <$> as_number (store c !! key))).
Proof.
  unfold after_gate, incr. cbn [fst snd]. case_bool_decide.
  - unfold expire. cbn [store]. rewrite lookup_insert_eq. cbn [store].
    by rewrite lookup_insert_eq.
  - cbn [store]. by rewrite lookup_insert_eq.
Qed.

Lemma gate_timer now key ttl c :
  ttlTimers (after_gate now key ttl c) !! key
    = if bool_decide (as_number (store c !! key) = Some 0)
      then Some (now + timer_delay (ttl * 1000)) else ttlTimers c !! key.
Proof.
  unfold after_gate, incr. cbn [fst snd].
  destruct (as_number (store c !! key)) as [n |]; cbn [fmap option_fmap option_map].
  - destruct (decide (n = 0)) as [-> | Hn].
    + rewrite !bool_decide_eq_true_2; [| done | done].
      unfold expire. cbn [store]. rewrite lookup_insert_eq. cbn [ttlTimers].
      by rewrite lookup_insert_eq.
    + rewrite !bool_decide_eq_false_2; [done | congruence |].
      intros [= H]. lia.
  - by rewrite !bool_decide_eq_false_2.
Qed.

Lemma collect_invalid_keeps now user show ss k :
  (∀ seat, getSeatKey show seat ≠ k) →
  ∀ c, same_at k c (collect_invalid now user show ss c).2.
Proof.
  intros Hk. induction ss as [| seat rest IH]; intros c; simpl;
    [apply same_at_refl |].
  pose proof (get_same now (getSeatKey show seat) k c) as Hg.
  destruct (get now (getSeatKey show seat) c) as [raw c1].
  specialize (IH c1).
  destruct (collect_invalid now user show rest c1) as [cs c2].
  simpl in *. eapply same_at_trans; [apply Hg | apply IH].
  intros ->. by eapply Hk.
Qed.

Lemma clear_locks_keeps show ss k :
  (∀ seat, getSeatKey show seat ≠ k) → ∀ c, same_at k c (clear_locks show ss c).
Proof.
  intros Hk. unfold clear_locks.
  induction ss as [| seat rest IH]; intros c; simpl; [apply same_at_refl |].
  eapply same_at_trans; [| apply IH]. apply del_same.
  intros ->. by eapply Hk.
Qed.

(** Past the check of the fields, the handler leaves the counter of the
    user as its gate left it, and answers 429 exactly when the gate found
    the limit exceeded. *)
Lemma createBooking_counter now user show movie ss w :
  show ≠ "" → movie ≠ "" → ss ≠ [] →
  same_at (rateKey user)
    (after_gate now (rateKey user) BOOKING_RATE_LIMIT_TTL (redis w))
    (redis (createBooking now user show movie ss w).2)
  ∧ (status (createBooking now user show movie ss w).1 = 429
     ↔ exceeds (incr (rateKey user) (redis w)).1 BOOKING_RATE_LIMIT_MAX = true).
Proof.
  intros Hshow Hmovie Hss. unfold createBooking.
  rewrite bool_decide_eq_false_2; [| tauto].
  assert (∀ seat, getSeatKey show seat ≠ rateKey user) as Hk
    by (intros seat; apply BookingFacts.seat_key_ne_booking_rate).
  assert ((if bool_decide ((incr (rateKey user) (redis w)).1 = Some 1)
           then expire now (rateKey user) BOOKING_RATE_LIMIT_TTL
                  (incr (rateKey user) (redis w)).2
           else (incr (rateKey user) (redis w)).2)
          = after_gate now (rateKey user) BOOKING_RATE_LIMIT_TTL (redis w)) as Hgate
    by done.
  set (c2 := after_gate now (rateKey user) BOOKING_RATE_LIMIT_TTL (redis w)) in *.
  destruct (incr (rateKey user) (redis w)) as [count c1].
  cbn [fst snd] in *. rewrite Hgate. clear Hgate.
  destruct (exceeds _ _); [split; [apply same_at_refl | done] |].
  destruct (shows w !! show) as [sh |]; [| split; [apply same_at_refl | done]].
  destruct (negb (show_isActive sh)); [split; [apply same_at_refl | done] |].
  destruct (Movies.findById movie (movies w)) as [mv |];
    [| split; [apply same_at_refl | done]].
  destruct (negb (movie_isActive mv)); [split; [apply same_at_refl | done] |].
  pose proof (collect_invalid_keeps now user show ss (rateKey user) Hk c2) as Hinv.
  destruct (collect_invalid now user show ss c2) as [inv c3].
  cbn [snd] in Hinv. destruct inv as [| x inv]; [| by split].
  destruct (Bookings.create _ _) as [[id coll] |]; [| by split].
  split; [| done]. cbn [snd redis emit with_bookings with_redis].
  eapply same_at_trans; [apply Hinv | by apply clear_locks_keeps].
Qed.

End CounterFacts.

Section BookingCounter.
Import InMemory InMemoryFacts Frame BookingRoutes BookingFacts CounterFacts.

(** X19.  Every booking request that names a show, a movie and a seat is
    counted, whatever its answer is: it leaves the counter of the user one
    higher than it found it (1 when there was none); the request that finds
    no counter starts the window of 60 seconds; and the answer is 429
    exactly when the counter found was 10 or more, in which case the
    bookings and the published events are left as they were. *)
Theorem booking_attempts_are_counted now user show movie ss w :
  show ≠ "" → movie ≠ "" → ss ≠ [] →
  store (redis (createBooking now user show movie ss w).2) !! rateKey user
    = Some (Count ((λ n, n + 1) <$> as_number (store (redis w) !! rateKey user)))
  ∧ (store (redis w) !! rateKey user = None →
     ttlTimers (redis (createBooking now user show movie ss w).2) !! rateKey user
       = Some (now + BOOKING_RATE_LIMIT_TTL * 1000))
  ∧ (status (createBooking now user show movie ss w).1 = 429
     ↔ ∃ n, as_number (store (redis w) !! rateKey user) = Some n ∧ 10 ≤ n)
  ∧ (status (createBooking now user show movie ss w).1 = 429 →
     bookings (createBooking now user show movie ss w).2 = bookings w
     ∧ emitted (createBooking now user show movie ss w).2 = emitted w).
Proof.
  intros Hshow Hmovie Hss.
  destruct (createBooking_counter now user show movie ss w Hshow Hmovie Hss)
    as [[Hst Hti] H429].
  split; [| split; [| split]].
  - rewrite Hst. apply gate_store.
  - intros Hnone. rewrite Hti, gate_timer, Hnone. done.
  - rewrite H429. unfold incr, exceeds. cbn [fst].
    destruct (as_number _) as [n |]; cbn [fmap option_fmap option_map].
    + rewrite bool_decide_eq_true. unfold BOOKING_RATE_LIMIT_MAX. split.
      * intros Hn. exists n. split; [done | lia].
      * intros (n' & [= <-] & Hn). lia.
    + split; [done |]. by intros (n' & Hn & _).
  - intros Hs.
    destruct (createBooking_refused now user show movie ss w) as (Hb & _ & He & _);
      [by rewrite Hs | done].
Qed.

(** On the demo server: the booking of [u1] at time 20 is the first of the
    window. *)
Lemma booking_attempts_are_counted_witness :
  store (redis Demo.locked) !! rateKey "u1" = None
  ∧ store (redis (createBooking 20 "u1" "s1" "m1" ["A-1"; "A-2"] Demo.locked).2)
      !! rateKey "u1" = Some (Count (Some 1))
  ∧ ttlTimers (redis (createBooking 20 "u1" "s1" "m1" ["A-1"; "A-2"] Demo.locked).2)
      !! rateKey "u1" = Some 60020.
Proof.
  assert (store (redis Demo.locked) !! rateKey "u1" = None) as Hnone
    by (vm_compute; reflexivity).
  destruct (booking_attempts_are_counted 20 "u1" "s1" "m1" ["A-1"; "A-2"] Demo.locked)
    as (Hcount & Htimer & _); [discriminate | discriminate | discriminate |].
  split; [exact Hnone |]. split.
  - rewrite Hcount, Hnone. reflexivity.
  - exact (Htimer Hnone).
Defined.

End BookingCounter.

(* ===================================================================== *)
(** ** Booked seats, the lock handler and the commit *)
(* ===================================================================== *)

Section BookedSeats.
Import InMemory InMemoryFacts ShowRoutes BookingRoutes LockFacts CommitFacts
  OccupancyFacts BookingFacts.

(** C2, amended.  The lock handler and the seat map answer from the lock
    keys alone and never read the bookings: their answers are the same
    whatever the bookings collection holds.  The booking handler deletes
    the lock keys of the seats it books (201), so the first lock request
    that follows, of any user and for any of these seats, is granted once
    past the rate-limit gate.  In any state, a lock request past the
    rate-limit and show gates is answered 409 exactly when the key of a
    requested seat reads as a value that is not a lock of the requesting
    user (the unexpired lock of another user), with these seats, and 200
    otherwise, whether the seats are booked or not.  The double booking is
    refused only at the commit, by the unique index: a booking request that
    names a seat of a non-cancelled booking of the show is never answered
    201 and stores nothing, and when its requester holds the locks and the
    request reaches the insert, it is answered 409 with the requested seats
    that are booked. *)
Theorem booked_seats_can_be_locked :
  (∀ now user show ss req_user w bs,
     (lockSeats now user show ss (with_bookings bs w)).1
       = (lockSeats now user show ss w).1
     ∧ (getSeats now req_user show (with_bookings bs w)).1
       = (getSeats now req_user show w).1)
  ∧ (∀ now user show movie ss w,
       status (createBooking now user show movie ss w).1 = 201 →
       (∃ id b, (createBooking now user show movie ss w).1
                  = Res 201 (BookingCreated id b)
                ∧ bookings (createBooking now user show movie ss w).2 !! id = Some b
                ∧ bookingStatus b = CONFIRMED ∧ showId b = show ∧ seats b = ss)
       ∧ (∀ seat, seat ∈ ss →
            store (redis (createBooking now user show movie ss w).2)
              !! getSeatKey show seat = None)
       ∧ (∀ now' user' ss',
            ss' ≠ [] → ss' ⊆ ss →
            exceeds (incr (ShowRoutes.rateKey user' show)
                       (redis (fire_timers now'
                                 (createBooking now user show movie ss w).2))).1
              LOCK_RATE_LIMIT_MAX = false →
            (lockSeats now' user' show ss'
               (fire_timers now' (createBooking now user show movie ss w).2)).1
              = Res 200 (LockedSeats ss' SEAT_LOCK_TTL_SECONDS)))
  ∧ (∀ now user show ss w sh,
       ss ≠ [] →
       exceeds (incr (ShowRoutes.rateKey user show) (redis w)).1 LOCK_RATE_LIMIT_MAX
         = false →
       shows w !! show = Some sh → show_isActive sh = true →
       (lockSeats now user show ss w).1
         = match found_conflicts now user show ss (redis w) with
           | [] => Res 200 (LockedSeats ss SEAT_LOCK_TTL_SECONDS)
           | cs => Res 409 (Conflicts cs)
           end)
  ∧ (∀ now user show movie ss w e s,
       e ∈ bookings w → bookingStatus e ≠ CANCELLED → showId e = show →
       s ∈ seats e → s ∈ ss →
       status (createBooking now user show movie ss w).1 ≠ 201
       ∧ bookings (createBooking now user show movie ss w).2 = bookings w
       ∧ ∀ sh, reaches_insert now user show movie ss w sh →
           (createBooking now user show movie ss w).1
             = Res 409 (InvalidSeats (filter (λ x, booked (bookings w) show x) ss))
           ∧ s ∈ filter (λ x, booked (bookings w) show x) ss).
Proof.
  split; [| split; [| split]].
  - intros now user show ss req_user w bs. split.
    + apply lockSeats_ignores_bookings.
    + apply getSeats_ignores_bookings.
  - intros now user show movie ss w H201.
    destruct (createBooking_201_inv _ _ _ _ _ _ H201) as [sh Hreach].
    pose proof Hreach as (_ & _ & _ & _ & Hsh & Hact & _).
    rewrite (createBooking_insert now user show movie ss w sh Hreach) in *.
    destruct (Bookings.create _ _) as [[id coll] |] eqn:Hcreate;
      [| by rewrite duplicate_answer_booked in H201].
    cbn [fst snd] in *.
    assert (∀ seat, seat ∈ ss →
              store (clear_locks show ss (at_insert now user show ss (redis w)))
                !! getSeatKey show seat = None) as Hgone.
    { intros seat Hseat. rewrite clear_locks_store.
      rewrite decide_True; [done |]. by apply list_elem_of_fmap_2. }
    split; [| split].
    + exists id, (new_booking user show movie ss sh). split; [done |].
      unfold Bookings.create in Hcreate.
      destruct (Bookings.duplicate_key _ _); [done |]. injection Hcreate as <- <-.
      split; [| done]. simpl. rewrite lookup_app_r; [| done].
      by rewrite Nat.sub_diag.
    + intros seat Hseat. simpl. by apply Hgone.
    + intros now' user' ss' Hne Hsub Hrate.
      rewrite (lockSeats_locking now' user' show ss' _ sh); try done.
      unfold LockSpec.locking.
      rewrite found_conflicts_nil; [done |].
      intros s Hs. rewrite peek_absent; [done |].
      apply tick_store_None. simpl. apply Hgone. by apply Hsub.
  - intros now user show ss w sh Hne Hrate Hsh Hact.
    rewrite (lockSeats_locking now user show ss w sh); try done.
    unfold LockSpec.locking. by destruct (found_conflicts now user show ss (redis w)).
  - intros now user show movie ss w e s He Hst Hshow Hse Hss.
    destruct (overlap_refused now user show movie ss w e s) as [H201 Hb]; try done.
    split; [done |]. split; [done |]. intros sh Hreach.
    rewrite (createBooking_insert now user show movie ss w sh Hreach).
    unfold Bookings.create.
    rewrite (overlap_is_duplicate user show movie ss sh (bookings w) e s) by done.
    cbn [fst]. split; [apply duplicate_answer_booked |].
    apply list_elem_of_filter. split; [| done].
    unfold booked. apply Exists_exists. by exists e.
Qed.

(** The theorem on the demo server.  [u1] books the two seats it has
    locked; the lock request of [u2] for A-1 at time 30 is granted; the
    lock request of [u3] for A-1 at time 35 conflicts with the lock of
    [u2]; and the booking request of [u2] at time 40, who holds the lock,
    is refused at the insert with the booked seat. *)
Lemma booked_seats_can_be_locked_witness :
  (lockSeats 30 "u2" "s1" ["A-1"]
     (fire_timers 30
        (createBooking 20 "u1" "s1" "m1" ["A-1"; "A-2"]
           (fire_timers 20 Demo.locked)).2)).1
    = Res 200 (LockedSeats ["A-1"] SEAT_LOCK_TTL_SECONDS)
  ∧ (lockSeats 35 "u3" "s1" ["A-1"] (fire_timers 35 Demo.relocked)).1
    = Res 409 (Conflicts ["A-1"])
  ∧ (createBooking 40 "u2" "s1" "m1" ["A-1"] (fire_timers 40 Demo.relocked)).1
    = Res 409 (InvalidSeats ["A-1"]).
Proof.
  destruct booked_seats_can_be_locked as (_ & Hfirst & Hlock & Hcommit).
  split; [| split].
  - destruct (Hfirst 20 "u1" "s1" "m1" ["A-1"; "A-2"] (fire_timers 20 Demo.locked))
      as (_ & _ & Hgrant); [vm_compute; reflexivity |].
    apply Hgrant.
    + discriminate.
    + intros x ->%list_elem_of_singleton. apply list_elem_of_here.
    + vm_compute; reflexivity.
  - rewrite (Hlock 35 "u3" "s1" ["A-1"] (fire_timers 35 Demo.relocked) Demo.show1);
      [vm_compute; reflexivity | discriminate | vm_compute; reflexivity
       | vm_compute; reflexivity | reflexivity].
  - assert (bookings (fire_timers 40 Demo.relocked)
            = [mkBooking "u1" "s1" "m1" ["A-1"; "A-2"] 500 CONFIRMED PENDING WEB None])
      as Hb by (vm_compute; reflexivity).
    destruct (Hcommit 40 "u2" "s1" "m1" ["A-1"] (fire_timers 40 Demo.relocked)
                (mkBooking "u1" "s1" "m1" ["A-1"; "A-2"] 500 CONFIRMED PENDING WEB None)
                "A-1") as (_ & _ & Hins).
    + rewrite Hb. apply list_elem_of_here.
    + discriminate.
    + reflexivity.
    + apply list_elem_of_here.
    + apply list_elem_of_here.
    + destruct (Hins Demo.show1) as [Hans _].
      * split; [discriminate |]. split; [discriminate |]. split; [discriminate |].
        split; [vm_compute; reflexivity |]. split; [vm_compute; reflexivity |].
        split; [reflexivity |]. split; [| vm_compute; reflexivity].
        exists Demo.movie1. split; vm_compute; reflexivity.
      * rewrite Hans. vm_compute; reflexivity.
Defined.

End BookedSeats.

(* ===================================================================== *)
(** ** Lock requests that overlap *)
(* ===================================================================== *)

Module TaskFacts.
Import InMemory InMemoryFacts ShowRoutes LockTask LockFacts.

Lemma with_redis_id w : with_redis (redis w) w = w.
Proof. by destruct w. Qed.

(** The second loop, run with nothing in between, is [set_locks]. *)
Lemma alone_set now user show ss todo : ∀ w,
  alone now user show ss (next_set now user show ss now todo w)
    (finish user show ss [] (with_redis (set_locks now user show todo (redis w)) w)).
Proof.
  induction todo as [| seat rest IH]; intros w.
  - cbn [next_set set_locks]. rewrite with_redis_id. apply alone_done.
  - cbn [next_set set_locks]. apply alone_resume.
    cbn [resume task_pc task_user task_show task_seats].
    exact (IH (with_redis (set now (getSeatKey show seat) (PLock user now)
                             SEAT_LOCK_TTL_SECONDS (redis w)) w)).
Qed.

(** The first loop, run with nothing in between, is [collect_conflicts],
    and the second loop follows when it found no conflict. *)
Lemma alone_get now user show ss todo : ∀ acc w,
  alone now user show ss (next_get now user show ss now todo acc w)
    (match acc ++ (collect_conflicts now user show todo (redis w)).1 with
     | [] => finish user show ss []
               (with_redis (set_locks now user show ss
                              (collect_conflicts now user show todo (redis w)).2) w)
     | cs => finish user show ss cs
               (with_redis (collect_conflicts now user show todo (redis w)).2 w)
     end).
Proof.
  induction todo as [| seat rest IH]; intros acc w.
  - cbn [next_get collect_conflicts fst snd]. rewrite app_nil_r.
    destruct acc as [| x acc].
    + apply alone_set.
    + rewrite with_redis_id. apply alone_done.
  - cbn [next_get collect_conflicts].
    destruct (get now (getSeatKey show seat) (redis w)) as [raw c1] eqn:Hget.
    apply alone_resume.
    cbn [resume task_pc task_user task_show task_seats].
    specialize (IH (if seat_conflicts user raw then acc ++ [seat] else acc)
                   (with_redis c1 w)).
    cbn [redis with_redis] in IH.
    destruct (collect_conflicts now user show rest c1) as [cs c2].
    cbn [fst snd] in *.
    assert ((if seat_conflicts user raw then acc ++ [seat] else acc) ++ cs
            = acc ++ (if seat_conflicts user raw then seat :: cs else cs)) as Happ.
    { destruct (seat_conflicts user raw); [by rewrite <- app_assoc | done]. }
    rewrite Happ in IH. exact IH.
Qed.

(** The handler from the rate-limit test on, as [lockSeats] has it. *)
Lemma alone_gate now user show ss count c2 w :
  ss ≠ [] →
  alone now user show ss (gate count (with_redis c2 w))
    (if exceeds count LOCK_RATE_LIMIT_MAX
     then (Finished (Res 429 (Message "Too many seat lock attempts. Please slow down.")),
           with_redis c2 w)
     else
       match shows w !! show with
       | Some sh =>
           if show_isActive sh then
             match (collect_conflicts now user show ss c2).1 with
             | [] => finish user show ss []
                       (with_redis (set_locks now user show ss
                                      (collect_conflicts now user show ss c2).2) w)
             | cs => finish user show ss cs
                       (with_redis (collect_conflicts now user show ss c2).2 w)
             end
           else (Finished (Res 404 (Message "Show not found")), with_redis c2 w)
       | None => (Finished (Res 404 (Message "Show not found")), with_redis c2 w)
       end).
Proof.
  intros Hne. unfold gate. destruct (exceeds count LOCK_RATE_LIMIT_MAX);
    [apply alone_done |].
  apply alone_resume. cbn [resume task_pc task_user task_show task_seats].
  cbn [shows with_redis].
  destruct (shows w !! show) as [sh |]; [| apply alone_done].
  destruct (show_isActive sh); [| apply alone_done].
  rewrite proxy_has_no_eval.
  exact (alone_get now user show ss ss [] (with_redis c2 w)).
Qed.

(** A handler that runs on its own does what [lockSeats] does. *)
Lemma alone_is_lockSeats now user show ss w :
  alone now user show ss (start now user show ss w)
    (Finished (lockSeats now user show ss w).1, (lockSeats now user show ss w).2).
Proof.
  destruct ss as [| s0 rest]; [apply alone_done |].
  assert (s0 :: rest ≠ []) as Hne by done.
  assert (∀ count c2,
    alone now user show (s0 :: rest) (gate count (with_redis c2 w))
      (Finished
         (if exceeds count LOCK_RATE_LIMIT_MAX
          then (Res 429 (Message "Too many seat lock attempts. Please slow down."),
                with_redis c2 w)
          else
            match shows w !! show with
            | Some sh =>
                if show_isActive sh then
                  let '(conflicts, c4) :=
                    let '(cs, c) := collect_conflicts now user show (s0 :: rest) c2 in
                    (cs, match cs with
                         | [] => set_locks now user show (s0 :: rest) c
                         | _ => c
                         end) in
                  let w' := emit show (seatsLocked show (s0 :: rest) user)
                              (with_redis c4 w) in
                  match conflicts with
                  | [] => (Res 200 (LockedSeats (s0 :: rest) SEAT_LOCK_TTL_SECONDS), w')
                  | _ => (Res 409 (Conflicts conflicts), w')
                  end
                else (Res 404 (Message "Show not found"), with_redis c2 w)
            | None => (Res 404 (Message "Show not found"), with_redis c2 w)
            end).1,
       (if exceeds count LOCK_RATE_LIMIT_MAX
        then (Res 429 (Message "Too many seat lock attempts. Please slow down."),
              with_redis c2 w)
        else
          match shows w !! show with
          | Some sh =>
              if show_isActive sh then
                let '(conflicts, c4) :=
                  let '(cs, c) := collect_conflicts now user show (s0 :: rest) c2 in
                  (cs, match cs with
                       | [] => set_locks now user show (s0 :: rest) c
                       | _ => c
                       end) in
                let w' := emit show (seatsLocked show (s0 :: rest) user)
                            (with_redis c4 w) in
                match conflicts with
                | [] => (Res 200 (LockedSeats (s0 :: rest) SEAT_LOCK_TTL_SECONDS), w')
                | _ => (Res 409 (Conflicts conflicts), w')
                end
              else (Res 404 (Message "Show not found"), with_redis c2 w)
          | None => (Res 404 (Message "Show not found"), with_redis c2 w)
          end).2)) as Hgate.
  { intros count c2.
    pose proof (alone_gate now user show (s0 :: rest) count c2 w Hne) as H.
    revert H. destruct (exceeds count LOCK_RATE_LIMIT_MAX); [done |].
    destruct (shows w !! show) as [sh |]; [| done].
    destruct (show_isActive sh); [| done].
    destruct (collect_conflicts now user show (s0 :: rest) c2) as [cs c].
    cbn [fst snd]. by destruct cs. }
  unfold start, lockSeats.
  destruct (incr (rateKey user show) (redis w)) as [count c1].
  apply alone_resume. cbn [resume task_pc task_user task_show task_seats].
  case_bool_decide.
  - apply alone_resume. cbn [resume task_pc task_user task_show task_seats].
    exact (Hgate count (expire now (rateKey user show) LOCK_RATE_LIMIT_TTL c1)).
  - exact (Hgate count c1).
Qed.

End TaskFacts.

Section Overlap.
Import InMemory InMemoryFacts ShowRoutes LockTask.

(** C4 fails on the code.  The handler gives the event loop back at every
    [redis.get] and [redis.set] of its two loops, and the script that would
    check and set in one step is never run (the proxy has no [eval]).  On
    the demo server with no seat locked, [u1] asks for A-1 and A-2 and [u2]
    for A-2 and A-1 at the same time, and their handlers are resumed in
    turn: both read their two keys before either writes, both are answered
    200 for both seats, and A-1 is left locked by [u2] and A-2 by [u1], so
    neither request left every seat it was granted locked for its user.
    Handled one after the other, the same requests are answered 200 and
    409 with both seats. *)
Theorem overlapping_lock_requests_both_granted :
  task_pc <$> sys_tasks (interleave (mkSystem Demo.start []) Demo.overlap)
    = [Finished (Res 200 (LockedSeats ["A-1"; "A-2"] SEAT_LOCK_TTL_SECONDS));
       Finished (Res 200 (LockedSeats ["A-2"; "A-1"] SEAT_LOCK_TTL_SECONDS))]
  ∧ peek 8 (getSeatKey "s1" "A-1")
      (redis (sys_world (interleave (mkSystem Demo.start []) Demo.overlap)))
    = Some (PLock "u2" 4)
  ∧ peek 8 (getSeatKey "s1" "A-2")
      (redis (sys_world (interleave (mkSystem Demo.start []) Demo.overlap)))
    = Some (PLock "u1" 4)
  ∧ (run Demo.start [(1, LockSeats "u1" "s1" ["A-1"; "A-2"]);
                     (1, LockSeats "u2" "s1" ["A-2"; "A-1"])]).1
    = [Res 200 (LockedSeats ["A-1"; "A-2"] SEAT_LOCK_TTL_SECONDS);
       Res 409 (Conflicts ["A-2"; "A-1"])].
Proof.
  split; [vm_compute; reflexivity |]. split; [vm_compute; reflexivity |].
  split; vm_compute; reflexivity.
Qed.

End Overlap.
